(** * JobStore: a document collection with out-of-band blobs

    A shallow embedding of [src/jobflow/core/store.py].  Documents are the
    JSON-safe trees that [jsanitize(doc, strict=True)] produces; the two
    backing collections are lists of records in insertion order; Python
    exceptions are the [Raise] branch of a result type; the identifiers that
    [suuid()] mints come from a counter threaded through the store. *)

From Stdlib Require Import List String Ascii ZArith Bool Lia Arith.
From Stdlib Require Import Permutation Sorting.Sorted OrdersEx DecimalString.
From Stdlib Require Import RelationClasses DecimalNat.
Import ListNotations.
Local Open Scope string_scope.
Local Open Scope Z_scope.
Local Open Scope list_scope.

Set Implicit Arguments.
Set Warnings "-register-all".

(* ================================================================= *)
(** ** Values *)

(** A JSON-safe Python value: [None], [bool], [int], [str], [list], and
    [dict] with string keys (an insertion-ordered association list). *)
Inductive value : Type :=
| VNone
| VBool (b : bool)
| VInt (z : Z)
| VStr (s : string)
| VList (l : list value)
| VDict (kv : list (string * value)).

Definition dict := list (string * value).

Section ValueInd.
Variable P : value -> Prop.
Hypothesis HNone : P VNone.
Hypothesis HBool : forall b, P (VBool b).
Hypothesis HInt : forall z, P (VInt z).
Hypothesis HStr : forall s, P (VStr s).
Hypothesis HList : forall l, Forall P l -> P (VList l).
Hypothesis HDict : forall kv, Forall (fun e => P (snd e)) kv -> P (VDict kv).

Fixpoint value_ind' (v : value) : P v :=
  match v with
  | VNone => HNone
  | VBool b => HBool b
  | VInt z => HInt z
  | VStr s => HStr s
  | VList l =>
      HList ((fix go (l : list value) : Forall P l :=
                match l with
                | [] => Forall_nil _
                | x :: r => Forall_cons _ (value_ind' x) (go r)
                end) l)
  | VDict kv =>
      HDict ((fix go (kv : dict) : Forall (fun e => P (snd e)) kv :=
                match kv with
                | [] => Forall_nil _
                | e :: r => Forall_cons _ (value_ind' (snd e)) (go r)
                end) kv)
  end.
End ValueInd.

(** Structural equality, the [==] of Python on values of one shape. *)
Fixpoint value_eqb (a b : value) : bool :=
  match a, b with
  | VNone, VNone => true
  | VBool x, VBool y => Bool.eqb x y
  | VInt x, VInt y => Z.eqb x y
  | VStr x, VStr y => String.eqb x y
  | VList x, VList y =>
      (fix go (x y : list value) : bool :=
         match x, y with
         | [], [] => true
         | u :: x', w :: y' => value_eqb u w && go x' y'
         | _, _ => false
         end) x y
  | VDict x, VDict y =>
      (fix go (x y : dict) : bool :=
         match x, y with
         | [], [] => true
         | (k, u) :: x', (k', w) :: y' =>
             String.eqb k k' && value_eqb u w && go x' y'
         | _, _ => false
         end) x y
  | _, _ => false
  end.

(** *** Dictionaries *)

(** [d.get(k)]: the entry of key [k]. *)
Fixpoint dict_get (k : string) (kv : dict) : option value :=
  match kv with
  | [] => None
  | (k', v) :: r => if String.eqb k k' then Some v else dict_get k r
  end.

(** [k in d]. *)
Definition dict_has (k : string) (kv : dict) : bool :=
  match dict_get k kv with Some _ => true | None => false end.

(** [d[k] = v]: overwrite the entry in place, or append a new one. *)
Fixpoint dict_set (k : string) (v : value) (kv : dict) : dict :=
  match kv with
  | [] => [(k, v)]
  | (k', v') :: r =>
      if String.eqb k k' then (k, v) :: r else (k', v') :: dict_set k v r
  end.

(** [d.update(e)]. *)
Definition dict_update (kv e : dict) : dict :=
  fold_left (fun acc p => dict_set (fst p) (snd p) acc) e kv.

Definition keys (kv : dict) : list string := map fst kv.

Fixpoint nodupb (l : list string) : bool :=
  match l with
  | [] => true
  | x :: r => negb (existsb (String.eqb x) r) && nodupb r
  end.

(** Every dictionary of the tree has pairwise distinct keys, as every
    Python [dict] has. *)
Fixpoint wf_value (v : value) : bool :=
  match v with
  | VList l => forallb wf_value l
  | VDict kv => nodupb (keys kv) && forallb (fun e => wf_value (snd e)) kv
  | _ => true
  end.

(* ================================================================= *)
(** ** Exceptions *)

Inductive exn : Type :=
| KeyError | IndexError | TypeError | ValueError | OperationFailure.

Inductive result (A : Type) : Type :=
| Ok (a : A)
| Raise (e : exn).
Arguments Raise {A} e.

Definition bind {A B} (m : result A) (f : A -> result B) : result B :=
  match m with Ok a => f a | Raise e => Raise e end.

Notation "x <- m ;; k" := (bind m (fun x => k))
  (at level 61, m at next level, right associativity).
Notation "' p <- m ;; k" := (bind m (fun p => k))
  (at level 61, p pattern, m at next level, right associativity).

Definition from_option {A} (e : exn) (o : option A) : result A :=
  match o with Some a => Ok a | None => Raise e end.

Fixpoint mapM {A B} (f : A -> result B) (l : list A) : result (list B) :=
  match l with
  | [] => Ok []
  | x :: r => y <- f x ;; ys <- mapM f r ;; Ok (y :: ys)
  end.

(* ================================================================= *)
(** ** Locations *)

(** A path segment: a dictionary key or a list index. *)
Inductive seg : Type :=
| Key (k : string)
| Idx (i : nat).

Definition location := list seg.

Definition seg_eqb (a b : seg) : bool :=
  match a, b with
  | Key x, Key y => String.eqb x y
  | Idx x, Idx y => Nat.eqb x y
  | _, _ => false
  end.

Fixpoint loc_eqb (a b : location) : bool :=
  match a, b with
  | [], [] => true
  | x :: a', y :: b' => seg_eqb x y && loc_eqb a' b'
  | _, _ => false
  end.

(** One step down a container. *)
Definition get_seg (v : value) (s : seg) : option value :=
  match v, s with
  | VDict kv, Key k => dict_get k kv
  | VList l, Idx i => nth_error l i
  | _, _ => None
  end.

(** The position addressed by a path, if the tree has it. *)
Fixpoint get_path (v : value) (p : location) : option value :=
  match p with
  | [] => Some v
  | s :: p' =>
      match get_seg v s with
      | Some c => get_path c p'
      | None => None
      end
  end.

(** pydash [get(obj, path)]: the value at the path, [None] when the path
    is absent. *)
Definition get (v : value) (p : location) : value :=
  match get_path v p with Some x => x | None => VNone end.

(** pydash [has(obj, path)]. *)
Definition has (v : value) (p : location) : bool :=
  match get_path v p with Some _ => true | None => false end.

Fixpoint list_set (l : list value) (i : nat) (x : value) : option (list value) :=
  match l, i with
  | [], _ => None
  | _ :: r, O => Some (x :: r)
  | y :: r, S j =>
      match list_set r j x with
      | Some r' => Some (y :: r')
      | None => None
      end
  end.

(** [container[s] = x]. *)
Definition set_seg (v : value) (s : seg) (x : value) : option value :=
  match v, s with
  | VDict kv, Key k => Some (VDict (dict_set k x kv))
  | VList l, Idx i =>
      match list_set l i x with
      | Some l' => Some (VList l')
      | None => None
      end
  | _, _ => None
  end.

(** Modelled from the spec: the single write of [jobflow.utils.find.
    update_in_dictionary], which is not among the sources.  "Sets the value
    at that exact path, overwriting the terminal leaf in place"; it "assumes
    every intermediate container on the path already exists", so a path
    with a missing container, and the empty path, have no result. *)
Fixpoint set_path (v : value) (p : location) (x : value) : option value :=
  match p with
  | [] => None
  | [s] => set_seg v s x
  | s :: p' =>
      match get_seg v s with
      | Some c =>
          match set_path c p' x with
          | Some c' => set_seg v s c'
          | None => None
          end
      | None => None
      end
  end.

(** Modelled from the spec: [jobflow.utils.find.update_in_dictionary], the
    [write(tree, location_to_value)] of the location algebra: "for each
    Location, sets the value at that exact path", in the order of the
    mapping. *)
Fixpoint update_in_dictionary (d : value) (updates : list (location * value))
  : result value :=
  match updates with
  | [] => Ok d
  | (loc, x) :: r =>
      d' <- from_option KeyError (set_path d loc x) ;;
      update_in_dictionary d' r
  end.

(** Modelled from the spec: [jobflow.utils.find.find_key], the [find] of
    the location algebra, searching by key name.  "At each mapping, for
    every key whose name equals the search criterion it records the path to
    that key (optionally including the key itself as the final segment,
    controlled by include_terminal); recursion continues into every nested
    mapping/sequence reachable from any key or index, not only matches";
    the order is the document's key and index order.  [path] is the
    reversed path from the root. *)
Fixpoint lookup (key : string) (include_end : bool) (path : location)
  (obj : value) : list location :=
  match obj with
  | VDict kv =>
      (if dict_has key kv
       then [rev (if include_end then Key key :: path else path)]
       else [])
      ++ (fix items (kv : dict) : list location :=
            match kv with
            | [] => []
            | (k, v) :: r => lookup key include_end (Key k :: path) v ++ items r
            end) kv
  | VList l =>
      (fix elems (i : nat) (l : list value) : list location :=
         match l with
         | [] => []
         | v :: r => lookup key include_end (Idx i :: path) v ++ elems (S i) r
         end) O l
  | _ => []
  end.

Definition find_key (d : value) (key : string) (include_end : bool)
  : list location :=
  lookup key include_end [] d.

(* ================================================================= *)
(** ** Association lists with an in-place overwrite *)

(** A Python [dict] whose keys are not strings (locations, blob
    identifiers): [d[k] = v] keeps the position of an existing key. *)
Section Assoc.
Variables K V : Type.
Variable eqb : K -> K -> bool.

Fixpoint assoc_get (k : K) (l : list (K * V)) : option V :=
  match l with
  | [] => None
  | (k', v) :: r => if eqb k k' then Some v else assoc_get k r
  end.

Fixpoint assoc_set (k : K) (v : V) (l : list (K * V)) : list (K * V) :=
  match l with
  | [] => [(k, v)]
  | (k', v') :: r =>
      if eqb k k' then (k, v) :: r else (k', v') :: assoc_set k v r
  end.

(** [dict(pairs)]. *)
Definition assoc_of (pairs : list (K * V)) : list (K * V) :=
  fold_left (fun acc p => assoc_set (fst p) (snd p) acc) pairs [].
End Assoc.

(* ================================================================= *)
(** ** The backing collections *)

(** The filter language of a backing collection as far as the store uses
    it: a conjunction of conditions on top-level fields. *)
Inductive cond : Type :=
| CEq (v : value)
| CIn (vs : list value)
| CExists (b : bool).

Definition criteria := list (string * cond).

(** A field equals [v] when it holds [v], or is an array with the element
    [v]; an absent field counts as [None]. *)
Definition field_matches (v : value) (x : option value) : bool :=
  match x with
  | Some (VList l) => value_eqb (VList l) v || existsb (fun e => value_eqb e v) l
  | Some y => value_eqb y v
  | None => value_eqb VNone v
  end.

Definition cond_holds (c : cond) (x : option value) : bool :=
  match c with
  | CEq v => field_matches v x
  | CIn vs => existsb (fun v => field_matches v x) vs
  | CExists b => Bool.eqb b (match x with Some _ => true | None => false end)
  end.

Definition matches (c : criteria) (r : value) : bool :=
  forallb (fun fc => cond_holds (snd fc) (get_seg r (Key (fst fc)))) c.

(** A projection: a list of field names, or a mapping from field names to
    an inclusion flag. *)
Inductive props : Type :=
| PList (l : list string)
| PDict (d : dict).

Definition truthy (v : value) : bool :=
  match v with
  | VNone => false
  | VBool b => b
  | VInt z => negb (z =? 0)
  | VStr s => negb (String.eqb s "")
  | VList l => match l with [] => false | _ => true end
  | VDict kv => match kv with [] => false | _ => true end
  end.

Definition mem (k : string) (l : list string) : bool :=
  existsb (String.eqb k) l.

Definition include_fields (fields : list string) (r : value) : value :=
  match r with
  | VDict kv => VDict (filter (fun e => mem (fst e) fields) kv)
  | _ => r
  end.

Definition exclude_fields (fields : list string) (r : value) : value :=
  match r with
  | VDict kv => VDict (filter (fun e => negb (mem (fst e) fields)) kv)
  | _ => r
  end.

(** The projection of one record: no projection and the empty projection
    give the whole record, inclusion flags give the named fields, exclusion
    flags give the others, and a mix of the two is refused. *)
Definition project (p : option props) (r : value) : result value :=
  match p with
  | None => Ok r
  | Some (PList []) => Ok r
  | Some (PList l) => Ok (include_fields l r)
  | Some (PDict []) => Ok r
  | Some (PDict d) =>
      if forallb (fun e => truthy (snd e)) d then Ok (include_fields (keys d) r)
      else if forallb (fun e => negb (truthy (snd e))) d
           then Ok (exclude_fields (keys d) r)
           else Raise OperationFailure
  end.

(** *** Sorting *)

Section InsertionSort.
Variable A : Type.
Variable leb : A -> A -> bool.

(** [x] goes before the first element it is not greater than: among
    equal elements the earlier one stays first. *)
Fixpoint insert (x : A) (l : list A) : list A :=
  match l with
  | [] => [x]
  | y :: r => if leb x y then x :: y :: r else y :: insert x r
  end.

Fixpoint sort (l : list A) : list A :=
  match l with
  | [] => []
  | x :: r => insert x (sort r)
  end.
End InsertionSort.

(** The order of the collection on the values of a sort field, by kind
    first (absent or null, number, string, mapping, array, boolean) and
    inside a kind by value. *)
Definition kind_rank (x : option value) : Z :=
  match x with
  | None | Some VNone => 1
  | Some (VInt _) => 2
  | Some (VStr _) => 3
  | Some (VDict _) => 4
  | Some (VList _) => 5
  | Some (VBool _) => 6
  end.

Definition field_leb (x y : option value) : bool :=
  if kind_rank x <? kind_rank y then true
  else if kind_rank y <? kind_rank x then false
  else match x, y with
       | Some (VInt a), Some (VInt b) => a <=? b
       | Some (VStr a), Some (VStr b) =>
           match OrdersEx.String_as_OT.compare a b with Gt => false | _ => true end
       | Some (VBool a), Some (VBool b) => implb a b
       | _, _ => true
       end.

(** A sort specification: a field and a direction, [1] ascending and [-1]
    descending. *)
Definition sort_spec := option (string * Z).

Definition sort_records (s : sort_spec) (l : list value) : list value :=
  match s with
  | None => l
  | Some (f, dir) =>
      let k r := get_seg r (Key f) in
      if dir <? 0 then sort (fun a b => field_leb (k b) (k a)) l
      else sort (fun a b => field_leb (k a) (k b)) l
  end.

Definition take_limit (limit : nat) (l : list value) : list value :=
  match limit with O => l | _ => firstn limit l end.

(** A backing collection: its primary key field and its records in
    insertion order. *)
Record collection : Type := {
  key : string;
  records : list value
}.

(** [Store.query]: filter, sort, skip, limit, project. *)
Definition coll_query (c : collection) (crit : criteria) (p : option props)
  (s : sort_spec) (skip limit : nat) : result (list value) :=
  mapM (project p)
    (take_limit limit (skipn skip (sort_records s (filter (matches crit) (records c))))).

(** The replacement of the first record that matches, or an insertion. *)
Fixpoint replace_one (c : criteria) (d : value) (recs : list value) : list value :=
  match recs with
  | [] => [d]
  | r :: rest => if matches c r then d :: rest else r :: replace_one c d rest
  end.

(** [d[k]] on a document. *)
Definition getitem (d : value) (k : string) : result value :=
  match d with
  | VDict kv => from_option KeyError (dict_get k kv)
  | _ => Raise TypeError
  end.

(** The search document [{k: d[k] for k in key}] of one upsert. *)
Definition search_doc (key : list string) (d : value) : result criteria :=
  mapM (fun k => v <- getitem d k ;; Ok (k, CEq v)) key.

(** [Store.update(docs, key)]: upsert every document by the key fields,
    the collection's own key when none is given. *)
Definition coll_update (c : collection) (docs : list value)
  (k : option (list string)) : result collection :=
  let kf := match k with Some l => l | None => [key c] end in
  reqs <- mapM (fun d => s <- search_doc kf d ;; Ok (s, d)) docs ;;
  Ok {| key := key c;
        records := fold_left (fun recs r => replace_one (fst r) (snd r) recs)
                     reqs (records c) |}.

(** [Store.remove_docs(criteria)]. *)
Definition coll_remove (c : collection) (crit : criteria) : collection :=
  {| key := key c;
     records := filter (fun r => negb (matches crit r)) (records c) |}.

Definition coll_count (c : collection) (crit : criteria) : nat :=
  List.length (filter (matches crit) (records c)).

(* ================================================================= *)
(** ** Load and save specifications *)

(** What a caller may name in a load or save specification: a field name,
    a member of an enumeration (with its value), or an [MSONable] class
    (with its module and its name). *)
Inductive item : Type :=
| IStr (s : string)
| IEnum (v : string)
| IClass (module name : string).

(** The [load] argument: [None], a boolean, one item, or a sequence. *)
Inductive load_type : Type :=
| LoadNone
| LoadBool (b : bool)
| LoadOne (x : item)
| LoadMany (l : list item).

(** A standardized selector: a field name, or a [(module, class)] pair. *)
Inductive selector : Type :=
| SName (s : string)
| SType (module name : string).

Inductive load_keys : Type :=
| LKBool (b : bool)
| LKList (l : list selector).

Definition prepare_item (x : item) : selector :=
  match x with
  | IEnum v => SName v
  | IClass m n => SType m n
  | IStr s => SName s
  end.

Definition _prepare_load (load : load_type) : load_keys :=
  match load with
  | LoadNone => LKList []
  | LoadBool b => LKBool b
  | LoadOne x => LKList (map prepare_item [x])
  | LoadMany l => LKList (map prepare_item l)
  end.

(** [if load_keys:]. *)
Definition load_truthy (lk : load_keys) : bool :=
  match lk with
  | LKBool b => b
  | LKList l => match l with [] => false | _ => true end
  end.

(** [blob.get(k, None)]. *)
Definition blob_get (blob : value) (k : string) : result value :=
  match blob with
  | VDict kv => Ok (match dict_get k kv with Some v => v | None => VNone end)
  | _ => Raise TypeError
  end.

(** [location[-1]]. *)
Definition last_seg (loc : location) : result seg :=
  match rev loc with
  | s :: _ => Ok s
  | [] => Raise IndexError
  end.

(** The test of the inner loop of [_filter_blobs]: the type selector first,
    and the final path segment only when that one fails. *)
Definition selects (blob : value) (loc : location) (ltype : selector)
  : result bool :=
  by_type <- match ltype with
             | SType m c =>
                 cls <- blob_get blob "@class" ;;
                 if value_eqb cls (VStr c)
                 then md <- blob_get blob "@module" ;; Ok (value_eqb md (VStr m))
                 else Ok false
             | SName _ => Ok false
             end ;;
  if by_type then Ok true
  else
    s <- last_seg loc ;;
    Ok (match s, ltype with
        | Key k, SName n => String.eqb k n
        | _, _ => false
        end).

(** The selectors of [load] that keep the pair, one copy of the pair for
    each of them. *)
Fixpoint keep_for (bl : value * location) (load : list selector)
  : result (list (value * location)) :=
  match load with
  | [] => Ok []
  | ltype :: r =>
      b <- selects (fst bl) (snd bl) ltype ;;
      rest <- keep_for bl r ;;
      Ok (if b then bl :: rest else rest)
  end.

Fixpoint filter_pairs (pairs : list (value * location)) (load : list selector)
  : result (list (value * location)) :=
  match pairs with
  | [] => Ok []
  | bl :: r =>
      kept <- keep_for bl load ;;
      rest <- filter_pairs r load ;;
      Ok (kept ++ rest)
  end.

Definition _filter_blobs (blob_infos : list value) (locations : list location)
  (load : load_keys) : result (list value * list location) :=
  match load with
  | LKBool true => Ok (blob_infos, locations)
  | LKBool false => Ok ([], [])
  | LKList [] => Ok ([], [])
  | LKList l =>
      kept <- filter_pairs (combine blob_infos locations) l ;;
      Ok (map fst kept, map snd kept)
  end.

(** Modelled from the spec: [jobflow.utils.uuid.suuid], which is not among
    the sources: it "mints a fresh globally-unique opaque identifier".  The
    identifier is the decimal numeral of a counter that the store threads
    through its writes. *)
Definition suuid (n : nat) : string :=
  DecimalString.NilEmpty.string_of_uint (Nat.to_uint n).

(** [isinstance(obj, MSONable)], with the class and module names of the
    object.  The values of a sanitized document are plain data: none of
    them is an instance of a class. *)
Definition msonable (obj : value) : option (string * string) := None.

Definition _get_blob_info (n : nat) (obj : value) : dict :=
  let (class_name, module_name) :=
    match msonable obj with
    | Some cm => cm
    | None => ("", "")
    end in
  [("@class", VStr class_name); ("@module", VStr module_name);
   ("blob_uuid", VStr (suuid n))].

(* ================================================================= *)
(** ** The store *)

(** A name in a save specification (a class is not a field name and is
    left out of the model). *)
Inductive save_item : Type :=
| SvStr (s : string)
| SvEnum (v : string).

(** The [save] argument of [update]. *)
Inductive save_arg : Type :=
| SaveNone
| SaveBool (b : bool)
| SaveOne (x : save_item)
| SaveMany (l : list save_item).

(** The [docs] argument of [update]: one document or a list. *)
Inductive docs_arg : Type :=
| OneDoc (d : value)
| ManyDocs (l : list value).

(** The store after [__init__]: the two collections, the default save and
    load specifications, and the counter behind [suuid]. *)
Record JobStore : Type := {
  docs_store : collection;
  data_store : collection;
  save : list save_item;
  load : load_type;
  next_uuid : nat
}.

(** [__init__] as far as the collections go: it fixes their key fields. *)
Definition new_store (docs data : list value) (sv : list save_item)
  (ld : load_type) (n : nat) : JobStore :=
  {| docs_store := {| key := "uuid"; records := docs |};
     data_store := {| key := "blob_id"; records := data |};
     save := sv;
     load := match ld with LoadNone => LoadBool false | _ => ld end;
     next_uuid := n |}.

(** [monty.json.jsanitize(doc, strict=True)] on a value that is JSON-safe
    already. *)
Definition jsanitize (d : value) : value := d.

(** *** Reading *)

(** [properties += ["uuid", "index"]], or
    [properties.update({"uuid": 1, "index": 1})]. *)
Definition with_identity (p : option props) : option props :=
  match p with
  | Some (PList l) => Some (PList (l ++ ["uuid"; "index"]))
  | Some (PDict d) =>
      Some (PDict (dict_update d [("uuid", VInt 1); ("index", VInt 1)]))
  | None => None
  end.

(** A dictionary key must be hashable. *)
Definition hashable (v : value) : bool :=
  match v with
  | VList _ | VDict _ => false
  | _ => true
  end.

(** [{b["blob_uuid"]: loc for b, loc in zip(blobs, locations)}]. *)
Fixpoint object_info_of (pairs : list (value * location))
  (acc : list (value * location)) : result (list (value * location)) :=
  match pairs with
  | [] => Ok acc
  | (b, loc) :: r =>
      oid <- getitem b "blob_uuid" ;;
      if hashable oid then object_info_of r (assoc_set value_eqb oid loc acc)
      else Raise TypeError
  end.

(** [{o["blob_uuid"]: o["data"] for o in objects}]. *)
Fixpoint object_map_of (objects : list value) (acc : list (value * value))
  : result (list (value * value)) :=
  match objects with
  | [] => Ok acc
  | o :: r =>
      oid <- getitem o "blob_uuid" ;;
      data <- getitem o "data" ;;
      if hashable oid then object_map_of r (assoc_set value_eqb oid data acc)
      else Raise TypeError
  end.

(** [{tuple(loc): object_map[oid] for oid, loc in object_info.items()}]. *)
Fixpoint to_insert_of (object_info : list (value * location))
  (object_map : list (value * value)) (acc : list (location * value))
  : result (list (location * value)) :=
  match object_info with
  | [] => Ok acc
  | (oid, loc) :: r =>
      x <- from_option KeyError (assoc_get value_eqb oid object_map) ;;
      to_insert_of r object_map (assoc_set loc_eqb loc x acc)
  end.

(** The one batched fetch of [query] against the blob collection. *)
Definition fetcher := criteria -> option props -> result (list value).

Definition data_fetch (data : collection) : fetcher :=
  fun c p => coll_query data c p None 0 0.

(** The body of the loop of [query] on one document; [fetch] is the
    [query] of the blob collection. *)
Definition resolve_with (fetch : fetcher) (lk : load_keys) (doc : value)
  : result value :=
  if load_truthy lk then
    let locations := find_key doc "blob_uuid" false in
    let blobs := map (get doc) locations in
    '(blobs, locations) <- _filter_blobs blobs locations lk ;;
    object_info <- object_info_of (combine blobs locations) [] ;;
    objects <- fetch [("blob_uuid", CIn (map fst object_info))]
                 (Some (PList ["blob_uuid"; "data"])) ;;
    object_map <- object_map_of objects [] ;;
    to_insert <- to_insert_of object_info object_map [] ;;
    update_in_dictionary doc to_insert
  else Ok doc.

Definition resolve (data : collection) : load_keys -> value -> result value :=
  resolve_with (data_fetch data).

Definition query_with (fetch : fetcher) (st : JobStore) (crit : criteria)
  (properties : option props) (srt : sort_spec) (skip limit : nat)
  (ld : load_type) : result (list value) :=
  let ld := match ld with LoadNone => load st | _ => ld end in
  let lk := _prepare_load ld in
  let properties := with_identity properties in
  docs <- coll_query (docs_store st) crit properties srt skip limit ;;
  mapM (resolve_with fetch lk) docs.

Definition query (st : JobStore)
  : criteria -> option props -> sort_spec -> nat -> nat -> load_type ->
    result (list value) :=
  query_with (data_fetch (data_store st)) st.

Definition query_one (st : JobStore) (crit : criteria)
  (properties : option props) (srt : sort_spec) (ld : load_type)
  : result (option value) :=
  docs <- query st crit properties srt 0 1 ld ;;
  Ok (match docs with d :: _ => Some d | [] => None end).

Definition count (st : JobStore) (crit : criteria) : nat :=
  coll_count (docs_store st) crit.

(** *** Writing *)

Definition save_name (x : save_item) : string :=
  match x with
  | SvStr s => s
  | SvEnum v => v
  end.

(** [{k: _get_blob_info(o) for k, o in object_map.items()}], one fresh
    identifier for each entry, in the order of the mapping. *)
Fixpoint blob_infos (n : nat) (object_map : list (location * value))
  : list (location * value) :=
  match object_map with
  | [] => []
  | (k, o) :: r => (k, VDict (_get_blob_info n o)) :: blob_infos (S n) r
  end.

(** The record of one blob: the stub of its location, with the data and
    the identity of the document that owns it.  The write of
    [update_in_dictionary] has left the stub in the document as a value
    ("an inline value placed at the exact tree position", holding the
    identifier and the type tag only), so the [blob.update] that adds the
    three fields bears on the record for the blob collection alone. *)
Definition blob_record (doc : value) (object_info : list (location * value))
  (entry : location * value) : result value :=
  blob <- from_option KeyError (assoc_get loc_eqb (fst entry) object_info) ;;
  u <- getitem doc "uuid" ;;
  i <- getitem doc "index" ;;
  match blob with
  | VDict b =>
      Ok (VDict (dict_update b
                   [("data", snd entry); ("job_uuid", u); ("job_index", i)]))
  | _ => Raise TypeError
  end.

(** The body of the loop of [update] on one document: the document with
    its stubs, the blobs to store, and the next free identifier. *)
Definition stage (save_keys : list string) (n : nat) (doc : value)
  : result (value * list value * nat) :=
  let doc := jsanitize doc in
  match save_keys with
  | [] => Ok (doc, [], n)
  | _ =>
      let locations := flat_map (fun k => find_key doc k true) save_keys in
      let objects := map (get doc) locations in
      let object_map := assoc_of loc_eqb (combine locations objects) in
      let object_info := blob_infos n object_map in
      doc <- update_in_dictionary doc object_info ;;
      blobs <- mapM (blob_record doc object_info) object_map ;;
      Ok (doc, blobs, (n + List.length object_map)%nat)
  end.

Fixpoint stage_all (save_keys : list string) (n : nat) (docs : list value)
  : result (list value * list value * nat) :=
  match docs with
  | [] => Ok ([], [], n)
  | doc :: r =>
      '(d, blobs, n1) <- stage save_keys n doc ;;
      '(ds, blobs', n2) <- stage_all save_keys n1 r ;;
      Ok (d :: ds, blobs ++ blobs', n2)
  end.

Definition update (st : JobStore) (docs : docs_arg)
  (k : option (list string)) (sv : save_arg) : result JobStore :=
  let save_keys :=
    match sv with
    | SaveNone | SaveBool true => save st
    | SaveOne x => [x]
    | SaveMany l => l
    | SaveBool false => []
    end in
  let save_keys := map save_name save_keys in
  let docs := match docs with OneDoc d => [d] | ManyDocs l => l end in
  let k := match k with
           | Some _ => Some ["uuid"; "index"]
           | None => None
           end in
  '(dict_docs, blob_data, n) <- stage_all save_keys (next_uuid st) docs ;;
  docs' <- coll_update (docs_store st) dict_docs k ;;
  data' <- match save_keys with
           | [] => Ok (data_store st)
           | _ => coll_update (data_store st) blob_data (Some ["blob_uuid"])
           end ;;
  Ok {| docs_store := docs'; data_store := data';
        save := save st; load := load st; next_uuid := n |}.

(** *** Removing *)

(** The requests that the store sends to its collections, in order. *)
Inductive request : Type :=
| DataRemove (c : criteria)
| DocsRemove (c : criteria).

(** The loop of [remove_docs]: every document is resolved when the
    generator of [query] reaches it, against the blobs that are left. *)
Fixpoint remove_blobs (lk : load_keys) (data : collection) (docs : list value)
  (trace : list request) : result (collection * list request) :=
  match docs with
  | [] => Ok (data, trace)
  | raw :: r =>
      doc <- resolve data lk raw ;;
      u <- getitem doc "uuid" ;;
      i <- getitem doc "index" ;;
      let c := [("job_uuid", CEq u); ("job_index", CEq i)] in
      remove_blobs lk (coll_remove data c) r (trace ++ [DataRemove c])
  end.

Definition remove_docs (st : JobStore) (crit : criteria)
  : result (JobStore * list request) :=
  let lk := _prepare_load (load st) in
  docs <- coll_query (docs_store st) crit
            (with_identity (Some (PList ["uuid"; "index"]))) None 0 0 ;;
  '(data', trace) <- remove_blobs lk (data_store st) docs [] ;;
  Ok ({| docs_store := coll_remove (docs_store st) crit;
         data_store := data';
         save := save st; load := load st; next_uuid := next_uuid st |},
      trace ++ [DocsRemove crit]).

(** *** Outputs *)

Definition get_output (st : JobStore) (uuid : value) (which : string)
  (ld : load_type) : result value :=
  if String.eqb which "last" || String.eqb which "first" then
    let srt := if String.eqb which "last" then -1 else 1 in
    r <- query_one st [("uuid", CEq uuid)] (Some (PList ["output"]))
           (Some ("index", srt)) ld ;;
    match r with
    | None => Raise ValueError
    | Some d => getitem d "output"
    end
  else
    rs <- query st [("uuid", CEq uuid)] (Some (PList ["output"]))
            (Some ("index", -1)) 0 0 ld ;;
    match rs with
    | [] => Raise ValueError
    | _ => outs <- mapM (fun r => getitem r "output") rs ;; Ok (VList outs)
    end.

(* ================================================================= *)
(** ** Grouping *)

(** The order of Python on values: numbers (booleans among them) by
    value, strings by code point, sequences by their first difference;
    [None] when [<] raises [TypeError].  [Some Eq] is exactly [==]. *)
Definition as_num (v : value) : option Z :=
  match v with
  | VInt z => Some z
  | VBool b => Some (if b then 1 else 0)
  | _ => None
  end.

Definition lex_compare (A : Type) (cmp : A -> A -> option comparison)
  : list A -> list A -> option comparison :=
  fix go (x y : list A) : option comparison :=
    match x, y with
    | [], [] => Some Eq
    | [], _ :: _ => Some Lt
    | _ :: _, [] => Some Gt
    | u :: x', w :: y' =>
        match cmp u w with
        | Some Eq => go x' y'
        | r => r
        end
    end.

Fixpoint py_compare (a b : value) : option comparison :=
  match a, b with
  | VList x, VList y => lex_compare py_compare x y
  | VStr x, VStr y => Some (String_as_OT.compare x y)
  | VNone, VNone => Some Eq
  | VDict _, VDict _ => if value_eqb a b then Some Eq else None
  | _, _ =>
      match as_num a, as_num b with
      | Some x, Some y => Some (x ?= y)
      | _, _ => None
      end
  end.

(** The order and the equality of tuples of values. *)
Definition tuple_compare : list value -> list value -> option comparison :=
  lex_compare py_compare.

Definition tuple_lt (a b : list value) : bool :=
  match tuple_compare a b with Some Lt => true | _ => false end.

Definition tuple_eq (a b : list value) : bool :=
  match tuple_compare a b with Some Eq => true | _ => false end.

Definition comparable (a b : list value) : bool :=
  match tuple_compare a b with Some _ => true | None => false end.

(** [sorted(data, key=key)]: a stable sort by [<] on the keys, which
    raises [TypeError] when two keys of the data do not compare. *)
Definition sorted (A : Type) (key : A -> list value) (data : list A)
  : result (list A) :=
  if forallb (fun a => forallb (fun b => comparable (key a) (key b)) data) data
  then Ok (sort (fun a b => negb (tuple_lt (key b) (key a))) data)
  else Raise TypeError.

(** [itertools.groupby(data, key=key)]: the maximal runs of elements whose
    key equals the key of the first element of the run. *)
Fixpoint runs_from (A : Type) (key : A -> list value) (tgt : list value)
  (cur : list A) (l : list A) : list (list value * list A) :=
  match l with
  | [] => [(tgt, rev cur)]
  | x :: r =>
      if tuple_eq tgt (key x) then runs_from key tgt (x :: cur) r
      else (tgt, rev cur) :: runs_from key (key x) [x] r
  end.

Definition itertools_groupby (A : Type) (key : A -> list value) (l : list A)
  : list (list value * list A) :=
  match l with
  | [] => []
  | x :: r => runs_from key (key x) [x] r
  end.

(** A pydash path given as a string: its segments are separated by
    dots (index and bracket segments are left out of the model). *)
Fixpoint split_on (c : ascii) (s : string) : list string :=
  match s with
  | EmptyString => [EmptyString]
  | String a r =>
      match split_on c r with
      | h :: t => if Ascii.eqb a c then EmptyString :: h :: t else String a h :: t
      | [] => [String a EmptyString]
      end
  end.

Definition to_path (k : string) : location := map Key (split_on "." k).

(** pydash [set_(obj, path, x)] on a mapping: the containers on the way
    are created when they are missing. *)
Fixpoint set_ (d : dict) (p : location) (x : value) : dict :=
  match p with
  | [] => d
  | [Key k] => dict_set k x d
  | Key k :: p' =>
      let inner := match dict_get k d with Some (VDict kv) => kv | _ => [] end in
      dict_set k (VDict (set_ inner p' x)) d
  | Idx _ :: _ => d
  end.

(** The first element of each yielded pair: for every grouping key [k]
    with the value [v] of the run, [set_(doc, k, get(v, k))]. *)
Definition group_doc (ks : list string) (vals : list value) : value :=
  VDict (fold_left (fun doc kv => set_ doc (to_path (fst kv))
                                    (get (snd kv) (to_path (fst kv))))
           (combine ks vals) []).

Definition grouping_keys (ks : list string) (doc : value) : list value :=
  map (fun k => get doc (to_path k)) ks.

Definition groupby (st : JobStore) (ks : list string) (crit : criteria)
  (properties : option props) (srt : sort_spec) (skip limit : nat)
  (ld : load_type) : result (list (value * list value)) :=
  let properties :=
    match properties with
    | Some (PDict d) =>
        Some (PDict (dict_update d (map (fun k => (k, VInt 1)) ks)))
    | _ => properties
    end in
  docs <- query st crit properties srt skip limit ld ;;
  let data := filter (fun doc => forallb (fun k => has doc (to_path k)) ks) docs in
  sorted_data <- sorted (grouping_keys ks) data ;;
  Ok (map (fun g => (group_doc ks (fst g), snd g))
        (itertools_groupby (grouping_keys ks) sorted_data)).

(* ================================================================= *)
(** ** Stores from database credentials *)

(** The credentials of a database file: a mapping from names to values.
    The stores that are made from them are classes of [maggma]; a store
    is recorded as the call that constructs it, with its positional and
    its keyword arguments, and the [key] attribute that is assigned to it
    afterwards. *)
Inductive store_class : Type :=
| MongoStore
| MongoURIStore
| GridFSStore.

Record store_call : Type := {
  class_of : store_class;
  positional : list value;
  keywords : dict;
  assigned_key : option string
}.

(** What [_get_data_store] returns: a [GridFSStore], or an [S3Store] with
    its index store and its other keyword arguments. *)
Inductive data_store_call : Type :=
| Plain (s : store_call)
| S3Store (index : store_call) (others : dict).

(** [credentials[k]]. *)
Definition subscript (credentials : dict) (k : string) : result value :=
  from_option KeyError (dict_get k credentials).

(** [credentials.get(k, default)]. *)
Definition get_default (credentials : dict) (k : string) (default : value)
  : value :=
  match dict_get k credentials with
  | Some v => v
  | None => default
  end.

(** [**v] in a call: the entries of a mapping; any other value is
    refused. *)
Definition keywords_of (v : value) : result dict :=
  match v with
  | VDict kv => Ok kv
  | _ => Raise TypeError
  end.

(** [**rest] in a call that also gives the keywords [names]: a name that
    is given twice is refused. *)
Definition unpack_after (names : list string) (rest : dict) : result dict :=
  if existsb (fun e => mem (fst e) names) rest then Raise TypeError
  else Ok rest.

(** The key and the value that an element of an update sequence gives:
    the two items of a list, the two characters of a string, the two keys
    of a mapping. *)
Definition pair_of (e : value) : result (value * value) :=
  match e with
  | VList [k; v] => Ok (k, v)
  | VStr (String a (String b EmptyString)) =>
      Ok (VStr (String a EmptyString), VStr (String b EmptyString))
  | VDict [(k1, _); (k2, _)] => Ok (VStr k1, VStr k2)
  | VList _ | VStr _ | VDict _ => Raise ValueError
  | VNone | VBool _ | VInt _ => Raise TypeError
  end.

(** [d.update(l)] for a sequence [l].  The flag tells whether every key
    that came in is a string; a key of another kind is not kept, since the
    only use of the mapping is a call that unpacks it and refuses such a
    key. *)
Fixpoint update_seq (d : dict) (strs : bool) (l : list value)
  : result (dict * bool) :=
  match l with
  | [] => Ok (d, strs)
  | e :: r =>
      kv <- pair_of e ;;
      match fst kv with
      | VStr s => update_seq (dict_set s (snd kv) d) strs r
      | VList _ | VDict _ => Raise TypeError
      | VNone | VBool _ | VInt _ => update_seq d false r
      end
  end.

(** [d.update(v)]: the entries of a mapping, or the pairs of a sequence;
    a string is the sequence of its characters. *)
Definition update_from (d : dict) (v : value) : result (dict * bool) :=
  match v with
  | VDict kv => Ok (dict_update d kv, true)
  | VList l => update_seq d true l
  | VStr EmptyString => Ok (d, true)
  | VStr _ => Raise ValueError
  | VNone | VBool _ | VInt _ => Raise TypeError
  end.

(** [**d] for a mapping that [update_from] has filled. *)
Definition unpack (d : dict * bool) : result dict :=
  if snd d then Ok (fst d) else Raise TypeError.

(** [s in t] for strings. *)
Fixpoint occurs (s t : string) : bool :=
  String.prefix s t
  || match t with
     | String _ r => occurs s r
     | EmptyString => false
     end.

(** [s in v]: a key of a mapping, an element of a list, a part of a
    string. *)
Definition contains (v : value) (s : string) : result bool :=
  match v with
  | VDict kv => Ok (dict_has s kv)
  | VList l => Ok (existsb (fun e => value_eqb e (VStr s)) l)
  | VStr t => Ok (occurs s t)
  | VNone | VBool _ | VInt _ => Raise TypeError
  end.

(** The loop [for key in ("host", "port")] of [_get_mongo_auth]. *)
Fixpoint copy_keys (names : list string) (credentials auth : dict)
  : result dict :=
  match names with
  | [] => Ok auth
  | key :: r =>
      auth <- (if dict_has key credentials
               then v <- subscript credentials "key" ;; Ok (dict_set key v auth)
               else Ok auth) ;;
      copy_keys r credentials auth
  end.

Definition _get_mongo_auth (credentials : dict) (admin : bool) : result dict :=
  let auth : dict := [] in
  if admin && negb (dict_has "admin_user" credentials) then Raise ValueError
  else
    let auth :=
      if admin then
        dict_set "password" (get_default credentials "admin_password" (VStr ""))
          (dict_set "user" (get_default credentials "admin_user" (VStr "")) auth)
      else
        dict_set "password" (get_default credentials "readonly_password" (VStr ""))
          (dict_set "user" (get_default credentials "readonly_user" (VStr "")) auth)
    in
    auth <- copy_keys ["host"; "port"] credentials auth ;;
    database <- subscript credentials "database" ;;
    Ok (dict_set "authsource" (get_default credentials "authsource" database) auth).

Definition _get_mongo_like_store (collection_name : value) (credentials : dict)
  (admin : bool) : result store_call :=
  let mongo_store_kwargs := get_default credentials "mongo_store_kwargs" (VDict []) in
  if dict_has "host_uri" credentials then
    host_uri <- subscript credentials "host_uri" ;;
    kw <- keywords_of mongo_store_kwargs ;;
    Ok {| class_of := MongoURIStore;
          positional := [host_uri; get_default credentials "database" VNone;
                         collection_name];
          keywords := kw;
          assigned_key := None |}
  else
    auth <- _get_mongo_auth credentials admin ;;
    auth <- update_from auth mongo_store_kwargs ;;
    database <- subscript credentials "database" ;;
    kw <- unpack auth ;;
    Ok {| class_of := MongoStore;
          positional := [database; collection_name];
          keywords := kw;
          assigned_key := None |}.

Definition _get_docs_store (credentials : dict) (admin : bool)
  : result store_call :=
  collection <- subscript credentials "collection" ;;
  _get_mongo_like_store collection credentials admin.

Section DataStore.
(** [str(v)], which a formatted string applies to the value it holds. *)
Variable str : value -> string.

Definition _get_data_store (credentials : dict) (admin : bool)
  : result data_store_call :=
  let data_store_prefix := get_default credentials "data_store_prefix" (VStr "job") in
  let collection_name := (str data_store_prefix ++ "_datastore")%string in
  if negb (dict_has "data_store_kwargs" credentials) then
    if dict_has "host_uri" credentials then Raise ValueError
    else
      auth <- _get_mongo_auth credentials admin ;;
      auth <- update_from auth (get_default credentials "mongo_store_kwargs" (VDict [])) ;;
      database <- subscript credentials "database" ;;
      auth <- unpack auth ;;
      auth <- unpack_after ["compression"] auth ;;
      Ok (Plain {| class_of := GridFSStore;
                   positional := [database; VStr collection_name];
                   keywords := ("compression", VBool true) :: auth;
                   assigned_key := None |})
  else
    let data_store_kwargs := get_default credentials "data_store_kwargs" (VDict []) in
    has_bucket <- contains data_store_kwargs "bucket" ;;
    if has_bucket then
      let index_collection_name := (collection_name ++ "_index")%string in
      index_store <- _get_mongo_like_store (VStr index_collection_name)
                       credentials admin ;;
      let index_store :=
        {| class_of := class_of index_store;
           positional := positional index_store;
           keywords := keywords index_store;
           assigned_key := Some "fs_id" |} in
      rest <- keywords_of data_store_kwargs ;;
      rest <- unpack_after ["index"; "sub_dir"; "key"] rest ;;
      Ok (S3Store index_store
            (("sub_dir", VStr collection_name) :: ("key", VStr "fs_id") :: rest))
    else Raise ValueError.
End DataStore.

(* ================================================================= *)
(** * The vocabulary of the properties *)

Unset Implicit Arguments.

(** The value that the last assignment to [k] leaves. *)
Definition last_set {K V : Type} (eqb : K -> K -> bool) (k : K)
  (pairs : list (K * V)) (start : option V) : option V :=
  fold_left (fun a e => if eqb k (fst e) then Some (snd e) else a) pairs start.

(** The mapping after the assignments of [pairs], in order. *)
Definition assign_all {K V : Type} (eqb : K -> K -> bool)
  (pairs acc : list (K * V)) : list (K * V) :=
  fold_left (fun a p => assoc_set eqb (fst p) (snd p) a) pairs acc.

Definition doc_rev1 : value := VDict [("uuid", VStr "U"); ("index", VInt 1)].

Definition doc_rev2 : value := VDict [("uuid", VStr "U"); ("index", VInt 2)].

(** [k in doc] for a document. *)
Definition has_field (doc : value) (k : string) : bool :=
  match doc with
  | VDict kv => dict_has k kv
  | _ => false
  end.

(** The projection that [query] delegates names the field [k]. *)
Definition projects (p : option props) (k : string) : Prop :=
  match p with
  | Some (PList l) => In k l
  | Some (PDict d) => dict_get k d = Some (VInt 1)
  | None => False
  end.

(** The revision number of a document. *)
Definition index_of (r : value) : option Z :=
  match get_seg r (Key "index") with
  | Some (VInt z) => Some z
  | _ => None
  end.

Definition has_index (r : value) : Prop := exists z, index_of r = Some z.

(** The [output] field of a document. *)
Definition output_of (r : value) : value :=
  match get_seg r (Key "output") with
  | Some o => o
  | None => VNone
  end.

Definition index_asc (a b : value) : bool :=
  field_leb (get_seg a (Key "index")) (get_seg b (Key "index")).

Definition index_desc (a b : value) : bool := index_asc b a.

(** [a] is a revision at least as late as [b]. *)
Definition index_ge (a b : value) : Prop :=
  exists x y, index_of a = Some x /\ index_of b = Some y /\ y <= x.

Definition out_rev1 : value :=
  VDict [("uuid", VStr "U"); ("index", VInt 1); ("output", VInt 10)].

Definition out_rev2 : value :=
  VDict [("uuid", VStr "U"); ("index", VInt 2); ("output", VInt 20)].

Definition out_store : JobStore :=
  new_store [out_rev1; out_rev2] [] [] LoadNone 0.

Definition scalar (v : value) : bool :=
  match v with
  | VList _ | VDict _ => false
  | _ => true
  end.

(** A document whose [uuid] and [index] are present and are plain
    values, not containers. *)
Definition plain_identity (r : value) : bool :=
  match r with
  | VDict kv =>
      dict_has "uuid" kv && dict_has "index" kv
      && forallb (fun e => implb (mem (fst e) ["uuid"; "index"]) (scalar (snd e))) kv
  | _ => false
  end.

(** The field [k] of a document. *)
Definition field (r : value) (k : string) : value :=
  match get_seg r (Key k) with
  | Some v => v
  | None => VNone
  end.

(** The criteria that select the blobs owned by a document. *)
Definition owner (r : value) : criteria :=
  [("job_uuid", CEq (field r "uuid")); ("job_index", CEq (field r "index"))].

(** The two inner loops of [lookup], and its equations. *)
Fixpoint lookup_items (k : string) (ie : bool) (path : location) (kv : dict)
  : list location :=
  match kv with
  | [] => []
  | (k', v) :: r => lookup k ie (Key k' :: path) v ++ lookup_items k ie path r
  end.

Fixpoint lookup_elems (k : string) (ie : bool) (path : location) (i : nat)
  (l : list value) : list location :=
  match l with
  | [] => []
  | v :: r => lookup k ie (Idx i :: path) v ++ lookup_elems k ie path (S i) r
  end.

(** The blobs that are left after the removals of the owners [rs]. *)
Definition blobs_left (rs : list value) (blobs : list value) : list value :=
  filter (fun b => forallb (fun r => negb (matches (owner r) b)) rs) blobs.

Definition owned_store : JobStore :=
  new_store
    [VDict [("uuid", VStr "U"); ("index", VInt 1)];
     VDict [("uuid", VStr "W"); ("index", VInt 1)]]
    [VDict [("blob_uuid", VStr "0"); ("data", VInt 5);
            ("job_uuid", VStr "U"); ("job_index", VInt 1)];
     VDict [("blob_uuid", VStr "1"); ("data", VInt 6);
            ("job_uuid", VStr "W"); ("job_index", VInt 1)]]
    [] LoadNone 2.

(** [p] is an initial part of [q]. *)
Fixpoint is_prefix (p q : location) : bool :=
  match p, q with
  | [], _ => true
  | s :: p', t :: q' => seg_eqb s t && is_prefix p' q'
  | _ :: _, [] => false
  end.

(** Neither path leads through the position of the other. *)
Definition apart (p q : location) : Prop :=
  is_prefix p q = false /\ is_prefix q p = false.

(** The tail that [include_end] adds to a location. *)
Definition end_of (k : string) (ie : bool) : location :=
  if ie then [Key k] else [].

Definition final_seg_is (loc : location) (n : string) : bool :=
  match rev loc with
  | Key k :: _ => String.eqb k n
  | _ => false
  end.

(** A selector matches a stub at a location: a type selector by the
    [(module, class)] tag that the stub records, a name selector by the
    final segment of the location. *)
Definition selector_matches (stub : value) (loc : location) (s : selector)
  : bool :=
  match s with
  | SType m c =>
      value_eqb (field stub "@class") (VStr c)
      && value_eqb (field stub "@module") (VStr m)
  | SName n => final_seg_is loc n
  end.

Definition selected (sels : list selector) (doc : value) (p : location) : bool :=
  existsb (selector_matches (get doc p) p) sels.

Definition copies (sels : list selector) (bl : value * location)
  : list (value * location) :=
  map (fun _ => bl) (filter (selector_matches (fst bl) (snd bl)) sels).

Definition stub_pair (bl : value * location) : Prop :=
  (exists kv, fst bl = VDict kv) /\ snd bl <> [].

(** The identifier that a stub carries. *)
Definition blob_id (stub : value) : value := field stub "blob_uuid".

(** A record of the blob collection: a mapping with a string [blob_uuid]
    and a [data] field. *)
Definition is_blob (r : value) : bool :=
  match r with
  | VDict kv =>
      match dict_get "blob_uuid" kv, dict_get "data" kv with
      | Some (VStr _), Some _ => true
      | _, _ => false
      end
  | _ => false
  end.

Definition id_data (r : value) : value * value := (blob_id r, field r "data").

(** The data that the blob collection holds for an identifier: that of
    the last record that carries it. *)
Definition blob_data (recs : list value) (oid : value) : option value :=
  last_set value_eqb oid (map id_data recs) None.

Definition blob_fields : list string := ["blob_uuid"; "data"].

Definition among (ids : list value) (k : value) : bool :=
  existsb (fun v => value_eqb k v) ids.

Definition data_or_none (om : list (value * value)) (oid : value) : value :=
  match assoc_get value_eqb oid om with
  | Some x => x
  | None => VNone
  end.

(** The stubs of a stored document are in order for a selector list: the
    document is a tree of well-formed mappings and not itself a stub, no
    stub lies inside another, the stubs carry distinct string identifiers,
    and the blob of every stub that the list selects is in the blob
    collection. *)
Definition stubs_in_order (data : collection) (sels : list selector)
  (doc : value) : Prop :=
  let L := find_key doc "blob_uuid" false in
  wf_value doc = true
  /\ ~ In [] L
  /\ (forall p q, In p L -> In q L -> p = q \/ apart p q)
  /\ (forall p, In p L -> exists s, blob_id (get doc p) = VStr s)
  /\ (forall p q, In p L -> In q L ->
                  blob_id (get doc p) = blob_id (get doc q) -> p = q)
  /\ (forall p, In p L -> selected sels doc p = true ->
                blob_data (records data) (blob_id (get doc p)) <> None).

(** What [query] does to one document: a selected stub is replaced by
    the data of its blob, any other stub is left as it is. *)
Definition resolved_by (data : collection) (sels : list selector)
  (doc doc' : value) : Prop :=
  forall p, In p (find_key doc "blob_uuid" false) ->
    if selected sels doc p
    then exists x, get_path doc' p = Some x
                   /\ blob_data (records data) (blob_id (get doc p)) = Some x
    else get_path doc' p = get_path doc p.

Definition tagged_doc : value :=
  VDict [("uuid", VStr "U"); ("index", VInt 1);
         ("a", VDict [("@class", VStr "C"); ("@module", VStr "m");
                      ("blob_uuid", VStr "0")]);
         ("b", VDict [("@class", VStr ""); ("@module", VStr "");
                      ("blob_uuid", VStr "1")])].

Definition tagged_store : JobStore :=
  new_store [tagged_doc]
    [VDict [("@class", VStr "C"); ("@module", VStr "m");
            ("blob_uuid", VStr "0"); ("data", VInt 7);
            ("job_uuid", VStr "U"); ("job_index", VInt 1)]]
    [] LoadNone 2.

Definition join (c1 c2 : comparison) : comparison :=
  match c1 with Eq => c2 | _ => Lt end.

(** [all(has(doc, k) for k in keys)]. *)
Definition has_all (ks : list string) (doc : value) : bool :=
  forallb (fun k => has doc (to_path k)) ks.

(** The order that [sorted] uses on documents. *)
Definition key_leb (ks : list string) (a b : value) : bool :=
  negb (tuple_lt (grouping_keys ks b) (grouping_keys ks a)).

Definition all_comparable (ks : list string) (data : list value) : bool :=
  forallb (fun a => forallb (fun b =>
             comparable (grouping_keys ks a) (grouping_keys ks b)) data) data.

(** The projection that [groupby] hands to [query]. *)
Definition groupby_props (ks : list string) (properties : option props)
  : option props :=
  match properties with
  | Some (PDict d) => Some (PDict (dict_update d (map (fun k => (k, VInt 1)) ks)))
  | _ => properties
  end.

Definition grp1 : value := VDict [("a", VInt 1); ("b", VInt 1)].

Definition grp2 : value := VDict [("a", VInt 1); ("b", VInt 2)].

Definition grp3 : value := VDict [("a", VInt 2); ("b", VInt 3)].

Definition grp4 : value := VDict [("b", VInt 4)].

Definition grp_docs : list value := [grp1; grp4; grp2; grp3].

Definition grp_store : JobStore := new_store grp_docs [] [] LoadNone 0.

(** The mapping at a position holds the key. *)
Definition has_key_at (d : value) (loc : location) (k : string) : bool :=
  match get_path d loc with
  | Some (VDict kv) => dict_has k kv
  | _ => false
  end.

(** The locations that [update] finds for the names of a save
    specification. *)
Definition saved_locations (names : list string) (d : value) : list location :=
  flat_map (fun k => find_key d k true) names.

(** The [object_map] of [update]: the saved locations, each once, with the
    values found there. *)
Definition saved_objects (names : list string) (d : value)
  : list (location * value) :=
  assoc_of loc_eqb
    (combine (saved_locations names d)
       (map (get d) (saved_locations names d))).

(** The stub that carries the [j]-th identifier. *)
Definition stub (j : nat) : value :=
  VDict [("@class", VStr ""); ("@module", VStr ""); ("blob_uuid", VStr (suuid j))].

(** The blob of a saved object: its stub, its data and its owner. *)
Definition mk_blob (u i : value) (z : nat * (location * value)) : value :=
  VDict [("@class", VStr ""); ("@module", VStr "");
         ("blob_uuid", VStr (suuid (fst z))); ("data", snd (snd z));
         ("job_uuid", u); ("job_index", i)].

(** The saved objects with the numbers of their identifiers. *)
Definition slots (n : nat) (om : list (location * value))
  : list (nat * (location * value)) :=
  combine (seq n (List.length om)) om.

(** A document that [update] can stage for the names of a save
    specification: its mappings are well formed, its [uuid] and [index] are
    plain values and are not saved themselves, and no saved field lies
    inside another saved field. *)
Definition saveable (names : list string) (d : value) : Prop :=
  wf_value d = true
  /\ plain_identity d = true
  /\ ~ In "uuid" names /\ ~ In "index" names
  /\ (forall p q, In p (saved_locations names d) ->
                  In q (saved_locations names d) -> p = q \/ apart p q).

(** The document has a plain value in each key field. *)
Definition plain_on (kf : list string) (d : value) : Prop :=
  forall k, In k kf -> exists v, get_seg d (Key k) = Some v /\ scalar v = true.

(** The search document of an upsert by the key fields [kf]. *)
Definition ident (kf : list string) (d : value) : criteria :=
  map (fun k => (k, CEq (field d k))) kf.

(** The records after the upserts of [ds] by [kf]. *)
Definition upsert_all (kf : list string) (ds recs : list value) : list value :=
  fold_left (fun acc d => replace_one (ident kf d) d acc) ds recs.

(** Some record of the collection carries the identity [c]. *)
Definition carried (kf : list string) (recs : list value) (c : criteria) : Prop :=
  exists r, In r recs /\ plain_on kf r /\ ident kf r = c.

(** No record carries an identifier that is still to be minted. *)
Definition fresh (recs : list value) (n : nat) : Prop :=
  forall r m, In r recs -> (n <= m)%nat ->
              matches [("blob_uuid", CEq (VStr (suuid m)))] r = false.

(** The blobs carry the identifiers from [n] on, in order. *)
Definition minted (n : nat) (blobs : list value) : Prop :=
  map blob_id blobs = map (fun j => VStr (suuid j)) (seq n (List.length blobs))
  /\ forall b, In b blobs -> is_blob b = true.

(** The staged document has the identity of the document it comes from. *)
Definition kept_identity (d d1 : value) : Prop :=
  forall k, mem k ["uuid"; "index"] = true ->
            get_seg d1 (Key k) = Some (field d k) /\ scalar (field d k) = true.

(** The number of values that [update] offloads from a batch. *)
Definition offload_count (names : list string) (batch : list value) : nat :=
  list_sum (map (fun d => List.length (saved_objects names d)) batch).

(** The names that a call of [update] saves. *)
Definition save_names (st : JobStore) (sv : save_arg) : list string :=
  map save_name
    match sv with
    | SaveNone | SaveBool true => save st
    | SaveOne x => [x]
    | SaveMany l => l
    | SaveBool false => []
    end.

(** The key fields of the document upsert of a call of [update]. *)
Definition key_fields (st : JobStore) (k : option (list string)) : list string :=
  match k with
  | Some _ => ["uuid"; "index"]
  | None => [key (docs_store st)]
  end.

(** The records have plain key fields and pairwise distinct identities. *)
Definition distinct_ids (kf : list string) (recs : list value) : Prop :=
  NoDup (map (ident kf) recs) /\ forall r, In r recs -> plain_on kf r.

Definition retry_doc : value :=
  VDict [("uuid", VStr "U"); ("index", VInt 1); ("f", VList [VInt 1; VInt 2])].

Definition retry_store : JobStore := new_store [] [] [SvStr "f"] LoadNone 0.

Definition foreign_doc : value :=
  VDict [("uuid", VStr "U"); ("index", VInt 1); ("f", VInt 5);
         ("g", VDict [("blob_uuid", VStr "zzz")])].

(** The call returns, or raises [KeyError] and nothing else. *)
Definition key_error_or {A : Type} (P : A -> Prop) (r : result A) : Prop :=
  match r with
  | Ok a => P a
  | Raise e => e = KeyError
  end.

Definition is_dict (d : value) : bool :=
  match d with
  | VDict _ => true
  | _ => false
  end.

(** The staged document is a mapping, and has no [uuid] when the document
    it comes from has none. *)
Definition still_lacks_uuid (d d1 : value) : Prop :=
  is_dict d1 = true
  /\ (has_field d "uuid" = false -> has_field d1 "uuid" = false).

(** Every stub of the document carries a string identifier. *)
Definition string_ids (doc : value) : Prop :=
  forall loc, In loc (find_key doc "blob_uuid" false) ->
              exists s, blob_id (get doc loc) = VStr s.

(** A stub of the document has no blob in the collection. *)
Definition dangling (data : collection) (doc : value) : Prop :=
  exists loc, In loc (find_key doc "blob_uuid" false)
              /\ blob_data (records data) (blob_id (get doc loc)) = None.

Definition dangling_doc : value :=
  VDict [("uuid", VStr "U"); ("index", VInt 1);
         ("a", VDict [("@class", VStr ""); ("@module", VStr "");
                      ("blob_uuid", VStr "7")])].

(** The write below the first segment of a path: the new value itself when
    the path ends there. *)
Definition set_below (c : value) (p : location) (x : value) : option value :=
  match p with
  | [] => Some x
  | _ => set_path c p x
  end.

(** The positions of a list of writes are distinct and lie apart. *)
Definition spread {V : Type} (ups : list (location * V)) : Prop :=
  NoDup (map fst ups)
  /\ forall a b, In a ups -> In b ups -> fst a = fst b \/ apart (fst a) (fst b).

(** The writes that put the values of [d] back at the positions [qs]. *)
Definition originals (d : value) (qs : list location) : list (location * value) :=
  map (fun q => (q, get d q)) qs.

(** The name of the collection of the data store: the prefix, [job] when
    the credentials give none, and [_datastore]. *)
Definition data_collection (str : value -> string) (credentials : dict)
  : string :=
  (str (get_default credentials "data_store_prefix" (VStr "job"))
   ++ "_datastore")%string.

(** [str] on strings, with the empty string for every other value. *)
Definition str_of_string (v : value) : string :=
  match v with
  | VStr s => s
  | _ => EmptyString
  end.

Definition s3_credentials : dict :=
  [("host_uri", VStr "mongodb://h/db"); ("data_store_prefix", VStr "calc");
   ("data_store_kwargs", VDict [("bucket", VStr "b")])].

(** The projection that [get_output] hands to the document collection. *)
Definition output_fields : list string := ["output"; "uuid"; "index"].

Definition output_doc : value :=
  VDict [("uuid", VStr "U"); ("index", VInt 1);
         ("output", VDict [("energy", VInt 3)])].

(** The record that the upserts of [ds] leave in the place of [r]: the
    last document of [ds] that the record in that place matches. *)
Definition latest (kf : list string) (ds : list value) (r : value) : value :=
  fold_left (fun acc d => if matches (ident kf d) acc then d else acc) ds r.

(* ================================================================= *)
(** * Properties *)

(** ** Basic facts *)

Lemma mapM_ok_id (A : Type) (l : list A) : mapM (fun x => Ok x) l = Ok l.
Proof.
  induction l as [|x r IH]; simpl; [reflexivity|].
  rewrite IH. reflexivity.
Qed.

Lemma mapM_ext (A B : Type) (f g : A -> result B) (l : list A) :
  (forall x, In x l -> f x = g x) -> mapM f l = mapM g l.
Proof.
  induction l as [|x r IH]; intros H; simpl; [reflexivity|].
  rewrite (H x (or_introl eq_refl)), IH; [reflexivity|].
  intros y Hy. apply H. right. exact Hy.
Qed.

Lemma mapM_in (A B : Type) (f : A -> result B) (l : list A) (l' : list B) :
  mapM f l = Ok l' ->
  forall y, In y l' -> exists x, In x l /\ f x = Ok y.
Proof.
  revert l'. induction l as [|x r IH]; simpl; intros l' H y Hy.
  - inversion H; subst. destruct Hy.
  - destruct (f x) as [b|e] eqn:Hf; simpl in H; [|discriminate].
    destruct (mapM f r) as [bs|e] eqn:Hr; simpl in H; [|discriminate].
    inversion H; subst. destruct Hy as [<-|Hy].
    + exists x. split; [left; reflexivity|exact Hf].
    + destruct (IH bs eq_refl y Hy) as [x' [Hin Hx']].
      exists x'. split; [right; exact Hin|exact Hx'].
Qed.

Lemma mapM_length (A B : Type) (f : A -> result B) (l : list A) (l' : list B) :
  mapM f l = Ok l' -> List.length l' = List.length l.
Proof.
  revert l'. induction l as [|x r IH]; simpl; intros l' H.
  - inversion H. reflexivity.
  - destruct (f x) as [b|e]; simpl in H; [|discriminate].
    destruct (mapM f r) as [bs|e]; simpl in H; [|discriminate].
    inversion H; subst. simpl. rewrite (IH bs eq_refl). reflexivity.
Qed.

Lemma filter_none (A : Type) (f : A -> bool) (l : list A) :
  (forall x, In x l -> f x = false) -> filter f l = [].
Proof.
  induction l as [|x r IH]; intros H; simpl; [reflexivity|].
  rewrite (H x (or_introl eq_refl)). apply IH.
  intros y Hy. apply H. right. exact Hy.
Qed.

Lemma sort_records_nil (s : sort_spec) : sort_records s [] = [].
Proof.
  destruct s as [[f dir]|]; simpl; [|reflexivity].
  destruct (dir <? 0); reflexivity.
Qed.

Lemma take_limit_nil (n : nat) : take_limit n [] = [].
Proof. destruct n; reflexivity. Qed.

Lemma coll_query_no_match (c : collection) (crit : criteria) (p : option props)
  (s : sort_spec) (skip limit : nat) :
  (forall r, In r (records c) -> matches crit r = false) ->
  coll_query c crit p s skip limit = Ok [].
Proof.
  intros H. unfold coll_query.
  rewrite (filter_none _ _ _ H), sort_records_nil, skipn_nil, take_limit_nil.
  reflexivity.
Qed.

(** ** Reading without loading *)

Lemma resolve_with_false (fetch : fetcher) (doc : value) :
  resolve_with fetch (LKBool false) doc = Ok doc.
Proof. reflexivity. Qed.

Lemma mapM_resolve_false (fetch : fetcher) (docs : list value) :
  mapM (resolve_with fetch (LKBool false)) docs = Ok docs.
Proof.
  rewrite (mapM_ext _ _ (resolve_with fetch (LKBool false)) (fun d => Ok d));
    [apply mapM_ok_id|].
  intros d _. apply resolve_with_false.
Qed.

(** C7: a [query] with [load=False] yields the documents of the document
    collection as they are stored, stubs included, whatever the blob
    collection would answer: no fetch is issued, not even a failing one. *)
Theorem query_load_false_unchanged (fetch : fetcher) (st : JobStore)
  (crit : criteria) (properties : option props) (srt : sort_spec)
  (skip limit : nat) :
  query_with fetch st crit properties srt skip limit (LoadBool false)
  = coll_query (docs_store st) crit (with_identity properties) srt skip limit.
Proof.
  unfold query_with. simpl.
  destruct (coll_query (docs_store st) crit (with_identity properties) srt skip limit)
    as [docs|e]; simpl; [|reflexivity].
  apply mapM_resolve_false.
Qed.

(** ** Not found *)

Lemma query_no_match (st : JobStore) (crit : criteria) (p : option props)
  (s : sort_spec) (skip limit : nat) (ld : load_type) :
  (forall r, In r (records (docs_store st)) -> matches crit r = false) ->
  query st crit p s skip limit ld = Ok [].
Proof.
  intros H. unfold query, query_with.
  rewrite (coll_query_no_match _ _ _ _ _ _ H). reflexivity.
Qed.

(** C6: when no stored document has the uuid, [get_output] raises
    [ValueError] for every [which], and [query_one] with criteria that
    match no document returns [None] without raising. *)
Theorem not_found (st : JobStore) (uuid : value) (which : string)
  (crit : criteria) (p : option props) (s : sort_spec) (ld : load_type) :
  (forall r, In r (records (docs_store st)) ->
             matches [("uuid", CEq uuid)] r = false) ->
  (forall r, In r (records (docs_store st)) -> matches crit r = false) ->
  get_output st uuid which ld = Raise ValueError
  /\ query_one st crit p s ld = Ok None.
Proof.
  intros Hu Hc. split.
  - unfold get_output, query_one.
    destruct (String.eqb which "last" || String.eqb which "first");
      rewrite (query_no_match _ _ _ _ _ _ _ Hu); reflexivity.
  - unfold query_one. rewrite (query_no_match _ _ _ _ _ _ _ Hc). reflexivity.
Qed.

Lemma not_found_witness :
  get_output (new_store [VDict [("uuid", VStr "a"); ("index", VInt 1)]] []
                [] LoadNone 0) (VStr "b") "all" (LoadBool false)
  = Raise ValueError
  /\ query_one (new_store [VDict [("uuid", VStr "a"); ("index", VInt 1)]] []
                  [] LoadNone 0) [("uuid", CEq (VStr "b"))] None None
       (LoadBool false)
     = Ok None.
Proof.
  apply (not_found _ (VStr "b") "all" [("uuid", CEq (VStr "b"))]).
  - intros r [<-|[]]. reflexivity.
  - intros r [<-|[]]. reflexivity.
Defined.

(** ** The key of the document upsert *)

(** C3: on the default call (no key) the documents go to the collection
    under the collection's own key, [uuid] alone: of two revisions of one
    uuid only the second is left.  With any key given, both are stored. *)
Theorem update_default_key_overwrites :
  (st <- update (new_store [] [] [] LoadNone 0)
           (ManyDocs [doc_rev1; doc_rev2]) None SaveNone ;;
   Ok (records (docs_store st))) = Ok [doc_rev2]
  /\ (st <- update (new_store [] [] [] LoadNone 0)
              (ManyDocs [doc_rev1; doc_rev2]) (Some ["uuid"]) SaveNone ;;
      Ok (records (docs_store st))) = Ok [doc_rev1; doc_rev2].
Proof. split; reflexivity. Qed.

(** ** The identity fields of a projection *)

Ltac bind_inv H :=
  match type of H with
  | bind ?m _ = Ok _ =>
      let E := fresh "E" in
      destruct m eqn:E; simpl in H; [|discriminate H]
  end.

Lemma dict_get_set (k k' : string) (x : value) (kv : dict) :
  dict_get k (dict_set k' x kv)
  = if String.eqb k k' then Some x else dict_get k kv.
Proof.
  induction kv as [|[k0 v0] r IH]; simpl.
  - destruct (String.eqb k k'); reflexivity.
  - destruct (String.eqb k' k0) eqn:E0; simpl.
    + apply String.eqb_eq in E0. subst k0.
      destruct (String.eqb k k'); reflexivity.
    + destruct (String.eqb k k0) eqn:E1.
      * apply String.eqb_eq in E1. subst k0.
        rewrite String.eqb_sym, E0. reflexivity.
      * exact IH.
Qed.

Lemma dict_has_set (k k' : string) (x : value) (kv : dict) :
  dict_has k kv = true -> dict_has k (dict_set k' x kv) = true.
Proof.
  unfold dict_has. rewrite dict_get_set.
  destruct (String.eqb k k'); [reflexivity|]. intros H; exact H.
Qed.

Lemma dict_get_include (k : string) (fields : list string) (kv : dict) :
  mem k fields = true ->
  dict_get k (filter (fun e => mem (fst e) fields) kv) = dict_get k kv.
Proof.
  intros Hm. induction kv as [|[k0 v0] r IH]; simpl; [reflexivity|].
  destruct (String.eqb k k0) eqn:E.
  - apply String.eqb_eq in E. subst k0. rewrite Hm. simpl.
    rewrite String.eqb_refl. reflexivity.
  - destruct (mem k0 fields); simpl; [rewrite E|]; exact IH.
Qed.

Lemma mem_keys_get (k : string) (kv : dict) :
  mem k (keys kv) = dict_has k kv.
Proof.
  unfold dict_has. induction kv as [|[k0 v0] r IH]; simpl; [reflexivity|].
  destruct (String.eqb k k0); simpl; [reflexivity|exact IH].
Qed.

Lemma set_seg_has_field (d d' : value) (s : seg) (x : value) (k : string) :
  set_seg d s x = Some d' -> has_field d k = true -> has_field d' k = true.
Proof.
  destruct d as [| | | |l|kv], s as [k'|i]; simpl; try discriminate.
  intros H; inversion H; subst. simpl. apply dict_has_set.
Qed.

Lemma set_path_has_field (p : location) (d d' : value) (x : value) (k : string) :
  set_path d p x = Some d' -> has_field d k = true -> has_field d' k = true.
Proof.
  destruct p as [|s p']; simpl; [discriminate|].
  destruct p' as [|s' p''].
  - apply set_seg_has_field.
  - destruct (get_seg d s) as [c|]; [|discriminate].
    destruct (set_path c (s' :: p'') x) as [c'|]; [|discriminate].
    apply set_seg_has_field.
Qed.

Lemma update_in_dictionary_has_field (ups : list (location * value))
  (d d' : value) (k : string) :
  update_in_dictionary d ups = Ok d' ->
  has_field d k = true -> has_field d' k = true.
Proof.
  revert d. induction ups as [|[loc x] r IH]; simpl; intros d H Hk.
  - inversion H; subst. exact Hk.
  - destruct (set_path d loc x) as [d1|] eqn:E; simpl in H; [|discriminate].
    apply (IH d1 H). apply (set_path_has_field _ _ _ _ _ E Hk).
Qed.

Lemma resolve_with_has_field (fetch : fetcher) (lk : load_keys)
  (doc doc' : value) (k : string) :
  resolve_with fetch lk doc = Ok doc' ->
  has_field doc k = true -> has_field doc' k = true.
Proof.
  unfold resolve_with. destruct (load_truthy lk).
  - intros H Hk. bind_inv H. destruct a as [bl locs]. bind_inv H.
    bind_inv H. bind_inv H. bind_inv H.
    apply (update_in_dictionary_has_field _ _ _ _ H Hk).
  - intros H Hk. inversion H; subst. exact Hk.
Qed.

Lemma mem_app_r (k : string) (l l' : list string) :
  mem k l' = true -> mem k (l ++ l') = true.
Proof.
  unfold mem. rewrite existsb_app. intros ->. apply orb_true_r.
Qed.

Lemma include_has_field (fields : list string) (r : value) (k : string) :
  mem k fields = true ->
  has_field r k = true -> has_field (include_fields fields r) k = true.
Proof.
  destruct r; simpl; try discriminate. intros Hm. unfold dict_has.
  rewrite (dict_get_include _ _ _ Hm). intros H; exact H.
Qed.

Lemma not_all_falsy (k : string) (d : dict) :
  dict_get k d = Some (VInt 1) ->
  forallb (fun e => negb (truthy (snd e))) d = false.
Proof.
  induction d as [|[k0 v0] r IH]; simpl; [discriminate|].
  destruct (String.eqb k k0).
  - intros H; inversion H; subst. reflexivity.
  - intros H. rewrite (IH H). apply andb_false_r.
Qed.

Lemma with_identity_projects (p : props) :
  projects (with_identity (Some p)) "uuid"
  /\ projects (with_identity (Some p)) "index".
Proof.
  destruct p as [l|d]; simpl.
  - split; apply in_or_app; right; simpl; auto.
  - unfold dict_update. simpl. rewrite !dict_get_set. simpl. split; reflexivity.
Qed.

Lemma project_has_field (p : option props) (r r' : value) (k : string) :
  projects p k -> project p r = Ok r' ->
  has_field r k = true -> has_field r' k = true.
Proof.
  destruct p as [[l|d]|]; simpl; intros Hp H Hk; [| |destruct Hp].
  - assert (Hm : mem k l = true).
    { unfold mem. apply existsb_exists. exists k. split; [exact Hp|].
      apply String.eqb_refl. }
    destruct l; [destruct Hp|]. inversion H; subst.
    apply include_has_field; assumption.
  - assert (Hm : mem k (keys d) = true).
    { rewrite mem_keys_get. unfold dict_has. rewrite Hp. reflexivity. }
    destruct d as [|e d']; [discriminate Hp|].
    set (d := e :: d') in *.
    destruct (forallb (fun e => truthy (snd e)) d).
    + inversion H; subst. apply include_has_field; assumption.
    + rewrite (not_all_falsy _ _ Hp) in H. discriminate.
Qed.

(** ** The stable insertion sort *)

Section SortFacts.
Variable A : Type.
Variable leb : A -> A -> bool.

Let le (a b : A) : Prop := leb a b = true.

Lemma insert_perm (x : A) (l : list A) : Permutation (insert leb x l) (x :: l).
Proof.
  induction l as [|y r IH]; simpl; [apply Permutation_refl|].
  destruct (leb x y); [apply Permutation_refl|].
  eapply Permutation_trans; [apply perm_skip; exact IH|apply perm_swap].
Qed.

Lemma sort_perm (l : list A) : Permutation (sort leb l) l.
Proof.
  induction l as [|x r IH]; simpl; [apply Permutation_refl|].
  eapply Permutation_trans; [apply insert_perm|apply perm_skip; exact IH].
Qed.

Lemma sort_in (l : list A) (x : A) : In x (sort leb l) <-> In x l.
Proof.
  split; apply Permutation_in;
    [apply sort_perm|apply Permutation_sym, sort_perm].
Qed.

Lemma insert_below (x : A) (l : list A) :
  (forall z, In z l -> le x z) -> insert leb x l = x :: l.
Proof.
  destruct l as [|y r]; simpl; [reflexivity|].
  intros H. unfold le in H. rewrite (H y (or_introl eq_refl)). reflexivity.
Qed.

(** The order is total and transitive on the elements at hand. *)
Variable dom : A -> Prop.
Hypothesis le_total : forall x y, dom x -> dom y -> le x y \/ le y x.
Hypothesis le_trans :
  forall x y z, dom x -> dom y -> dom z -> le x y -> le y z -> le x z.

Lemma insert_sorted (x : A) (l : list A) :
  dom x -> Forall dom l -> StronglySorted le l ->
  StronglySorted le (insert leb x l).
Proof.
  intros Hx Hd Hs. induction Hs as [|y r Hs IH Hy]; simpl.
  - constructor; constructor.
  - inversion Hd as [|? ? Hdy Hdr]; subst.
    destruct (leb x y) eqn:E.
    + constructor; [constructor; assumption|].
      constructor; [exact E|].
      rewrite Forall_forall in *. intros z Hz.
      apply (le_trans x y z);
        [assumption|assumption|apply Hdr; exact Hz|exact E|apply Hy; exact Hz].
    + constructor; [apply IH; exact Hdr|].
      rewrite Forall_forall in *. intros z Hz.
      apply (Permutation_in _ (insert_perm x r)) in Hz.
      destruct Hz as [<-|Hz]; [|apply Hy; exact Hz].
      destruct (le_total x y Hx Hdy) as [H|H]; [|exact H].
      unfold le in H. congruence.
Qed.

Lemma sort_dom (l : list A) : Forall dom l -> Forall dom (sort leb l).
Proof.
  rewrite !Forall_forall. intros H x Hx. apply H, sort_in. exact Hx.
Qed.

Lemma sort_sorted (l : list A) :
  Forall dom l -> StronglySorted le (sort leb l).
Proof.
  induction l as [|x r IH]; simpl; intros Hd; [constructor|].
  inversion Hd; subst.
  apply insert_sorted; [assumption|apply sort_dom; assumption|auto].
Qed.

Lemma filter_insert_out (p : A -> bool) (x : A) (l : list A) :
  p x = false -> filter p (insert leb x l) = filter p l.
Proof.
  intros Hp. induction l as [|y r IH]; simpl; [rewrite Hp; reflexivity|].
  destruct (leb x y); simpl; [rewrite Hp; reflexivity|].
  rewrite IH. reflexivity.
Qed.

Lemma filter_insert_in (p : A -> bool) (x : A) (l : list A) :
  dom x -> Forall dom l -> StronglySorted le l -> p x = true ->
  filter p (insert leb x l) = insert leb x (filter p l).
Proof.
  intros Hx Hd Hs Hp. induction Hs as [|y r Hs IH Hy]; simpl.
  - rewrite Hp. reflexivity.
  - inversion Hd as [|? ? Hdy Hdr]; subst.
    destruct (leb x y) eqn:E.
    + change (filter p (x :: y :: r)) with (filter p (x :: (y :: r))).
      simpl filter at 1. rewrite Hp.
      symmetry. apply (insert_below x (filter p (y :: r))).
      intros z Hz. apply filter_In in Hz. destruct Hz as [Hz _].
      destruct Hz as [<-|Hz]; [exact E|].
      rewrite Forall_forall in *.
      apply (le_trans x y z);
        [assumption|assumption|apply Hdr; exact Hz|exact E|apply Hy; exact Hz].
    + simpl. destruct (p y); simpl; rewrite (IH Hdr); [|reflexivity].
      rewrite E. reflexivity.
Qed.

(** Stability: sorting commutes with taking a sublist by a predicate, so
    elements keep their relative order among their equals. *)
Lemma filter_sort (p : A -> bool) (l : list A) :
  Forall dom l -> filter p (sort leb l) = sort leb (filter p l).
Proof.
  induction l as [|x r IH]; simpl; intros Hd; [reflexivity|].
  inversion Hd; subst.
  destruct (p x) eqn:Hp.
  - rewrite filter_insert_in;
      [|assumption|apply sort_dom; assumption|apply sort_sorted; assumption
       |assumption].
    simpl. rewrite IH; auto.
  - rewrite filter_insert_out; auto.
Qed.

Lemma sort_sorted_id (l : list A) : StronglySorted le l -> sort leb l = l.
Proof.
  induction 1 as [|x r Hs IH Hx]; simpl; [reflexivity|].
  rewrite IH. apply insert_below. rewrite Forall_forall in Hx. exact Hx.
Qed.
End SortFacts.

(** ** What a collection returns *)

Lemma in_firstn (A : Type) (n : nat) (l : list A) (x : A) :
  In x (firstn n l) -> In x l.
Proof.
  intros H. rewrite <- (firstn_skipn n l). apply in_or_app. left. exact H.
Qed.

Lemma in_skipn (A : Type) (n : nat) (l : list A) (x : A) :
  In x (skipn n l) -> In x l.
Proof.
  intros H. rewrite <- (firstn_skipn n l). apply in_or_app. right. exact H.
Qed.

Lemma in_take_limit (n : nat) (l : list value) (x : value) :
  In x (take_limit n l) -> In x l.
Proof. destruct n; simpl; [auto|]. apply (in_firstn _ (S n)). Qed.

Lemma sort_records_perm (s : sort_spec) (l : list value) :
  Permutation (sort_records s l) l.
Proof.
  destruct s as [[f dir]|]; simpl; [|apply Permutation_refl].
  destruct (dir <? 0); apply sort_perm.
Qed.

Lemma coll_query_sound (c : collection) (crit : criteria) (p : option props)
  (s : sort_spec) (skip limit : nat) (docs : list value) :
  coll_query c crit p s skip limit = Ok docs ->
  forall d, In d docs ->
  exists r, In r (records c) /\ matches crit r = true /\ project p r = Ok d.
Proof.
  unfold coll_query. intros H d Hd.
  destruct (mapM_in _ _ _ _ _ H d Hd) as [r [Hr Hp]].
  exists r. apply in_take_limit, in_skipn in Hr.
  apply (Permutation_in _ (sort_records_perm s _)) in Hr.
  apply filter_In in Hr. destruct Hr as [Hr Hm]. auto.
Qed.

Lemma query_with_sound (fetch : fetcher) (st : JobStore) (crit : criteria)
  (p : option props) (s : sort_spec) (skip limit : nat) (ld : load_type)
  (docs : list value) :
  query_with fetch st crit p s skip limit ld = Ok docs ->
  forall d, In d docs ->
  exists r raw lk,
    In r (records (docs_store st)) /\ matches crit r = true
    /\ project (with_identity p) r = Ok raw
    /\ resolve_with fetch lk raw = Ok d.
Proof.
  unfold query_with. intros H d Hd. bind_inv H.
  destruct (mapM_in _ _ _ _ _ H d Hd) as [raw [Hraw Hres]].
  destruct (coll_query_sound _ _ _ _ _ _ _ E raw Hraw) as [r [Hr [Hm Hp]]].
  exists r, raw. eexists. repeat split; eauto.
Qed.



(** ** Outputs by revision *)

Lemma mapM_total (A B : Type) (f : A -> result B) (g : A -> B) (l : list A) :
  (forall x, In x l -> f x = Ok (g x)) -> mapM f l = Ok (map g l).
Proof.
  induction l as [|x r IH]; intros H; simpl; [reflexivity|].
  rewrite (H x (or_introl eq_refl)). simpl.
  rewrite IH; [reflexivity|]. intros y Hy. apply H. right. exact Hy.
Qed.

Lemma index_asc_le (a b : value) (x y : Z) :
  index_of a = Some x -> index_of b = Some y ->
  index_asc a b = (x <=? y).
Proof.
  unfold index_of, index_asc.
  destruct (get_seg a (Key "index")) as [[| | z | | |]|]; try discriminate.
  destruct (get_seg b (Key "index")) as [[| | z' | | |]|]; try discriminate.
  intros H1 H2. inversion H1; inversion H2; subst. reflexivity.
Qed.

Lemma index_asc_total (a b : value) :
  has_index a -> has_index b -> index_asc a b = true \/ index_asc b a = true.
Proof.
  intros [x Hx] [y Hy].
  rewrite (index_asc_le _ _ _ _ Hx Hy), (index_asc_le _ _ _ _ Hy Hx).
  destruct (Z.leb_spec x y); [left; reflexivity|right].
  apply Z.leb_le. lia.
Qed.

Lemma index_asc_trans (a b c : value) :
  has_index a -> has_index b -> has_index c ->
  index_asc a b = true -> index_asc b c = true -> index_asc a c = true.
Proof.
  intros [x Hx] [y Hy] [z Hz].
  rewrite (index_asc_le _ _ _ _ Hx Hy), (index_asc_le _ _ _ _ Hy Hz),
    (index_asc_le _ _ _ _ Hx Hz).
  rewrite !Z.leb_le. lia.
Qed.

Lemma sort_by_index (dir : Z) (l : list value) :
  sort_records (Some ("index", dir)) l
  = sort (if dir <? 0 then index_desc else index_asc) l.
Proof. simpl. destruct (dir <? 0); reflexivity. Qed.

Lemma sorted_asc (l : list value) :
  Forall has_index l ->
  StronglySorted (fun a b => index_asc a b = true) (sort index_asc l).
Proof.
  apply sort_sorted.
  - intros x y. apply index_asc_total.
  - intros x y z. apply index_asc_trans.
Qed.

Lemma sorted_desc (l : list value) :
  Forall has_index l ->
  StronglySorted (fun a b => index_desc a b = true) (sort index_desc l).
Proof.
  apply sort_sorted.
  - intros x y Hx Hy. unfold index_desc.
    destruct (index_asc_total x y Hx Hy); auto.
  - intros x y z Hx Hy Hz H1 H2. unfold index_desc in *.
    apply (index_asc_trans z y x); assumption.
Qed.

(** The head of a sorted list bounds every element. *)
Lemma sorted_head (leb : value -> value -> bool) (l : list value)
  (r0 : value) (rest : list value) :
  StronglySorted (fun a b => leb a b = true) (sort leb l) ->
  sort leb l = r0 :: rest ->
  In r0 l /\ forall r, In r l -> r = r0 \/ leb r0 r = true.
Proof.
  intros Hs E. split.
  - apply (sort_in _ leb). rewrite E. left. reflexivity.
  - intros r Hr. apply (sort_in _ leb) in Hr. rewrite E in Hs, Hr.
    inversion Hs as [|? ? _ Hall]; subst. rewrite Forall_forall in Hall.
    destruct Hr as [<-|Hr]; [left; reflexivity|right; apply Hall; exact Hr].
Qed.

Lemma getitem_include (fields : list string) (r : value) (k : string) :
  mem k fields = true ->
  getitem (include_fields fields r) k = getitem r k.
Proof.
  intros Hm. destruct r; simpl; try reflexivity.
  rewrite (dict_get_include _ _ _ Hm). reflexivity.
Qed.

Lemma getitem_output (r : value) (o : value) :
  get_seg r (Key "output") = Some o -> getitem r "output" = Ok (output_of r).
Proof.
  unfold output_of. destruct r; simpl; try discriminate.
  intros ->. reflexivity.
Qed.

(** The documents that [get_output] reads for one uuid, sorted by index. *)
Lemma output_query (st : JobStore) (uuid : value) (dir : Z) (limit : nat) :
  query st [("uuid", CEq uuid)] (Some (PList ["output"])) (Some ("index", dir))
    0 limit (LoadBool false)
  = Ok (map (include_fields ["output"; "uuid"; "index"])
          (take_limit limit
             (sort (if dir <? 0 then index_desc else index_asc)
                (filter (matches [("uuid", CEq uuid)])
                   (records (docs_store st)))))).
Proof.
  unfold query, query_with, coll_query.
  rewrite sort_by_index. simpl skipn.
  rewrite (mapM_total _ _ _ (include_fields ["output"; "uuid"; "index"]))
    by (intros r _; reflexivity).
  simpl bind. apply mapM_resolve_false.
Qed.

Lemma sort_nil_inv (A : Type) (leb : A -> A -> bool) (l : list A) :
  sort leb l = [] -> l = [].
Proof.
  intros E. apply Permutation_nil. rewrite <- E. apply sort_perm.
Qed.

Lemma strongly_sorted_weaken (A : Type) (P : A -> Prop) (R R' : A -> A -> Prop)
  (l : list A) :
  (forall a b, P a -> P b -> R a b -> R' a b) ->
  Forall P l -> StronglySorted R l -> StronglySorted R' l.
Proof.
  intros HR HP Hs. induction Hs as [|x r Hs IH Hx]; [constructor|].
  inversion HP as [|? ? Px Pr]; subst. constructor; [apply IH; exact Pr|].
  rewrite Forall_forall in *. intros y Hy. apply HR; auto.
Qed.

Lemma index_asc_ge (a b : value) :
  has_index a -> has_index b -> index_asc b a = true -> index_ge a b.
Proof.
  intros [x Hx] [y Hy] H. rewrite (index_asc_le _ _ _ _ Hy Hx) in H.
  exists x, y. repeat split; try assumption. apply Z.leb_le. exact H.
Qed.

Lemma index_ge_refl (a : value) : has_index a -> index_ge a a.
Proof. intros [x Hx]. exists x, x. repeat split; try assumption. lia. Qed.

(** C5: for a uuid with stored documents, each with an integer index
    and an output, [get_output] with [which="last"] returns the output of
    a document of maximal index, with [which="first"] of one of minimal
    index, and with [which="all"] the outputs of all the documents of the
    uuid in descending order of index. *)
Theorem get_output_by_index (st : JobStore) (uuid : value) :
  let docs := filter (matches [("uuid", CEq uuid)]) (records (docs_store st)) in
  docs <> [] ->
  Forall (fun r => has_index r /\ exists o, get_seg r (Key "output") = Some o)
    docs ->
  (exists r, In r docs
     /\ get_output st uuid "last" (LoadBool false) = Ok (output_of r)
     /\ forall r', In r' docs -> index_ge r r')
  /\ (exists r, In r docs
        /\ get_output st uuid "first" (LoadBool false) = Ok (output_of r)
        /\ forall r', In r' docs -> index_ge r' r)
  /\ (exists rs, Permutation rs docs
        /\ StronglySorted index_ge rs
        /\ get_output st uuid "all" (LoadBool false)
           = Ok (VList (map output_of rs))).
Proof.
  intros docs Hne Hall.
  assert (Hidx : Forall has_index docs).
  { rewrite Forall_forall in *. intros r Hr. apply (Hall r Hr). }
  assert (Hout : forall r, In r docs ->
            getitem (include_fields ["output"; "uuid"; "index"] r) "output"
            = Ok (output_of r)).
  { intros r Hr. rewrite getitem_include by reflexivity.
    rewrite Forall_forall in Hall. destruct (Hall r Hr) as [_ [o Ho]].
    apply (getitem_output _ _ Ho). }
  rewrite Forall_forall in Hidx.
  split; [|split].
  - pose proof (sorted_desc docs) as Hs.
    rewrite Forall_forall in Hs. specialize (Hs Hidx).
    destruct (sort index_desc docs) as [|r0 rest] eqn:E.
    { exfalso. apply Hne. apply (sort_nil_inv _ _ _ E). }
    rewrite <- E in Hs.
    destruct (sorted_head _ _ _ _ Hs E) as [Hin Hb].
    exists r0. split; [exact Hin|]. split.
    + unfold get_output, query_one. simpl (String.eqb _ _ || _)%bool. cbv iota.
      simpl (if String.eqb "last" "last" then _ else _).
      rewrite output_query. fold docs. change (-1 <? 0) with true. cbv iota.
      rewrite E. simpl. rewrite Hout by exact Hin. reflexivity.
    + intros r' Hr'. destruct (Hb r' Hr') as [->|H].
      * apply index_ge_refl, Hidx, Hin.
      * apply index_asc_ge; auto.
  - pose proof (sorted_asc docs) as Hs.
    rewrite Forall_forall in Hs. specialize (Hs Hidx).
    destruct (sort index_asc docs) as [|r0 rest] eqn:E.
    { exfalso. apply Hne. apply (sort_nil_inv _ _ _ E). }
    rewrite <- E in Hs.
    destruct (sorted_head _ _ _ _ Hs E) as [Hin Hb].
    exists r0. split; [exact Hin|]. split.
    + unfold get_output, query_one. simpl (String.eqb _ _ || _)%bool. cbv iota.
      simpl (if String.eqb "first" "last" then _ else _).
      rewrite output_query. fold docs. change (1 <? 0) with false. cbv iota.
      rewrite E. simpl. rewrite Hout by exact Hin. reflexivity.
    + intros r' Hr'. destruct (Hb r' Hr') as [->|H].
      * apply index_ge_refl, Hidx, Hin.
      * apply index_asc_ge; auto.
  - exists (sort index_desc docs). split; [apply sort_perm|]. split.
    + apply (strongly_sorted_weaken _ has_index
               (fun a b => index_desc a b = true)).
      * intros a b Ha Hb H. apply index_asc_ge; assumption.
      * rewrite Forall_forall. intros r Hr. apply Hidx.
        apply (sort_in _ index_desc). exact Hr.
      * apply sorted_desc. rewrite Forall_forall. exact Hidx.
    + unfold get_output. simpl (String.eqb _ _ || _)%bool. cbv iota.
      rewrite output_query. fold docs. change (-1 <? 0) with true. cbv iota.
      unfold take_limit. simpl bind.
      assert (Hm : mapM (fun r => getitem r "output")
                     (map (include_fields ["output"; "uuid"; "index"])
                        (sort index_desc docs))
                   = Ok (map output_of (sort index_desc docs))).
      { assert (Hin : forall r, In r (sort index_desc docs) -> In r docs)
          by (intros r; apply (sort_in _ index_desc)).
        induction (sort index_desc docs) as [|x xs IH]; simpl;
          [reflexivity|].
        rewrite Hout by (apply Hin; left; reflexivity). simpl.
        rewrite IH; [reflexivity|]. intros r Hr. apply Hin. right. exact Hr. }
      destruct (map (include_fields ["output"; "uuid"; "index"])
                  (sort index_desc docs)) as [|d0 ds] eqn:E.
      { exfalso. apply Hne. apply map_eq_nil in E.
        apply (sort_nil_inv _ _ _ E). }
      rewrite Hm. reflexivity.
Qed.

Example get_output_example :
  get_output out_store (VStr "U") "last" (LoadBool false) = Ok (VInt 20)
  /\ get_output out_store (VStr "U") "first" (LoadBool false) = Ok (VInt 10)
  /\ get_output out_store (VStr "U") "all" (LoadBool false)
     = Ok (VList [VInt 20; VInt 10]).
Proof. repeat split; reflexivity. Qed.

Lemma get_output_by_index_witness :
  (exists r, In r [out_rev1; out_rev2]
     /\ get_output out_store (VStr "U") "last" (LoadBool false)
        = Ok (output_of r)
     /\ forall r', In r' [out_rev1; out_rev2] -> index_ge r r')
  /\ (exists r, In r [out_rev1; out_rev2]
        /\ get_output out_store (VStr "U") "first" (LoadBool false)
           = Ok (output_of r)
        /\ forall r', In r' [out_rev1; out_rev2] -> index_ge r' r)
  /\ (exists rs, Permutation rs [out_rev1; out_rev2]
        /\ StronglySorted index_ge rs
        /\ get_output out_store (VStr "U") "all" (LoadBool false)
           = Ok (VList (map output_of rs))).
Proof.
  refine (get_output_by_index out_store (VStr "U") _ _).
  - simpl. discriminate.
  - simpl. repeat constructor.
    + exists 1. reflexivity.
    + exists (VInt 10). reflexivity.
    + exists 2. reflexivity.
    + exists (VInt 20). reflexivity.
Defined.

(** ** Removing documents and their blobs *)

Lemma lookup_scalar (k : string) (ie : bool) (path : location) (v : value) :
  scalar v = true -> lookup k ie path v = [].
Proof. destruct v; simpl; try reflexivity; discriminate. Qed.

Lemma dict_get_exclude (k : string) (fields : list string) (kv : dict) :
  mem k fields = false ->
  dict_get k (filter (fun e => mem (fst e) fields) kv) = None.
Proof.
  intros Hm. induction kv as [|[k0 v0] r IH]; simpl; [reflexivity|].
  destruct (mem k0 fields) eqn:E; simpl; [|exact IH].
  destruct (String.eqb k k0) eqn:E0; [|exact IH].
  apply String.eqb_eq in E0. subst. congruence.
Qed.

Lemma lookup_dict (k : string) (ie : bool) (path : location) (kv : dict) :
  lookup k ie path (VDict kv)
  = (if dict_has k kv then [rev (if ie then Key k :: path else path)] else [])
    ++ lookup_items k ie path kv.
Proof.
  simpl. f_equal. induction kv as [|[k' v] r IH]; simpl; [reflexivity|].
  rewrite IH. reflexivity.
Qed.

Lemma lookup_list (k : string) (ie : bool) (path : location) (l : list value) :
  lookup k ie path (VList l) = lookup_elems k ie path 0 l.
Proof.
  simpl. generalize 0%nat. induction l as [|v r IH]; intros n; simpl;
    [reflexivity|].
  rewrite IH. reflexivity.
Qed.

Lemma find_key_projected (r : value) :
  plain_identity r = true ->
  find_key (include_fields ["uuid"; "index"; "uuid"; "index"] r)
    "blob_uuid" false = [].
Proof.
  destruct r as [| | | | |kv]; try discriminate.
  unfold plain_identity, find_key, include_fields.
  intros H. apply andb_true_iff in H. destruct H as [_ H].
  rewrite lookup_dict. unfold dict_has.
  rewrite dict_get_exclude by reflexivity.
  change ([] ++ ?x) with x.
  induction kv as [|[k0 v0] rest IH]; [reflexivity|].
  cbn [forallb fst snd] in H. apply andb_true_iff in H. destruct H as [H0 H].
  cbn [filter fst].
  destruct (mem k0 ["uuid"; "index"; "uuid"; "index"]) eqn:E.
  - assert (E' : mem k0 ["uuid"; "index"] = true).
    { unfold mem in *. simpl in *.
      destruct (String.eqb k0 "uuid"), (String.eqb k0 "index");
        simpl in *; congruence. }
    rewrite E' in H0. simpl in H0.
    cbn [lookup_items]. rewrite (lookup_scalar _ _ _ _ H0).
    apply IH. exact H.
  - apply IH. exact H.
Qed.

Lemma data_fetch_nothing (data : collection) (p : option props) :
  data_fetch data [("blob_uuid", CIn [])] p = Ok [].
Proof.
  unfold data_fetch. apply coll_query_no_match. intros r _. reflexivity.
Qed.

Lemma filter_blobs_nil (lk : load_keys) : _filter_blobs [] [] lk = Ok ([], []).
Proof. destruct lk as [[|]|[|s l]]; reflexivity. Qed.

(** A document without stubs passes through the loop of [query]. *)
Lemma resolve_no_stub (data : collection) (lk : load_keys) (doc : value) :
  find_key doc "blob_uuid" false = [] -> resolve data lk doc = Ok doc.
Proof.
  intros H. unfold resolve, resolve_with. rewrite H.
  destruct (load_truthy lk); [|reflexivity].
  simpl map. rewrite filter_blobs_nil. simpl.
  rewrite data_fetch_nothing. reflexivity.
Qed.

Lemma getitem_projected (r : value) (k : string) :
  plain_identity r = true -> mem k ["uuid"; "index"] = true ->
  getitem (include_fields ["uuid"; "index"; "uuid"; "index"] r) k
  = Ok (field r k).
Proof.
  intros H Hk.
  assert (Hk' : mem k ["uuid"; "index"; "uuid"; "index"] = true).
  { unfold mem in *. simpl in *.
    destruct (String.eqb k "uuid"), (String.eqb k "index"); simpl in *; congruence. }
  rewrite getitem_include by exact Hk'.
  destruct r as [| | | | |kv]; simpl in *; try discriminate.
  apply andb_true_iff in H. destruct H as [H _].
  apply andb_true_iff in H. destruct H as [Hu Hi].
  unfold field, dict_has in *. simpl.
  unfold mem in Hk. simpl in Hk.
  destruct (String.eqb k "uuid") eqn:E1.
  - apply String.eqb_eq in E1. subst.
    destruct (dict_get "uuid" kv); [reflexivity|discriminate].
  - destruct (String.eqb k "index") eqn:E2; [|discriminate].
    apply String.eqb_eq in E2. subst.
    destruct (dict_get "index" kv); [reflexivity|discriminate].
Qed.

Lemma filter_filter (A : Type) (f g : A -> bool) (l : list A) :
  filter g (filter f l) = filter (fun x => f x && g x) l.
Proof.
  induction l as [|x r IH]; simpl; [reflexivity|].
  destruct (f x); simpl; [destruct (g x); rewrite IH; reflexivity|exact IH].
Qed.

Lemma blobs_left_cons (r : value) (rs : list value) (blobs : list value) :
  blobs_left rs (filter (fun b => negb (matches (owner r) b)) blobs)
  = blobs_left (r :: rs) blobs.
Proof.
  unfold blobs_left. rewrite filter_filter. reflexivity.
Qed.

Lemma remove_blobs_trace (lk : load_keys) (rs : list value) :
  (forall r, In r rs -> plain_identity r = true) ->
  forall (data : collection) (trace : list request),
    remove_blobs lk data
      (map (include_fields ["uuid"; "index"; "uuid"; "index"]) rs) trace
    = Ok ({| key := key data; records := blobs_left rs (records data) |},
          trace ++ map (fun r => DataRemove (owner r)) rs).
Proof.
  induction rs as [|r rs IH]; intros H data trace; simpl.
  - rewrite app_nil_r. unfold blobs_left. simpl.
    rewrite forallb_filter_id; [destruct data; reflexivity|].
    apply forallb_forall. reflexivity.
  - assert (Hr : plain_identity r = true) by (apply H; left; reflexivity).
    rewrite resolve_no_stub by (apply find_key_projected; exact Hr).
    simpl. rewrite !getitem_projected by (try exact Hr; reflexivity).
    simpl. rewrite IH by (intros r' Hr'; apply H; right; exact Hr').
    simpl. rewrite <- app_assoc. simpl. unfold owner at 3.
    rewrite <- blobs_left_cons. reflexivity.
Qed.

Lemma remove_docs_query (st : JobStore) (crit : criteria) :
  coll_query (docs_store st) crit
    (with_identity (Some (PList ["uuid"; "index"]))) None 0 0
  = Ok (map (include_fields ["uuid"; "index"; "uuid"; "index"])
          (filter (matches crit) (records (docs_store st)))).
Proof.
  unfold coll_query. simpl. apply mapM_total. intros r _. reflexivity.
Qed.

(** C9: [remove_docs] sends the blob collection one removal for each
    matching document, by that document's [(uuid, index)], and only then
    sends the document collection the removal of the criteria; afterwards
    no blob of a matching document and no matching document is left, and a
    query with the same criteria yields nothing. *)
Theorem remove_docs_blobs_first (st : JobStore) (crit : criteria) :
  let matched := filter (matches crit) (records (docs_store st)) in
  (forall r, In r matched -> plain_identity r = true) ->
  exists st',
    remove_docs st crit
    = Ok (st', map (fun r => DataRemove (owner r)) matched ++ [DocsRemove crit])
    /\ records (data_store st') = blobs_left matched (records (data_store st))
    /\ (forall r b, In r matched -> In b (records (data_store st')) ->
                    matches (owner r) b = false)
    /\ records (docs_store st')
       = filter (fun r => negb (matches crit r)) (records (docs_store st))
    /\ forall p s skip limit ld, query st' crit p s skip limit ld = Ok [].
Proof.
  intros matched H. unfold remove_docs.
  rewrite remove_docs_query. fold matched. simpl bind.
  rewrite (remove_blobs_trace _ _ H). simpl bind.
  eexists. split; [reflexivity|]. simpl. split; [reflexivity|].
  split; [|split; [reflexivity|]].
  - intros r b Hr Hb. unfold blobs_left in Hb. apply filter_In in Hb.
    destruct Hb as [_ Hb]. rewrite forallb_forall in Hb.
    specialize (Hb r Hr). apply negb_true_iff in Hb. exact Hb.
  - intros p s skip limit ld. apply query_no_match. simpl.
    intros r Hr. apply filter_In in Hr. destruct Hr as [_ Hr].
    apply negb_true_iff in Hr. exact Hr.
Qed.

Lemma remove_docs_blobs_first_witness :
  exists st',
    remove_docs owned_store [("uuid", CEq (VStr "U"))]
    = Ok (st', [DataRemove [("job_uuid", CEq (VStr "U"));
                            ("job_index", CEq (VInt 1))];
                DocsRemove [("uuid", CEq (VStr "U"))]])
    /\ records (data_store st')
       = [VDict [("blob_uuid", VStr "1"); ("data", VInt 6);
                 ("job_uuid", VStr "W"); ("job_index", VInt 1)]]
    /\ (forall r b,
          In r [VDict [("uuid", VStr "U"); ("index", VInt 1)]] ->
          In b (records (data_store st')) -> matches (owner r) b = false)
    /\ records (docs_store st') = [VDict [("uuid", VStr "W"); ("index", VInt 1)]]
    /\ forall p s skip limit ld,
         query st' [("uuid", CEq (VStr "U"))] p s skip limit ld = Ok [].
Proof.
  refine (remove_docs_blobs_first owned_store [("uuid", CEq (VStr "U"))] _).
  simpl. intros r [<-|[]]. reflexivity.
Defined.

(* ================================================================= *)
(** ** Equalities *)

Lemma value_eqb_refl (v : value) : value_eqb v v = true.
Proof.
  induction v as [| b | z | s | l IH | kv IH] using value_ind'; simpl.
  - reflexivity.
  - apply Bool.eqb_reflx.
  - apply Z.eqb_refl.
  - apply String.eqb_refl.
  - induction IH as [|x r Hx _ IHr]; [reflexivity|].
    rewrite Hx. exact IHr.
  - induction IH as [|[k x] r Hx _ IHr]; [reflexivity|].
    simpl in Hx. rewrite String.eqb_refl, Hx. exact IHr.
Qed.

Lemma value_eqb_eq (a b : value) : value_eqb a b = true -> a = b.
Proof.
  revert b.
  induction a as [| x | x | x | l IH | kv IH] using value_ind';
    intros [| y | y | y | l' | kv']; simpl; try discriminate.
  - reflexivity.
  - intros H. apply Bool.eqb_prop in H. subst. reflexivity.
  - intros H. apply Z.eqb_eq in H. subst. reflexivity.
  - intros H. apply String.eqb_eq in H. subst. reflexivity.
  - intros H. f_equal. revert l' H.
    induction IH as [|x r Hx _ IHr]; intros [|y r']; try discriminate.
    + reflexivity.
    + intros H. apply andb_true_iff in H. destruct H as [H1 H2].
      rewrite (Hx y H1), (IHr r' H2). reflexivity.
  - intros H. f_equal. revert kv' H.
    induction IH as [|[k x] r Hx _ IHr]; intros [|[k' y] r']; try discriminate.
    + reflexivity.
    + intros H. apply andb_true_iff in H. destruct H as [H H3].
      apply andb_true_iff in H. destruct H as [H1 H2].
      apply String.eqb_eq in H1. simpl in Hx.
      rewrite H1, (Hx y H2), (IHr r' H3). reflexivity.
Qed.

Lemma value_eqb_spec (a b : value) : value_eqb a b = true <-> a = b.
Proof.
  split; [apply value_eqb_eq|]. intros ->. apply value_eqb_refl.
Qed.

Lemma seg_eqb_spec (a b : seg) : seg_eqb a b = true <-> a = b.
Proof.
  destruct a as [x|x], b as [y|y]; simpl; split; try discriminate.
  - intros H. apply String.eqb_eq in H. subst. reflexivity.
  - intros H. inversion H. apply String.eqb_refl.
  - intros H. apply Nat.eqb_eq in H. subst. reflexivity.
  - intros H. inversion H. apply Nat.eqb_refl.
Qed.

Lemma loc_eqb_spec (a b : location) : loc_eqb a b = true <-> a = b.
Proof.
  revert b. induction a as [|x a IH]; intros [|y b]; simpl;
    split; try discriminate; try reflexivity.
  - intros H. apply andb_true_iff in H. destruct H as [H1 H2].
    apply seg_eqb_spec in H1. apply IH in H2. subst. reflexivity.
  - intros H. inversion H; subst. apply andb_true_iff. split.
    + apply seg_eqb_spec. reflexivity.
    + apply IH. reflexivity.
Qed.

(* ================================================================= *)
(** ** Reading and writing along paths *)

Lemma apart_sym (p q : location) : apart p q -> apart q p.
Proof. intros [H1 H2]. split; assumption. Qed.

Lemma apart_cons (s : seg) (p q : location) :
  apart (s :: p) (s :: q) -> apart p q.
Proof.
  intros [H1 H2]. simpl in *.
  rewrite (proj2 (seg_eqb_spec s s) eq_refl) in *. split; assumption.
Qed.

Lemma dict_get_set_same (k : string) (x : value) (kv : dict) :
  dict_get k (dict_set k x kv) = Some x.
Proof. rewrite dict_get_set, String.eqb_refl. reflexivity. Qed.

Lemma dict_get_set_other (k k' : string) (x : value) (kv : dict) :
  k <> k' -> dict_get k (dict_set k' x kv) = dict_get k kv.
Proof.
  intros H. rewrite dict_get_set.
  destruct (String.eqb k k') eqn:E; [|reflexivity].
  apply String.eqb_eq in E. contradiction.
Qed.

Lemma list_set_same (l l' : list value) (i : nat) (x : value) :
  list_set l i x = Some l' -> nth_error l' i = Some x.
Proof.
  revert l' i. induction l as [|y r IH]; intros l' [|j]; simpl; try discriminate.
  - intros H; inversion H; reflexivity.
  - destruct (list_set r j x) as [r'|] eqn:E; [|discriminate].
    intros H; inversion H; subst. simpl. apply (IH _ _ E).
Qed.

Lemma list_set_other (l l' : list value) (i j : nat) (x : value) :
  list_set l i x = Some l' -> i <> j -> nth_error l' j = nth_error l j.
Proof.
  revert l' i j. induction l as [|y r IH]; intros l' [|i] [|j]; simpl;
    try discriminate; try congruence.
  - intros H _. inversion H; reflexivity.
  - destruct (list_set r i x); [|discriminate]. intros H _.
    inversion H; reflexivity.
  - destruct (list_set r i x) as [r'|] eqn:E; [|discriminate].
    intros H Hij. inversion H; subst. simpl. apply (IH _ _ _ E). congruence.
Qed.

Lemma list_set_defined (l : list value) (i : nat) (x y : value) :
  nth_error l i = Some y -> exists l', list_set l i x = Some l'.
Proof.
  revert i. induction l as [|z r IH]; intros [|i]; simpl; try discriminate.
  - intros _. eexists. reflexivity.
  - intros H. destruct (IH i H) as [r' Hr]. rewrite Hr. eexists. reflexivity.
Qed.

Lemma get_set_seg_same (d d' : value) (s : seg) (x : value) :
  set_seg d s x = Some d' -> get_seg d' s = Some x.
Proof.
  destruct d as [| | | |l|kv], s as [k|i]; simpl; try discriminate.
  - destruct (list_set l i x) as [l'|] eqn:E; [|discriminate].
    intros H; inversion H; subst. simpl. apply (list_set_same _ _ _ _ E).
  - intros H; inversion H; subst. simpl. apply dict_get_set_same.
Qed.

Lemma get_set_seg_other (d d' : value) (s t : seg) (x : value) :
  set_seg d s x = Some d' -> s <> t -> get_seg d' t = get_seg d t.
Proof.
  destruct d as [| | | |l|kv], s as [k|i]; simpl; try discriminate.
  - destruct (list_set l i x) as [l'|] eqn:E; [|discriminate].
    intros H Hst; inversion H; subst. destruct t as [k'|j]; simpl; [reflexivity|].
    apply (list_set_other _ _ _ _ _ E). congruence.
  - intros H Hst; inversion H; subst. destruct t as [k'|j]; simpl; [|reflexivity].
    apply dict_get_set_other. congruence.
Qed.

Lemma set_seg_defined (d : value) (s : seg) (x y : value) :
  get_seg d s = Some y -> exists d', set_seg d s x = Some d'.
Proof.
  destruct d as [| | | |l|kv], s as [k|i]; simpl; try discriminate.
  - intros H. destruct (list_set_defined _ _ x _ H) as [l' Hl].
    rewrite Hl. eexists. reflexivity.
  - intros _. eexists. reflexivity.
Qed.

Lemma set_path_cons2 (d : value) (s s' : seg) (p : location) (x : value) :
  set_path d (s :: s' :: p) x
  = match get_seg d s with
    | Some c =>
        match set_path c (s' :: p) x with
        | Some c' => set_seg d s c'
        | None => None
        end
    | None => None
    end.
Proof. reflexivity. Qed.

Lemma get_set_same (p : location) (d d' : value) (x : value) :
  set_path d p x = Some d' -> get_path d' p = Some x.
Proof.
  revert d d'. induction p as [|s p IH]; intros d d'; [discriminate|].
  destruct p as [|s' p'].
  - simpl. intros H. rewrite (get_set_seg_same _ _ _ _ H). reflexivity.
  - rewrite set_path_cons2.
    destruct (get_seg d s) as [c|]; [|discriminate].
    destruct (set_path c (s' :: p') x) as [c'|] eqn:E; [|discriminate].
    intros H. change (get_path d' (s :: s' :: p'))
      with (match get_seg d' s with
            | Some c0 => get_path c0 (s' :: p')
            | None => None
            end).
    rewrite (get_set_seg_same _ _ _ _ H). apply (IH _ _ E).
Qed.

Lemma seg_eq_dec (s t : seg) : {s = t} + {s <> t}.
Proof.
  destruct (seg_eqb s t) eqn:E.
  - left. apply seg_eqb_spec. exact E.
  - right. intros H. apply seg_eqb_spec in H. congruence.
Qed.

Lemma get_path_cons (d : value) (s : seg) (q : location) :
  get_path d (s :: q)
  = match get_seg d s with Some c => get_path c q | None => None end.
Proof. reflexivity. Qed.

Lemma set_path_top (d d' : value) (s : seg) (p : location) (x : value) :
  set_path d (s :: p) x = Some d' ->
  forall t, s <> t -> get_seg d' t = get_seg d t.
Proof.
  destruct p as [|s' p'].
  - simpl. intros H t Hst. apply (get_set_seg_other _ _ _ _ _ H Hst).
  - rewrite set_path_cons2.
    destruct (get_seg d s) as [c|]; [|discriminate].
    destruct (set_path c (s' :: p') x) as [c'|]; [|discriminate].
    intros H t Hst. apply (get_set_seg_other _ _ _ _ _ H Hst).
Qed.

Lemma get_set_apart (p : location) (d d' : value) (x : value) (q : location) :
  set_path d p x = Some d' -> apart p q -> get_path d' q = get_path d q.
Proof.
  revert d d' q. induction p as [|s p IH]; intros d d' q; [discriminate|].
  intros H Hap. destruct q as [|t q].
  - destruct Hap as [_ Hap]. discriminate.
  - rewrite !get_path_cons. destruct (seg_eq_dec s t) as [->|Hst].
    + apply apart_cons in Hap. destruct p as [|s' p'].
      * destruct Hap as [Hap _]. discriminate.
      * rewrite set_path_cons2 in H.
        destruct (get_seg d t) as [c|]; [|discriminate].
        destruct (set_path c (s' :: p') x) as [c'|] eqn:E; [|discriminate].
        rewrite (get_set_seg_same _ _ _ _ H). apply (IH _ _ _ E Hap).
    + rewrite (set_path_top _ _ _ _ _ H t Hst). reflexivity.
Qed.

Lemma set_path_defined (p : location) (d : value) (x y : value) :
  p <> [] -> get_path d p = Some y -> exists d', set_path d p x = Some d'.
Proof.
  revert d. induction p as [|s p IH]; intros d Hne; [contradiction|].
  rewrite get_path_cons. destruct (get_seg d s) as [c|] eqn:Ec; [|discriminate].
  destruct p as [|s' p'].
  - intros _. simpl. apply (set_seg_defined _ _ x _ Ec).
  - intros H. rewrite set_path_cons2, Ec.
    destruct (IH c ltac:(discriminate) H) as [c' Hc']. rewrite Hc'.
    apply (set_seg_defined _ _ c' _ Ec).
Qed.

(** Writes at positions that exist and lie apart from one another all
    succeed; each position then holds its value, and every position apart
    from all of them holds what it held. *)
Lemma writes_apart (ups : list (location * value)) :
  ForallOrdPairs (fun a b => apart (fst a) (fst b)) ups ->
  forall d,
    (forall p x, In (p, x) ups -> p <> [] /\ exists y, get_path d p = Some y) ->
    exists d',
      update_in_dictionary d ups = Ok d'
      /\ (forall p x, In (p, x) ups -> get_path d' p = Some x)
      /\ (forall q, (forall p x, In (p, x) ups -> apart p q) ->
                    get_path d' q = get_path d q).
Proof.
  induction 1 as [|[p x] r Hhd Htl IH]; intros d Hv.
  - exists d. simpl. repeat split; auto. intros p x [].
  - destruct (Hv p x (or_introl eq_refl)) as [Hne [y Hy]].
    destruct (set_path_defined p d x y Hne Hy) as [d1 Hd1].
    assert (Hap : forall q z, In (q, z) r -> apart p q).
    { rewrite Forall_forall in Hhd. intros q z Hq. apply (Hhd (q, z) Hq). }
    assert (Hv1 : forall q z, In (q, z) r ->
                    q <> [] /\ exists y, get_path d1 q = Some y).
    { intros q z Hq. destruct (Hv q z (or_intror Hq)) as [Hq1 [w Hw]].
      split; [exact Hq1|]. exists w.
      rewrite (get_set_apart _ _ _ _ _ Hd1 (Hap q z Hq)). exact Hw. }
    destruct (IH d1 Hv1) as [d' [Hup [Hin Hout]]].
    exists d'. simpl. rewrite Hd1. simpl. split; [exact Hup|]. split.
    + intros q z [Hq|Hq].
      * inversion Hq; subst. rewrite Hout.
        -- apply (get_set_same _ _ _ _ Hd1).
        -- intros p' x' Hp'. apply apart_sym. apply (Hap p' x' Hp').
      * apply (Hin _ _ Hq).
    + intros q Hq. rewrite Hout.
      * apply (get_set_apart _ _ _ _ _ Hd1). apply (Hq p x). left. reflexivity.
      * intros p' x' Hp'. apply (Hq p' x'). right. exact Hp'.
Qed.

(* ================================================================= *)
(** ** What [find_key] finds *)

Lemma in_nodup_get (kv : dict) (k : string) (v : value) :
  nodupb (keys kv) = true -> In (k, v) kv -> dict_get k kv = Some v.
Proof.
  induction kv as [|[k0 v0] r IH]; simpl; [intros _ []|].
  intros H Hin. apply andb_true_iff in H. destruct H as [H0 H1].
  destruct Hin as [Hin|Hin].
  - inversion Hin; subst. rewrite String.eqb_refl. reflexivity.
  - destruct (String.eqb k k0) eqn:E; [|apply IH; assumption].
    apply String.eqb_eq in E. subst k0. exfalso.
    apply negb_true_iff in H0.
    assert (Hex : existsb (String.eqb k) (keys r) = true).
    { apply existsb_exists. exists k. split; [|apply String.eqb_refl].
      unfold keys. apply (in_map fst _ _ Hin). }
    congruence.
Qed.

Lemma dict_get_in (kv : dict) (k : string) (v : value) :
  dict_get k kv = Some v -> In (k, v) kv.
Proof.
  induction kv as [|[k0 v0] r IH]; simpl; [discriminate|].
  destruct (String.eqb k k0) eqn:E.
  - apply String.eqb_eq in E. intros H; inversion H; subst. left. reflexivity.
  - intros H. right. apply IH. exact H.
Qed.

Lemma in_lookup_items (k : string) (ie : bool) (path : location) (kv : dict)
  (loc : location) :
  In loc (lookup_items k ie path kv) <->
  exists k' v', In (k', v') kv /\ In loc (lookup k ie (Key k' :: path) v').
Proof.
  induction kv as [|[k0 v0] r IH]; simpl.
  - split; [intros []|intros [k' [v' [[] _]]]].
  - rewrite in_app_iff, IH. split.
    + intros [H|[k' [v' [Hin H]]]].
      * exists k0, v0. split; [left; reflexivity|exact H].
      * exists k', v'. split; [right; exact Hin|exact H].
    + intros [k' [v' [[Hin|Hin] H]]].
      * inversion Hin; subst. left. exact H.
      * right. exists k', v'. split; assumption.
Qed.

Lemma in_lookup_elems (k : string) (ie : bool) (path : location)
  (l : list value) (n : nat) (loc : location) :
  In loc (lookup_elems k ie path n l) <->
  exists i v', nth_error l i = Some v'
               /\ In loc (lookup k ie (Idx (n + i) :: path) v').
Proof.
  revert n. induction l as [|v0 r IH]; intros n; simpl.
  - split; [intros []|intros [[|i] [v' [H _]]]; discriminate].
  - rewrite in_app_iff, IH. split.
    + intros [H|[i [v' [Hn H]]]].
      * exists 0%nat, v0. rewrite Nat.add_0_r. split; [reflexivity|exact H].
      * exists (S i), v'. rewrite Nat.add_succ_r. split; [exact Hn|exact H].
    + intros [[|i] [v' [Hn H]]].
      * simpl in Hn. inversion Hn; subst. rewrite Nat.add_0_r in H.
        left. exact H.
      * right. exists i, v'. rewrite Nat.add_succ_r in H.
        split; [exact Hn|exact H].
Qed.

(** Every location found leads to a mapping that holds the key. *)
Lemma lookup_sound (k : string) (ie : bool) (v : value) :
  wf_value v = true ->
  forall path loc, In loc (lookup k ie path v) ->
  exists q kv, loc = rev path ++ q ++ end_of k ie
               /\ get_path v q = Some (VDict kv) /\ dict_has k kv = true.
Proof.
  induction v as [| b | z | s | l IH | kv IH] using value_ind';
    intros Hwf path loc Hin; try (destruct Hin; fail).
  - rewrite lookup_list in Hin. apply in_lookup_elems in Hin.
    destruct Hin as [i [v' [Hn Hin]]]. simpl in Hn, Hin.
    rewrite Forall_forall in IH.
    assert (Hv' : In v' l) by (apply (nth_error_In _ _ Hn)).
    simpl in Hwf. rewrite forallb_forall in Hwf.
    destruct (IH v' Hv' (Hwf v' Hv') _ _ Hin) as [q [kv [Hloc [Hg Hk]]]].
    exists (Idx i :: q), kv. split; [|split; [|exact Hk]].
    + rewrite Hloc. simpl. rewrite <- !app_assoc. reflexivity.
    + rewrite get_path_cons. simpl. rewrite Hn. exact Hg.
  - rewrite lookup_dict in Hin. simpl in Hwf.
    apply andb_true_iff in Hwf. destruct Hwf as [Hnd Hwf].
    apply in_app_iff in Hin. destruct Hin as [Hin|Hin].
    + destruct (dict_has k kv) eqn:E; [|destruct Hin].
      destruct Hin as [<-|[]]. exists [], kv.
      split; [|split; [reflexivity|exact E]].
      unfold end_of. destruct ie; simpl; [reflexivity|].
      rewrite app_nil_r. reflexivity.
    + apply in_lookup_items in Hin. destruct Hin as [k' [v' [Hkv Hin]]].
      rewrite Forall_forall in IH. rewrite forallb_forall in Hwf.
      destruct (IH (k', v') Hkv (Hwf (k', v') Hkv) _ _ Hin)
        as [q [kv' [Hloc [Hg Hk]]]].
      exists (Key k' :: q), kv'. split; [|split; [|exact Hk]].
      * rewrite Hloc. simpl. rewrite <- !app_assoc. reflexivity.
      * rewrite get_path_cons. simpl.
        rewrite (in_nodup_get _ _ _ Hnd Hkv). exact Hg.
Qed.

Lemma find_key_sound (d : value) (k : string) (ie : bool) (loc : location) :
  wf_value d = true -> In loc (find_key d k ie) ->
  exists q kv, loc = q ++ end_of k ie
               /\ get_path d q = Some (VDict kv) /\ dict_has k kv = true.
Proof.
  intros Hwf Hin. apply (lookup_sound k ie d Hwf [] loc Hin).
Qed.

(* ================================================================= *)
(** ** Mappings built by successive assignments *)

Section AssocFacts.
Variables K V : Type.
Variable eqb : K -> K -> bool.
Hypothesis eqb_spec : forall a b, eqb a b = true <-> a = b.

Lemma eqb_same (a : K) : eqb a a = true.
Proof. apply eqb_spec. reflexivity. Qed.

Lemma assoc_get_set (k k' : K) (v : V) (l : list (K * V)) :
  assoc_get eqb k (assoc_set eqb k' v l)
  = if eqb k k' then Some v else assoc_get eqb k l.
Proof.
  induction l as [|[k0 v0] r IH]; simpl.
  - destruct (eqb k k'); reflexivity.
  - destruct (eqb k' k0) eqn:E0; simpl.
    + apply eqb_spec in E0. subst k0. destruct (eqb k k'); reflexivity.
    + destruct (eqb k k0) eqn:E1; [|exact IH].
      apply eqb_spec in E1. subst k0.
      destruct (eqb k k') eqn:E2; [|reflexivity].
      apply eqb_spec in E2. subst k'. rewrite eqb_same in E0. discriminate.
Qed.

Lemma assoc_set_keys (k : K) (v : V) (l : list (K * V)) (k' : K) :
  In k' (map fst (assoc_set eqb k v l)) <-> k' = k \/ In k' (map fst l).
Proof.
  induction l as [|[k0 v0] r IH]; simpl.
  - intuition.
  - destruct (eqb k k0) eqn:E; simpl.
    + apply eqb_spec in E. subst k0. intuition.
    + rewrite IH. intuition.
Qed.

Lemma assoc_set_nodup (k : K) (v : V) (l : list (K * V)) :
  NoDup (map fst l) -> NoDup (map fst (assoc_set eqb k v l)).
Proof.
  induction l as [|[k0 v0] r IH]; simpl; intros H.
  - constructor; [intros []|constructor].
  - inversion H as [|? ? Hn Hr]; subst. destruct (eqb k k0) eqn:E; simpl.
    + apply eqb_spec in E. subst k0. constructor; assumption.
    + constructor; [|apply IH; exact Hr].
      intros Hin. apply assoc_set_keys in Hin. destruct Hin as [->|Hin].
      * rewrite eqb_same in E. discriminate.
      * contradiction.
Qed.

Lemma assoc_get_in (k : K) (v : V) (l : list (K * V)) :
  NoDup (map fst l) -> (In (k, v) l <-> assoc_get eqb k l = Some v).
Proof.
  induction l as [|[k0 v0] r IH]; simpl; intros H.
  - split; [intros []|discriminate].
  - inversion H as [|? ? Hn Hr]; subst. destruct (eqb k k0) eqn:E.
    + apply eqb_spec in E. subst k0. split.
      * intros [Hin|Hin]; [inversion Hin; reflexivity|].
        exfalso. apply Hn. apply (in_map fst _ _ Hin).
      * intros Hv. inversion Hv. left. reflexivity.
    + rewrite <- (IH Hr). split.
      * intros [Hin|Hin]; [|exact Hin]. inversion Hin; subst.
        rewrite eqb_same in E. discriminate.
      * intros Hin. right. exact Hin.
Qed.

Lemma assign_all_nodup (pairs acc : list (K * V)) :
  NoDup (map fst acc) -> NoDup (map fst (assign_all eqb pairs acc)).
Proof.
  revert acc. induction pairs as [|[k v] r IH]; intros acc H; simpl; [exact H|].
  apply IH. apply assoc_set_nodup. exact H.
Qed.

Lemma assign_all_get (k : K) (pairs acc : list (K * V)) :
  assoc_get eqb k (assign_all eqb pairs acc)
  = last_set eqb k pairs (assoc_get eqb k acc).
Proof.
  unfold assign_all, last_set. revert acc.
  induction pairs as [|[k' v] r IH]; intros acc; simpl; [reflexivity|].
  rewrite IH, assoc_get_set. reflexivity.
Qed.

Lemma last_set_some (k : K) (pairs : list (K * V)) (start : option V) (v : V) :
  last_set eqb k pairs start = Some v ->
  start = Some v \/ In (k, v) pairs.
Proof.
  revert start. induction pairs as [|[k' v'] r IH]; intros start; simpl.
  - intros H. left. exact H.
  - intros H. destruct (IH _ H) as [Hs|Hin]; [|right; right; exact Hin].
    destruct (eqb k k') eqn:E; [|left; exact Hs].
    apply eqb_spec in E. subst k'. inversion Hs; subst. right. left. reflexivity.
Qed.

Lemma last_set_from_some (k : K) (pairs : list (K * V)) (w : V) :
  exists v', last_set eqb k pairs (Some w) = Some v'.
Proof.
  revert w. induction pairs as [|[k1 v1] r IH]; intros w; simpl.
  - exists w. reflexivity.
  - destruct (eqb k k1); apply IH.
Qed.

Lemma last_set_in (k : K) (v : V) (pairs : list (K * V)) (start : option V) :
  In (k, v) pairs -> exists v', last_set eqb k pairs start = Some v'.
Proof.
  revert start. induction pairs as [|[k' w] r IH]; intros start; [intros []|].
  simpl. intros [Hin|Hin].
  - inversion Hin; subst. rewrite eqb_same. apply last_set_from_some.
  - apply IH. exact Hin.
Qed.

(** Assignments to a key that a test lets through are all that count. *)
Lemma last_set_filter (p : K -> bool) (k : K) (pairs : list (K * V))
  (start : option V) :
  p k = true ->
  last_set eqb k (filter (fun e => p (fst e)) pairs) start = last_set eqb k pairs start.
Proof.
  intros Hp. revert start. induction pairs as [|[k' v] r IH]; intros start;
    simpl; [reflexivity|].
  destruct (p k') eqn:E; simpl; [apply IH|].
  destruct (eqb k k') eqn:E1; [|apply IH].
  apply eqb_spec in E1. subst k'. congruence.
Qed.
End AssocFacts.

(* ================================================================= *)
(** ** Which stubs a selector list resolves *)

Lemma selects_ok (kv : dict) (loc : location) (s : selector) :
  loc <> [] ->
  selects (VDict kv) loc s = Ok (selector_matches (VDict kv) loc s).
Proof.
  intros Hne. unfold selects, selector_matches, last_seg, final_seg_is.
  assert (Hr : exists t r, rev loc = t :: r).
  { destruct (rev loc) as [|t r] eqn:E; [|eauto].
    exfalso. apply Hne. rewrite <- (rev_involutive loc), E. reflexivity. }
  destruct Hr as [t [r Hr]]. rewrite Hr.
  destruct s as [n|m c]; simpl.
  - destruct t; reflexivity.
  - unfold field. simpl.
    destruct (value_eqb match dict_get "@class" kv with
                        | Some v => v | None => VNone end (VStr c)); simpl.
    + destruct (value_eqb match dict_get "@module" kv with
                          | Some v => v | None => VNone end (VStr m)); simpl;
        [reflexivity|destruct t; reflexivity].
    + destruct t; reflexivity.
Qed.

Lemma keep_for_ok (kv : dict) (loc : location) (sels : list selector) :
  loc <> [] ->
  keep_for (VDict kv, loc) sels = Ok (copies sels (VDict kv, loc)).
Proof.
  intros Hne. unfold copies. induction sels as [|s r IH]; simpl; [reflexivity|].
  rewrite (selects_ok kv loc s Hne). simpl. rewrite IH. simpl.
  destruct (selector_matches (VDict kv) loc s); reflexivity.
Qed.

Lemma filter_pairs_ok (pairs : list (value * location)) (sels : list selector) :
  Forall stub_pair pairs ->
  filter_pairs pairs sels = Ok (flat_map (copies sels) pairs).
Proof.
  induction 1 as [|[b loc] r [[kv Hb] Hl] _ IH]; simpl; [reflexivity|].
  simpl in Hb, Hl. subst b. rewrite (keep_for_ok kv loc sels Hl). simpl.
  rewrite IH. reflexivity.
Qed.

Lemma in_copies (sels : list selector) (bl x : value * location) :
  In x (copies sels bl) <->
  x = bl /\ existsb (selector_matches (fst bl) (snd bl)) sels = true.
Proof.
  unfold copies. rewrite in_map_iff. split.
  - intros [s [Hx Hs]]. apply filter_In in Hs. destruct Hs as [Hs Hm].
    split; [congruence|]. apply existsb_exists. exists s. auto.
  - intros [-> Hex]. apply existsb_exists in Hex. destruct Hex as [s [Hs Hm]].
    exists s. split; [reflexivity|]. apply filter_In. auto.
Qed.

Lemma combine_fst_snd (A B : Type) (l : list (A * B)) :
  combine (map fst l) (map snd l) = l.
Proof.
  induction l as [|[a b] r IH]; simpl; [reflexivity|]. rewrite IH. reflexivity.
Qed.

Lemma combine_map_l (A B : Type) (f : A -> B) (l : list A) :
  combine (map f l) l = map (fun x => (f x, x)) l.
Proof.
  induction l as [|a r IH]; simpl; [reflexivity|]. rewrite IH. reflexivity.
Qed.

Lemma object_info_of_ok (pairs acc : list (value * location)) :
  (forall bl, In bl pairs -> exists kv s,
      fst bl = VDict kv /\ dict_get "blob_uuid" kv = Some (VStr s)) ->
  object_info_of pairs acc
  = Ok (assign_all value_eqb
          (map (fun bl => (blob_id (fst bl), snd bl)) pairs) acc).
Proof.
  revert acc. induction pairs as [|[b loc] r IH]; intros acc H; simpl;
    [reflexivity|].
  destruct (H (b, loc) (or_introl eq_refl)) as [kv [s [Hb Hs]]].
  simpl in Hb. subst b. simpl. rewrite Hs. simpl.
  rewrite IH by (intros bl Hbl; apply H; right; exact Hbl).
  unfold blob_id, field. simpl. rewrite Hs. reflexivity.
Qed.

Lemma is_blob_inv (r : value) :
  is_blob r = true ->
  exists kv s x, r = VDict kv /\ dict_get "blob_uuid" kv = Some (VStr s)
                 /\ dict_get "data" kv = Some x.
Proof.
  destruct r as [| | | | |kv]; simpl; try discriminate.
  destruct (dict_get "blob_uuid" kv) as [[| | |s| |]|] eqn:E1,
    (dict_get "data" kv) as [x|] eqn:E2; try discriminate.
  intros _. exists kv, s, x. auto.
Qed.

Lemma object_map_of_ok (objs : list value) (acc : list (value * value)) :
  (forall o, In o objs -> is_blob o = true) ->
  object_map_of objs acc = Ok (assign_all value_eqb (map id_data objs) acc).
Proof.
  revert acc. induction objs as [|o r IH]; intros acc H; simpl; [reflexivity|].
  destruct (is_blob_inv o (H o (or_introl eq_refl))) as [kv [s [x [-> [Hs Hx]]]]].
  simpl. rewrite Hs, Hx. simpl.
  rewrite IH by (intros o Ho; apply H; right; exact Ho).
  unfold id_data, blob_id, field. simpl. rewrite Hs, Hx. reflexivity.
Qed.

Lemma is_blob_include (r : value) :
  is_blob r = true ->
  is_blob (include_fields blob_fields r) = true
  /\ id_data (include_fields blob_fields r) = id_data r.
Proof.
  destruct r as [| | | | |kv]; simpl; try discriminate.
  unfold id_data, blob_id, field. simpl.
  rewrite !(dict_get_include _ blob_fields) by reflexivity.
  intros H. split; [exact H|reflexivity].
Qed.

Lemma matches_in_ids (ids : list value) (r : value) :
  is_blob r = true ->
  matches [("blob_uuid", CIn ids)] r = among ids (blob_id r).
Proof.
  intros H. destruct (is_blob_inv r H) as [kv [s [x [-> [Hs _]]]]].
  unfold matches, among, blob_id, field. simpl. rewrite Hs.
  rewrite andb_true_r. reflexivity.
Qed.

Lemma filter_ext_in (A : Type) (f g : A -> bool) (l : list A) :
  (forall x, In x l -> f x = g x) -> filter f l = filter g l.
Proof.
  induction l as [|x r IH]; intros H; simpl; [reflexivity|].
  rewrite (H x (or_introl eq_refl)), IH; [reflexivity|].
  intros y Hy. apply H. right. exact Hy.
Qed.

Lemma filter_map_comm (A B : Type) (g : A -> B) (p : B -> bool) (l : list A) :
  filter p (map g l) = map g (filter (fun x => p (g x)) l).
Proof.
  induction l as [|x r IH]; simpl; [reflexivity|].
  destruct (p (g x)); simpl; rewrite IH; reflexivity.
Qed.

(** The batched fetch and the mapping built from it: every identifier
    asked for gets the data that the collection holds for it. *)
Lemma fetch_object_map (data : collection) (ids : list value) :
  (forall r, In r (records data) -> is_blob r = true) ->
  exists om,
    (objects <- data_fetch data [("blob_uuid", CIn ids)]
                  (Some (PList blob_fields)) ;;
     object_map_of objects []) = Ok om
    /\ forall oid, among ids oid = true ->
                   assoc_get value_eqb oid om = blob_data (records data) oid.
Proof.
  intros Hb. unfold data_fetch, coll_query. simpl sort_records. simpl skipn.
  unfold take_limit.
  set (kept := filter (matches [("blob_uuid", CIn ids)]) (records data)).
  assert (Hk : forall r, In r kept -> is_blob r = true).
  { intros r Hr. apply filter_In in Hr. apply Hb, Hr. }
  rewrite (mapM_total _ _ _ (include_fields blob_fields))
    by (intros r _; reflexivity).
  simpl bind. rewrite object_map_of_ok.
  2:{ intros o Ho. apply in_map_iff in Ho. destruct Ho as [r [<- Hr]].
      apply is_blob_include, Hk, Hr. }
  eexists. split; [reflexivity|]. intros oid Hoid.
  rewrite (assign_all_get _ _ value_eqb value_eqb_spec). simpl assoc_get.
  unfold blob_data. rewrite map_map.
  rewrite (map_ext_in _ id_data).
  2:{ intros r Hr. apply is_blob_include, Hk, Hr. }
  unfold kept.
  rewrite (filter_ext_in _ _ (fun r => among ids (fst (id_data r))))
    by (intros r Hr; apply matches_in_ids, Hb, Hr).
  rewrite <- (filter_map_comm _ _ id_data (fun e => among ids (fst e))).
  apply (last_set_filter _ _ value_eqb value_eqb_spec (among ids)). exact Hoid.
Qed.

Lemma to_insert_of_ok (oi : list (value * location)) (om : list (value * value))
  (acc : list (location * value)) :
  (forall e, In e oi -> exists x, assoc_get value_eqb (fst e) om = Some x) ->
  to_insert_of oi om acc
  = Ok (assign_all loc_eqb
          (map (fun e => (snd e, data_or_none om (fst e))) oi) acc).
Proof.
  revert acc. induction oi as [|[oid loc] r IH]; intros acc H; simpl;
    [reflexivity|].
  destruct (H (oid, loc) (or_introl eq_refl)) as [x Hx]. simpl in Hx.
  rewrite Hx. simpl. rewrite IH by (intros e He; apply H; right; exact He).
  unfold data_or_none. rewrite Hx. reflexivity.
Qed.

Lemma nodup_apart (V : Type) (l : list (location * V)) :
  NoDup (map fst l) ->
  (forall a b, In a l -> In b l -> fst a = fst b \/ apart (fst a) (fst b)) ->
  ForallOrdPairs (fun a b => apart (fst a) (fst b)) l.
Proof.
  induction l as [|a r IH]; intros Hnd H; [constructor|].
  inversion Hnd as [|? ? Hn Hr]; subst. constructor.
  - rewrite Forall_forall. intros b Hb.
    destruct (H a b (or_introl eq_refl) (or_intror Hb)) as [E|Hap]; [|exact Hap].
    exfalso. apply Hn. rewrite E. apply (in_map fst _ _ Hb).
  - apply IH; [exact Hr|]. intros x y Hx Hy. apply H; right; assumption.
Qed.

Lemma among_in (ids : list value) (k : value) : In k ids -> among ids k = true.
Proof.
  intros H. unfold among. apply existsb_exists. exists k.
  split; [exact H|apply value_eqb_refl].
Qed.

Section ResolveSelected.
Variable data : collection.
Variable doc : value.
Variable lk : load_keys.
Variable sel : location -> bool.
Variable kept : list (value * location).

Let L := find_key doc "blob_uuid" false.
Let stub_id (p : location) : value := blob_id (get doc p).

Hypothesis doc_wf : wf_value doc = true.
Hypothesis not_top : ~ In [] L.
Hypothesis stubs_apart : forall p q, In p L -> In q L -> p = q \/ apart p q.
Hypothesis ids_str : forall p, In p L -> exists s, stub_id p = VStr s.
Hypothesis ids_inj : forall p q, In p L -> In q L -> stub_id p = stub_id q -> p = q.
Hypothesis blobs_wf : forall r, In r (records data) -> is_blob r = true.
Hypothesis blobs_there :
  forall p, In p L -> sel p = true ->
            blob_data (records data) (stub_id p) <> None.

(** What [_filter_blobs] keeps under [lk]: the stubs that [sel] selects. *)
Hypothesis lk_truthy : load_truthy lk = true.
Hypothesis filter_blobs_kept :
  _filter_blobs (map (get doc) L) L lk = Ok (map fst kept, map snd kept).
Hypothesis in_kept :
  forall bl, In bl kept <->
             exists p, In p L /\ bl = (get doc p, p) /\ sel p = true.

Let oi := assign_all value_eqb (map (fun bl => (blob_id (fst bl), snd bl)) kept) [].

Lemma stub_at (p : location) :
  In p L -> exists kv, get_path doc p = Some (VDict kv)
                       /\ get doc p = VDict kv /\ dict_has "blob_uuid" kv = true.
Proof.
  intros Hp. destruct (find_key_sound doc _ _ p doc_wf Hp) as [q [kv [Hq [Hg Hk]]]].
  unfold end_of in Hq. rewrite app_nil_r in Hq. subst q.
  exists kv. unfold get. rewrite Hg. auto.
Qed.

Lemma object_info_kept : object_info_of kept [] = Ok oi.
Proof.
  apply object_info_of_ok. intros bl Hbl. apply in_kept in Hbl.
  destruct Hbl as [p [Hp [-> _]]]. destruct (stub_at p Hp) as [kv [_ [Hg Hk]]].
  destruct (ids_str p Hp) as [s Hs]. exists kv, s. split; [exact Hg|].
  unfold stub_id, blob_id, field in Hs. rewrite Hg in Hs. simpl in Hs.
  unfold dict_has in Hk. destruct (dict_get "blob_uuid" kv); [|discriminate].
  rewrite Hs. reflexivity.
Qed.

Lemma oi_nodup : NoDup (map fst oi).
Proof. apply (assign_all_nodup _ _ value_eqb value_eqb_spec). constructor. Qed.

Lemma oi_sound (oid : value) (loc : location) :
  In (oid, loc) oi -> In loc L /\ sel loc = true /\ oid = stub_id loc.
Proof.
  intros H. apply (assoc_get_in _ _ value_eqb value_eqb_spec _ _ _ oi_nodup) in H.
  unfold oi in H. rewrite (assign_all_get _ _ value_eqb value_eqb_spec) in H.
  apply (last_set_some _ _ value_eqb value_eqb_spec) in H.
  destruct H as [H|H]; [discriminate|].
  apply in_map_iff in H. destruct H as [bl [E Hbl]].
  apply in_kept in Hbl. destruct Hbl as [p [Hp [-> Hs]]].
  simpl in E. inversion E; subst. auto.
Qed.

Lemma oi_complete (p : location) :
  In p L -> sel p = true -> In (stub_id p, p) oi.
Proof.
  intros Hp Hs.
  assert (Hin : In (stub_id p, p)
                  (map (fun bl => (blob_id (fst bl), snd bl)) kept)).
  { apply in_map_iff. exists (get doc p, p). split; [reflexivity|].
    apply in_kept. exists p. auto. }
  destruct (last_set_in _ _ value_eqb value_eqb_spec _ _ _ None Hin) as [loc Hl].
  assert (Hoi : In (stub_id p, loc) oi).
  { apply (assoc_get_in _ _ value_eqb value_eqb_spec _ _ _ oi_nodup).
    unfold oi. rewrite (assign_all_get _ _ value_eqb value_eqb_spec). exact Hl. }
  destruct (oi_sound _ _ Hoi) as [Hloc [_ E]].
  pose proof (ids_inj p loc Hp Hloc E) as Hpl. subst loc. exact Hoi.
Qed.
Lemma resolve_steps (om : list (value * value)) :
  (forall oid, among (map fst oi) oid = true ->
               assoc_get value_eqb oid om = blob_data (records data) oid) ->
  let ti := assign_all loc_eqb
              (map (fun e => (snd e, data_or_none om (fst e))) oi) [] in
  to_insert_of oi om [] = Ok ti
  /\ NoDup (map fst ti)
  /\ (forall p x, In (p, x) ti ->
        In p L /\ sel p = true
        /\ blob_data (records data) (stub_id p) = Some x)
  /\ (forall p, In p L -> sel p = true ->
                exists x, In (p, x) ti).
Proof.
  intros Hom ti.
  assert (Hdata : forall oid loc, In (oid, loc) oi ->
            exists x, assoc_get value_eqb oid om = Some x
                      /\ blob_data (records data) (stub_id loc) = Some x).
  { intros oid loc H. destruct (oi_sound _ _ H) as [Hl [Hs ->]].
    rewrite Hom by (apply among_in, (in_map fst _ _ H)).
    destruct (blob_data (records data) (stub_id loc)) as [x|] eqn:E.
    - exists x. auto.
    - exfalso. apply (blobs_there loc Hl Hs E). }
  assert (Hnd : NoDup (map fst ti)).
  { apply (assign_all_nodup _ _ loc_eqb loc_eqb_spec). constructor. }
  assert (Hsound : forall p x, In (p, x) ti ->
            In p L /\ sel p = true
            /\ blob_data (records data) (stub_id p) = Some x).
  { intros p x H.
    apply (assoc_get_in _ _ loc_eqb loc_eqb_spec _ _ _ Hnd) in H.
    unfold ti in H. rewrite (assign_all_get _ _ loc_eqb loc_eqb_spec) in H.
    apply (last_set_some _ _ loc_eqb loc_eqb_spec) in H.
    destruct H as [H|H]; [discriminate|].
    apply in_map_iff in H. destruct H as [[oid loc] [E He]].
    simpl in E. inversion E; subst.
    destruct (oi_sound _ _ He) as [Hl [Hs _]].
    destruct (Hdata _ _ He) as [x [Hx Hb]].
    unfold data_or_none. rewrite Hx. auto. }
  split; [|split; [exact Hnd|split; [exact Hsound|]]].
  - apply to_insert_of_ok. intros [oid loc] He.
    destruct (Hdata _ _ He) as [x [Hx _]]. exists x. exact Hx.
  - intros p Hp Hs. pose proof (oi_complete p Hp Hs) as He.
    assert (Hin : In (p, data_or_none om (stub_id p))
                    (map (fun e => (snd e, data_or_none om (fst e))) oi)).
    { apply in_map_iff. exists (stub_id p, p). auto. }
    destruct (last_set_in _ _ loc_eqb loc_eqb_spec _ _ _ None Hin) as [x Hx].
    exists x. apply (assoc_get_in _ _ loc_eqb loc_eqb_spec _ _ _ Hnd).
    unfold ti. rewrite (assign_all_get _ _ loc_eqb loc_eqb_spec). exact Hx.
Qed.

(** The loop body of [query] on a document with stubs: the stubs that
    the load specification selects hold the data of their blobs
    afterwards, and every other stub is where and what it was. *)
Lemma resolve_selected :
  exists doc',
    resolve data lk doc = Ok doc'
    /\ forall p, In p L ->
         if sel p
         then exists x, get_path doc' p = Some x
                        /\ blob_data (records data) (stub_id p) = Some x
         else get_path doc' p = get_path doc p.
Proof.
  destruct (fetch_object_map data (map fst oi) blobs_wf) as [om [Hfetch Hom]].
  destruct (resolve_steps om Hom) as [Hti [Hnd [Hsound Hcomplete]]].
  set (ti := assign_all loc_eqb
               (map (fun e => (snd e, data_or_none om (fst e))) oi) []) in *.
  assert (Hw : exists doc',
             update_in_dictionary doc ti = Ok doc'
             /\ (forall p x, In (p, x) ti -> get_path doc' p = Some x)
             /\ (forall q, (forall p x, In (p, x) ti -> apart p q) ->
                           get_path doc' q = get_path doc q)).
  { apply writes_apart.
    - apply nodup_apart; [exact Hnd|]. intros [p x] [q y] Hp Hq. simpl.
      apply stubs_apart; [apply (Hsound p x Hp)|apply (Hsound q y Hq)].
    - intros p x Hp. destruct (Hsound p x Hp) as [Hl _]. split.
      + intros ->. apply not_top. exact Hl.
      + destruct (stub_at p Hl) as [kv [Hg _]]. eexists. exact Hg. }
  destruct Hw as [doc' [Hup [Hin Hout]]].
  exists doc'. split.
  - unfold resolve, resolve_with. rewrite lk_truthy. fold L.
    rewrite filter_blobs_kept. simpl bind.
    rewrite combine_fst_snd, object_info_kept. simpl bind.
    change ["blob_uuid"; "data"] with blob_fields.
    destruct (data_fetch data [("blob_uuid", CIn (map fst oi))]
                (Some (PList blob_fields))) as [objects|e];
      simpl in Hfetch; [|discriminate].
    simpl bind. rewrite Hfetch. simpl bind. rewrite Hti. simpl bind. exact Hup.
  - intros p Hp. destruct (sel p) eqn:Hs.
    + destruct (Hcomplete p Hp Hs) as [x Hx]. exists x. split.
      * apply (Hin p x Hx).
      * apply (Hsound p x Hx).
    + apply Hout. intros q y Hq. destruct (Hsound q y Hq) as [Hl [Hsq _]].
      destruct (stubs_apart q p Hl Hp) as [->|Hap]; [congruence|exact Hap].
Qed.
End ResolveSelected.

Lemma stub_pairs (doc : value) :
  wf_value doc = true -> ~ In [] (find_key doc "blob_uuid" false) ->
  Forall stub_pair
    (map (fun p => (get doc p, p)) (find_key doc "blob_uuid" false)).
Proof.
  intros Hwf Htop. rewrite Forall_forall. intros bl Hbl.
  apply in_map_iff in Hbl. destruct Hbl as [p [<- Hp]].
  destruct (find_key_sound doc _ _ p Hwf Hp) as [q [kv [Hq [Hg _]]]].
  unfold end_of in Hq. rewrite app_nil_r in Hq. subst q. split; simpl.
  - exists kv. unfold get. rewrite Hg. reflexivity.
  - intros ->. apply Htop. exact Hp.
Qed.

(** The selection of a selector list. *)
Lemma filter_blobs_list (doc : value) (s0 : selector) (sl : list selector) :
  let L := find_key doc "blob_uuid" false in
  let kept := flat_map (copies (s0 :: sl)) (map (fun p => (get doc p, p)) L) in
  wf_value doc = true -> ~ In [] L ->
  _filter_blobs (map (get doc) L) L (LKList (s0 :: sl))
  = Ok (map fst kept, map snd kept)
  /\ forall bl, In bl kept <->
       exists p, In p L /\ bl = (get doc p, p)
                 /\ selected (s0 :: sl) doc p = true.
Proof.
  intros L kept Hwf Htop. split.
  - unfold _filter_blobs. rewrite combine_map_l.
    rewrite filter_pairs_ok; [reflexivity|]. apply stub_pairs; assumption.
  - intros bl. unfold kept. rewrite in_flat_map. split.
    + intros [x [Hx Hbl]]. apply in_map_iff in Hx. destruct Hx as [p [<- Hp]].
      apply in_copies in Hbl. destruct Hbl as [-> Hs]. exists p. auto.
    + intros [p [Hp [-> Hs]]]. exists (get doc p, p). split.
      * apply in_map_iff. exists p. auto.
      * apply in_copies. auto.
Qed.

(** The selection of [load=True]: every stub. *)
Lemma filter_blobs_all (doc : value) :
  let L := find_key doc "blob_uuid" false in
  let kept := map (fun p => (get doc p, p)) L in
  _filter_blobs (map (get doc) L) L (LKBool true)
  = Ok (map fst kept, map snd kept)
  /\ forall bl, In bl kept <->
       exists p, In p L /\ bl = (get doc p, p) /\ true = true.
Proof.
  intros L kept. split.
  - unfold kept. simpl. rewrite !map_map. simpl. rewrite map_id. reflexivity.
  - intros bl. unfold kept. rewrite in_map_iff. split.
    + intros [p [<- Hp]]. exists p. auto.
    + intros [p [Hp [-> _]]]. exists p. auto.
Qed.

Lemma mapM_forall2 (A B : Type) (f : A -> result B) (R : A -> B -> Prop)
  (l : list A) :
  (forall x, In x l -> exists y, f x = Ok y /\ R x y) ->
  exists l', mapM f l = Ok l' /\ Forall2 R l l'.
Proof.
  induction l as [|x r IH]; intros H; simpl.
  - exists []. split; [reflexivity|constructor].
  - destruct (H x (or_introl eq_refl)) as [y [Hy HR]].
    destruct IH as [l' [Hl' HF]]; [intros z Hz; apply H; right; exact Hz|].
    exists (y :: l'). rewrite Hy, Hl'. split; [reflexivity|].
    constructor; assumption.
Qed.

(** C4: with a selector list as the load specification, [query] returns
    without an error, and in every document it resolves exactly the stubs
    that some selector matches (a type selector by the recorded module and
    class, a name selector by the final segment of the location); the
    other stubs are yielded as they are stored. *)
Theorem query_resolves_selected_stubs (st : JobStore) (crit : criteria)
  (properties : option props) (srt : sort_spec) (skip limit : nat)
  (x0 : item) (xl : list item) (raws : list value) :
  let sels := map prepare_item (x0 :: xl) in
  coll_query (docs_store st) crit (with_identity properties) srt skip limit
  = Ok raws ->
  (forall r, In r (records (data_store st)) -> is_blob r = true) ->
  (forall doc, In doc raws -> stubs_in_order (data_store st) sels doc) ->
  exists docs,
    query st crit properties srt skip limit (LoadMany (x0 :: xl)) = Ok docs
    /\ Forall2 (resolved_by (data_store st) sels) raws docs.
Proof.
  intros sels Hraw Hblobs Hdocs. unfold query, query_with.
  rewrite Hraw. simpl bind.
  apply mapM_forall2. intros doc Hdoc.
  destruct (Hdocs doc Hdoc) as [H1 [H2 [H3 [H4 [H5 H6]]]]].
  destruct (filter_blobs_list doc (prepare_item x0) (map prepare_item xl) H1 H2)
    as [Hf Hk].
  apply (resolve_selected (data_store st) doc
           (LKList (prepare_item x0 :: map prepare_item xl))
           (selected sels doc) _
           H1 H2 H3 H4 H5 Hblobs H6 eq_refl Hf Hk).
Qed.

Example query_by_type_example :
  query tagged_store [] None None 0 0 (LoadMany [IClass "m" "C"])
  = Ok [VDict [("uuid", VStr "U"); ("index", VInt 1); ("a", VInt 7);
               ("b", VDict [("@class", VStr ""); ("@module", VStr "");
                            ("blob_uuid", VStr "1")])]].
Proof. reflexivity. Qed.

Lemma query_resolves_selected_stubs_witness :
  exists docs,
    query tagged_store [] None None 0 0 (LoadMany [IClass "m" "C"]) = Ok docs
    /\ Forall2 (resolved_by (data_store tagged_store) [SType "m" "C"])
         [tagged_doc] docs.
Proof.
  refine (query_resolves_selected_stubs tagged_store [] None None 0 0
            (IClass "m" "C") [] [tagged_doc] _ _ _).
  - reflexivity.
  - intros r [<-|[]]. reflexivity.
  - intros doc [<-|[]]. unfold stubs_in_order. simpl find_key.
    split; [reflexivity|]. split.
    { intros [H|[H|[]]]; discriminate. }
    split.
    { intros p q [<-|[<-|[]]] [<-|[<-|[]]];
        try (left; reflexivity); right; split; reflexivity. }
    split.
    { intros p [<-|[<-|[]]]; eexists; reflexivity. }
    split.
    { intros p q [<-|[<-|[]]] [<-|[<-|[]]]; try reflexivity;
        intros H; discriminate H. }
    intros p [<-|[<-|[]]]; intros H; try discriminate H.
    intros H'. discriminate H'.
Defined.

(* ================================================================= *)
(** ** The order of Python on values *)

Lemma py_compare_list (x y : list value) :
  py_compare (VList x) (VList y) = lex_compare py_compare x y.
Proof. reflexivity. Qed.

Lemma py_compare_dict (x y : dict) :
  py_compare (VDict x) (VDict y)
  = if value_eqb (VDict x) (VDict y) then Some Eq else None.
Proof. reflexivity. Qed.

Lemma z_compare_trans (x y z : Z) (c1 c2 : comparison) :
  (x ?= y) = c1 -> (y ?= z) = c2 -> c1 <> Gt -> c2 <> Gt ->
  (x ?= z) = join c1 c2.
Proof.
  intros H1 H2 N1 N2. subst c1 c2.
  destruct (Z.compare_spec x y), (Z.compare_spec y z); subst; simpl;
    try congruence.
  all: try apply Z.compare_refl; apply Z.compare_lt_iff; lia.
Qed.

Ltac lt_absurd :=
  match goal with
  | H : String_as_OT.lt ?a ?a |- _ =>
      exact (StrictOrder_Irreflexive (R := String_as_OT.lt) a H)
  | H1 : String_as_OT.lt ?a ?b, H2 : String_as_OT.lt ?b ?a |- _ =>
      exact (StrictOrder_Irreflexive (R := String_as_OT.lt) a
               (StrictOrder_Transitive (R := String_as_OT.lt) a b a H1 H2))
  end.

Lemma string_compare_refl (s : string) : String_as_OT.compare s s = Eq.
Proof.
  destruct (String_as_OT.compare_spec s s) as [_|H|H]; [reflexivity| |];
    exfalso; lt_absurd.
Qed.

Lemma string_compare_trans (x y z : string) (c1 c2 : comparison) :
  String_as_OT.compare x y = c1 -> String_as_OT.compare y z = c2 ->
  c1 <> Gt -> c2 <> Gt -> String_as_OT.compare x z = join c1 c2.
Proof.
  intros H1 H2 N1 N2. subst c1 c2.
  destruct (String_as_OT.compare_spec x y) as [E1|L1|G1],
    (String_as_OT.compare_spec y z) as [E2|L2|G2];
    unfold String_as_OT.eq in *; subst; simpl; try congruence;
    first [ apply string_compare_refl
          | assumption
          | apply (StrictOrder_Transitive (R := String_as_OT.lt) x y z L1 L2) ].
Qed.

Lemma string_compare_antisym (x y : string) :
  String_as_OT.compare y x = CompOpp (String_as_OT.compare x y).
Proof.
  destruct (String_as_OT.compare_spec x y) as [E|L|G],
    (String_as_OT.compare_spec y x) as [E'|L'|G'];
    unfold String_as_OT.eq in *; subst; simpl; try reflexivity;
    exfalso; lt_absurd.
Qed.

Section LexFacts.
Variable A : Type.
Variable cmp : A -> A -> option comparison.

Lemma lex_compare_trans (x : list A) :
  Forall (fun a => forall b c c1 c2,
            cmp a b = Some c1 -> cmp b c = Some c2 -> c1 <> Gt -> c2 <> Gt ->
            cmp a c = Some (join c1 c2)) x ->
  forall y z c1 c2,
    lex_compare cmp x y = Some c1 -> lex_compare cmp y z = Some c2 ->
    c1 <> Gt -> c2 <> Gt -> lex_compare cmp x z = Some (join c1 c2).
Proof.
  induction 1 as [|a x Ha _ IH]; intros y z c1 c2 H1 H2 N1 N2.
  - destruct y as [|b y]; simpl in H1; inversion H1; subst; simpl.
    + exact H2.
    + destruct z as [|c z]; simpl in H2; [|reflexivity].
      inversion H2; subst. congruence.
  - destruct y as [|b y]; simpl in H1; [inversion H1; subst; congruence|].
    destruct z as [|c z]; simpl in H2; [inversion H2; subst; congruence|].
    simpl.
    destruct (cmp a b) as [[| |]|] eqn:E1; try discriminate;
      destruct (cmp b c) as [[| |]|] eqn:E2; try discriminate.
    + rewrite (Ha b c Eq Eq E1 E2) by discriminate. simpl.
      apply (IH y z c1 c2); assumption.
    + rewrite (Ha b c Eq Lt E1 E2) by discriminate. simpl.
      inversion H2; subst. destruct c1; simpl; congruence.
    + inversion H2; subst. congruence.
    + rewrite (Ha b c Lt Eq E1 E2) by discriminate. simpl.
      inversion H1; subst. reflexivity.
    + rewrite (Ha b c Lt Lt E1 E2) by discriminate. simpl.
      inversion H1; subst. reflexivity.
    + inversion H2; subst. congruence.
    + inversion H1; subst. congruence.
    + inversion H1; subst. congruence.
    + inversion H1; subst. congruence.
Qed.

Lemma lex_compare_antisym (x : list A) :
  Forall (fun a => forall b c, cmp a b = Some c -> cmp b a = Some (CompOpp c)) x ->
  forall y c, lex_compare cmp x y = Some c ->
              lex_compare cmp y x = Some (CompOpp c).
Proof.
  induction 1 as [|a x Ha _ IH]; intros [|b y] c; simpl; intros H;
    try (inversion H; subst; reflexivity).
  destruct (cmp a b) as [[| |]|] eqn:E; try discriminate.
  - rewrite (Ha b Eq E). simpl. apply IH. exact H.
  - rewrite (Ha b Lt E). simpl. inversion H; subst. reflexivity.
  - rewrite (Ha b Gt E). simpl. inversion H; subst. reflexivity.
Qed.
End LexFacts.

Lemma forall_all (A : Type) (P : A -> Prop) (l : list A) :
  (forall a, P a) -> Forall P l.
Proof. intros H. apply Forall_forall. intros a _. apply H. Qed.

Lemma py_compare_trans (a : value) :
  forall b c c1 c2,
    py_compare a b = Some c1 -> py_compare b c = Some c2 ->
    c1 <> Gt -> c2 <> Gt -> py_compare a c = Some (join c1 c2).
Proof.
  induction a as [| x | x | x | l IH | kv IH] using value_ind';
    intros b c c1 c2 H1 H2 N1 N2.
  - destruct b; simpl in H1; try discriminate.
    destruct c; simpl in H2; try discriminate.
    inversion H1; inversion H2; subst. reflexivity.
  - destruct b; simpl in H1; try discriminate;
      destruct c; simpl in H2; try discriminate;
      injection H1 as <-; injection H2 as <-; simpl; f_equal;
      (eapply z_compare_trans; [reflexivity|reflexivity|exact N1|exact N2]).
  - destruct b; simpl in H1; try discriminate;
      destruct c; simpl in H2; try discriminate;
      injection H1 as <-; injection H2 as <-; simpl; f_equal;
      (eapply z_compare_trans; [reflexivity|reflexivity|exact N1|exact N2]).
  - destruct b; simpl in H1; try discriminate.
    destruct c; simpl in H2; try discriminate.
    injection H1 as <-; injection H2 as <-; simpl; f_equal.
    apply (string_compare_trans x s s0); [reflexivity|reflexivity|exact N1|exact N2].
  - destruct b as [| | | |l1|]; try (simpl in H1; discriminate).
    destruct c as [| | | |l2|]; try (simpl in H2; discriminate).
    rewrite py_compare_list in *.
    apply (lex_compare_trans _ py_compare l IH l1 l2 c1 c2); assumption.
  - destruct b as [| | | | |kv1]; try (simpl in H1; discriminate).
    destruct c as [| | | | |kv2]; try (simpl in H2; discriminate).
    rewrite py_compare_dict in *.
    destruct (value_eqb (VDict kv) (VDict kv1)) eqn:E1; [|discriminate].
    destruct (value_eqb (VDict kv1) (VDict kv2)) eqn:E2; [|discriminate].
    apply value_eqb_eq in E1, E2. inversion H1; inversion H2; subst.
    rewrite E1, E2, value_eqb_refl. reflexivity.
Qed.

Lemma py_compare_antisym (a : value) :
  forall b c, py_compare a b = Some c -> py_compare b a = Some (CompOpp c).
Proof.
  induction a as [| x | x | x | l IH | kv IH] using value_ind';
    intros b c H.
  - destruct b; simpl in H; try discriminate. inversion H. reflexivity.
  - destruct b; simpl in H; try discriminate; inversion H; simpl; f_equal;
      apply Z.compare_antisym.
  - destruct b; simpl in H; try discriminate; inversion H; simpl; f_equal;
      apply Z.compare_antisym.
  - destruct b; simpl in H; try discriminate. inversion H; simpl; f_equal.
    apply string_compare_antisym.
  - destruct b as [| | | |l1|]; try (simpl in H; discriminate).
    rewrite py_compare_list in *.
    apply (lex_compare_antisym _ py_compare l IH l1 c H).
  - destruct b as [| | | | |kv1]; try (simpl in H; discriminate).
    rewrite py_compare_dict in *.
    destruct (value_eqb (VDict kv) (VDict kv1)) eqn:E; [|discriminate].
    apply value_eqb_eq in E. inversion H; subst. rewrite E, value_eqb_refl.
    reflexivity.
Qed.

Lemma tuple_compare_trans (a b c : list value) (c1 c2 : comparison) :
  tuple_compare a b = Some c1 -> tuple_compare b c = Some c2 ->
  c1 <> Gt -> c2 <> Gt -> tuple_compare a c = Some (join c1 c2).
Proof.
  apply lex_compare_trans. apply forall_all. exact py_compare_trans.
Qed.

Lemma tuple_compare_antisym (a b : list value) (c : comparison) :
  tuple_compare a b = Some c -> tuple_compare b a = Some (CompOpp c).
Proof.
  apply lex_compare_antisym. apply forall_all. exact py_compare_antisym.
Qed.

(* ================================================================= *)
(** ** Groups *)

Lemma strongly_sorted_app (A : Type) (R : A -> A -> Prop) (l1 l2 : list A) :
  StronglySorted R (l1 ++ l2) ->
  StronglySorted R l1 /\ StronglySorted R l2
  /\ forall a b, In a l1 -> In b l2 -> R a b.
Proof.
  induction l1 as [|x l1 IH]; simpl; intros H.
  - split; [constructor|]. split; [exact H|]. intros a b [].
  - inversion H as [|? ? Hs Hx]; subst. destruct (IH Hs) as [H1 [H2 H3]].
    rewrite Forall_forall in Hx. split; [|split; [exact H2|]].
    + constructor; [exact H1|]. rewrite Forall_forall. intros y Hy.
      apply Hx. apply in_or_app. left. exact Hy.
    + intros a b [<-|Ha] Hb; [|apply H3; assumption].
      apply Hx. apply in_or_app. right. exact Hb.
Qed.

Lemma all_related_sorted (A : Type) (R : A -> A -> Prop) (l : list A) :
  (forall a b, In a l -> In b l -> R a b) -> StronglySorted R l.
Proof.
  induction l as [|x r IH]; intros H; constructor.
  - apply IH. intros a b Ha Hb. apply H; right; assumption.
  - rewrite Forall_forall. intros y Hy. apply H; [left; reflexivity|right; exact Hy].
Qed.

Section GroupFacts.
Variable A : Type.
Variable key : A -> list value.
Variable dom : A -> Prop.
Hypothesis dom_cmp :
  forall a b, dom a -> dom b -> comparable (key a) (key b) = true.

Let leb (a b : A) : bool := negb (tuple_lt (key b) (key a)).
Let eqk (k : list value) (a : A) : bool := tuple_eq k (key a).

Lemma cmp_some (a b : A) :
  dom a -> dom b -> exists c, tuple_compare (key a) (key b) = Some c.
Proof.
  intros Ha Hb. pose proof (dom_cmp a b Ha Hb) as H. unfold comparable in H.
  destruct (tuple_compare (key a) (key b)) as [c|]; [eauto|discriminate].
Qed.

Lemma leb_spec (a b : A) :
  dom a -> dom b ->
  (leb a b = true <-> tuple_compare (key a) (key b) = Some Lt
                      \/ tuple_compare (key a) (key b) = Some Eq).
Proof.
  intros Ha Hb. destruct (cmp_some a b Ha Hb) as [c Hc].
  pose proof (tuple_compare_antisym _ _ _ Hc) as Hc'.
  unfold leb, tuple_lt. rewrite Hc', Hc.
  destruct c; simpl; split; intros H; try reflexivity; auto;
    try discriminate; destruct H; discriminate.
Qed.

Lemma eqk_sym (a b : A) : eqk (key a) b = true -> eqk (key b) a = true.
Proof.
  unfold eqk, tuple_eq.
  destruct (tuple_compare (key a) (key b)) as [[| |]|] eqn:E; try discriminate.
  rewrite (tuple_compare_antisym _ _ _ E). reflexivity.
Qed.

Lemma eqk_trans (k : list value) (a b : A) :
  eqk k a = true -> eqk (key a) b = true -> eqk k b = true.
Proof.
  unfold eqk, tuple_eq.
  destruct (tuple_compare k (key a)) as [[| |]|] eqn:E1; try discriminate.
  destruct (tuple_compare (key a) (key b)) as [[| |]|] eqn:E2; try discriminate.
  rewrite (tuple_compare_trans _ _ _ _ _ E1 E2) by discriminate. reflexivity.
Qed.

Lemma eqk_leb (a b : A) :
  dom a -> dom b ->
  (eqk (key a) b = true <-> leb a b = true /\ leb b a = true).
Proof.
  intros Ha Hb. rewrite (leb_spec a b Ha Hb), (leb_spec b a Hb Ha).
  unfold eqk, tuple_eq. destruct (cmp_some a b Ha Hb) as [c Hc].
  rewrite Hc, (tuple_compare_antisym _ _ _ Hc).
  destruct c; simpl; split; intros H; try reflexivity; try discriminate.
  - split; right; reflexivity.
  - destruct H as [_ [H|H]]; discriminate.
  - destruct H as [[H|H] _]; discriminate.
Qed.

Lemma leb_total (a b : A) :
  dom a -> dom b -> leb a b = true \/ leb b a = true.
Proof.
  intros Ha Hb. rewrite (leb_spec a b Ha Hb), (leb_spec b a Hb Ha).
  destruct (cmp_some a b Ha Hb) as [c Hc].
  rewrite Hc, (tuple_compare_antisym _ _ _ Hc). destruct c; simpl; auto.
Qed.

Lemma leb_trans (a b c : A) :
  dom a -> dom b -> dom c ->
  leb a b = true -> leb b c = true -> leb a c = true.
Proof.
  intros Ha Hb Hc. rewrite (leb_spec a b Ha Hb), (leb_spec b c Hb Hc),
    (leb_spec a c Ha Hc).
  intros [H1|H1] [H2|H2];
    rewrite (tuple_compare_trans _ _ _ _ _ H1 H2) by discriminate; simpl; auto.
Qed.

Lemma leb_lt (a b : A) :
  dom a -> dom b -> leb a b = true -> eqk (key a) b = false ->
  tuple_lt (key a) (key b) = true.
Proof.
  intros Ha Hb. rewrite (leb_spec a b Ha Hb). unfold eqk, tuple_eq, tuple_lt.
  intros [H|H]; rewrite H; [reflexivity|discriminate].
Qed.
Lemma eqk_refl (a : A) : dom a -> eqk (key a) a = true.
Proof.
  intros Ha. apply (eqk_leb a a Ha Ha).
  destruct (leb_total a a Ha Ha) as [H|H]; split; exact H.
Qed.

Lemma filter_all (B : Type) (f : B -> bool) (l : list B) :
  (forall x, In x l -> f x = true) -> filter f l = l.
Proof.
  intros H. apply forallb_filter_id. apply forallb_forall. exact H.
Qed.

(** The runs of a sorted list: their concatenation is the list, every
    run is all the elements with its key, in their order in the list, and
    the keys of the runs increase strictly. *)
Lemma runs_from_spec (l : list A) :
  forall (t : A) (cur : list A),
    In t cur -> Forall dom (rev cur ++ l) ->
    (forall c, In c cur -> eqk (key t) c = true) ->
    StronglySorted (fun a b => leb a b = true) (rev cur ++ l) ->
    List.concat (map snd (runs_from key (key t) cur l)) = rev cur ++ l
    /\ (forall k g, In (k, g) (runs_from key (key t) cur l) ->
          g <> [] /\ (exists e, In e (rev cur ++ l) /\ k = key e)
          /\ g = filter (eqk k) (rev cur ++ l))
    /\ StronglySorted (fun a b => tuple_lt (fst a) (fst b) = true)
         (runs_from key (key t) cur l)
    /\ exists g rest, runs_from key (key t) cur l = (key t, g) :: rest.
Proof.
  induction l as [|x r IH]; intros t cur Ht Hd Heq Hs.
  - simpl. rewrite !app_nil_r in *. split; [reflexivity|].
    assert (Htr : In t (rev cur)) by (apply in_rev; rewrite rev_involutive; exact Ht).
    split; [|split; [repeat constructor|eauto]].
    intros k g [H|[]]. inversion H; subst. split; [|split].
    + intros E. rewrite E in Htr. destruct Htr.
    + exists t. auto.
    + symmetry. apply filter_all. intros c Hc. apply Heq.
      apply in_rev. exact Hc.
  - simpl runs_from. destruct (tuple_eq (key t) (key x)) eqn:E.
    + assert (Hl : rev (x :: cur) ++ r = rev cur ++ x :: r).
      { simpl. rewrite <- app_assoc. reflexivity. }
      specialize (IH t (x :: cur)). rewrite Hl in IH. apply IH.
      * right. exact Ht.
      * exact Hd.
      * intros c [<-|Hc]; [exact E|apply Heq; exact Hc].
      * exact Hs.
    + destruct (strongly_sorted_app _ _ _ _ Hs) as [_ [Hsx Hcross]].
      apply Forall_app in Hd. destruct Hd as [Hdc Hdx].
      assert (Hdomx : dom x) by (inversion Hdx; assumption).
      assert (Hdomt : dom t).
      { rewrite Forall_forall in Hdc. apply Hdc. apply in_rev.
        rewrite rev_involutive. exact Ht. }
      specialize (IH x [x] (or_introl eq_refl) Hdx).
      destruct IH as [Hcat [Hgrp [Hsorted [g0 [rest0 Hhead]]]]].
      { intros c [<-|[]]. apply eqk_refl. exact Hdomx. }
      { exact Hsx. }
      simpl rev in *. simpl app in Hcat, Hgrp.
      assert (Hfar : forall e, In e (x :: r) -> eqk (key t) e = false).
      { intros e He. destruct (eqk (key t) e) eqn:Ee; [|reflexivity].
        exfalso. rewrite Forall_forall in Hdx. pose proof (Hdx e He) as Hdome.
        assert (Htx : leb t x = true).
        { apply Hcross; [|left; reflexivity].
          apply in_rev. rewrite rev_involutive. exact Ht. }
        assert (Hxe : leb x e = true).
        { destruct He as [<-|He].
          - apply (eqk_leb x x Hdomx Hdomx). apply eqk_refl. exact Hdomx.
          - inversion Hsx as [|? ? _ Hall]; subst.
            rewrite Forall_forall in Hall. apply Hall. exact He. }
        assert (Het : leb e t = true).
        { apply (eqk_leb t e Hdomt Hdome). exact Ee. }
        assert (Hxt : leb x t = true).
        { apply (leb_trans x e t); assumption. }
        assert (Hbad : eqk (key t) x = true).
        { apply (eqk_leb t x Hdomt Hdomx). split; assumption. }
        unfold eqk in Hbad. congruence. }
      split; [|split; [|split]].
      * simpl. rewrite Hcat. reflexivity.
      * intros k g [H|H].
        -- inversion H; subst. split; [|split].
           ++ intros E'. apply (f_equal (@rev A)) in E'.
              rewrite rev_involutive in E'. rewrite E' in Ht. destruct Ht.
           ++ exists t. split; [|reflexivity]. apply in_or_app. left.
              apply in_rev. rewrite rev_involutive. exact Ht.
           ++ rewrite filter_app.
              rewrite (filter_all _ (eqk (key t)) (rev cur))
                by (intros c Hc; apply Heq, in_rev; exact Hc).
              rewrite (filter_none _ (eqk (key t)) (x :: r)) by exact Hfar.
              rewrite app_nil_r. reflexivity.
        -- destruct (Hgrp k g H) as [Hne [[e [He Hk]] Hg]].
           split; [exact Hne|]. split.
           ++ exists e. split; [apply in_or_app; right; exact He|exact Hk].
           ++ rewrite filter_app.
              rewrite (filter_none _ (eqk k) (rev cur)); [exact Hg|].
              intros c Hc. subst k.
              destruct (eqk (key e) c) eqn:Ec; [|reflexivity]. exfalso.
              assert (Htc : eqk (key t) c = true)
                by (apply Heq, in_rev; exact Hc).
              assert (Hte : eqk (key t) e = true).
              { apply (eqk_trans (key t) c e Htc). apply eqk_sym. exact Ec. }
              rewrite (Hfar e He) in Hte. discriminate.
      * constructor; [exact Hsorted|]. rewrite Forall_forall.
        intros [k g] Hkg. simpl.
        destruct (Hgrp k g Hkg) as [_ [[e [He Hk]] _]]. subst k.
        rewrite Forall_forall in Hdx.
        apply (leb_lt t e Hdomt (Hdx e He)); [|apply Hfar; exact He].
        apply Hcross; [|exact He].
        apply in_rev. rewrite rev_involutive. exact Ht.
      * eauto.
Qed.
End GroupFacts.

Lemma runs_of_sorted (ks : list string) (data : list value) :
  all_comparable ks data = true ->
  let runs := itertools_groupby (grouping_keys ks) (sort (key_leb ks) data) in
  List.concat (map snd runs) = sort (key_leb ks) data
  /\ (forall k g, In (k, g) runs ->
        g <> [] /\ g = filter (fun d => tuple_eq k (grouping_keys ks d)) data)
  /\ StronglySorted (fun a b => tuple_lt (fst a) (fst b) = true) runs.
Proof.
  intros Hcmp runs.
  set (key := grouping_keys ks) in *.
  set (dom := fun d : value => In d data).
  assert (dom_cmp : forall a b, dom a -> dom b -> comparable (key a) (key b) = true).
  { intros a b Ha Hb. unfold all_comparable in Hcmp.
    rewrite forallb_forall in Hcmp. specialize (Hcmp a Ha).
    rewrite forallb_forall in Hcmp. apply (Hcmp b Hb). }
  assert (Hdom : forall l, (forall d, In d l -> In d data) -> Forall dom l).
  { intros l H. apply Forall_forall. exact H. }
  assert (Hsorted : StronglySorted (fun a b => key_leb ks a b = true)
                      (sort (key_leb ks) data)).
  { apply (sort_sorted _ (key_leb ks) dom).
    - apply (leb_total _ key dom dom_cmp).
    - apply (leb_trans _ key dom dom_cmp).
    - apply Hdom. auto. }
  assert (Hgroup : forall k e, In e data -> k = key e ->
            filter (fun d => tuple_eq k (key d)) (sort (key_leb ks) data)
            = filter (fun d => tuple_eq k (key d)) data).
  { intros k e He ->.
    rewrite (filter_sort _ (key_leb ks) dom
               (leb_total _ key dom dom_cmp) (leb_trans _ key dom dom_cmp))
      by (apply Hdom; auto).
    apply sort_sorted_id. apply all_related_sorted. intros a b Ha Hb.
    apply filter_In in Ha, Hb. destruct Ha as [Ha Ea], Hb as [Hb Eb].
    apply (eqk_leb _ key dom dom_cmp a b Ha Hb).
    apply (eqk_trans _ key (key a) e b); [|exact Eb].
    apply (eqk_sym _ key e a). exact Ea. }
  unfold runs. destruct (sort (key_leb ks) data) as [|x r] eqn:E.
  - simpl. split; [reflexivity|]. split; [intros k g []|constructor].
  - assert (Hin : forall d, In d (x :: r) -> In d data).
    { intros d Hd. apply (sort_in _ (key_leb ks)). rewrite E. exact Hd. }
    destruct (runs_from_spec _ key dom dom_cmp r x [x] (or_introl eq_refl))
      as [Hcat [Hgrp [Hs _]]].
    + simpl. apply Hdom. exact Hin.
    + intros c [<-|[]]. apply (eqk_refl _ key dom dom_cmp). apply Hin.
      left. reflexivity.
    + simpl. exact Hsorted.
    + simpl itertools_groupby. simpl rev in *. simpl app in *.
      split; [exact Hcat|]. split; [|exact Hs].
      intros k g Hkg. destruct (Hgrp k g Hkg) as [Hne [[e [He Hk]] Hg]].
      split; [exact Hne|]. rewrite Hg.
      apply (Hgroup k e); [apply Hin; exact He|exact Hk].
Qed.


(** The groups of the example: two, of two documents and of one; the
    document without the field is in neither.  The first component of each
    pair is built with [get(v, k)] on the value [v] of the key, which is
    [None] for a plain value. *)
Example groupby_example :
  groupby grp_store ["a"] [] None None 0 0 LoadNone
  = Ok [(VDict [("a", VNone)], [grp1; grp2]);
        (VDict [("a", VNone)], [grp3])].
Proof. reflexivity. Qed.


(* ================================================================= *)
(** ** More on paths *)

Lemma get_path_app (d : value) (p q : location) :
  get_path d (p ++ q)
  = match get_path d p with Some c => get_path c q | None => None end.
Proof.
  revert d. induction p as [|s p IH]; intros d; simpl; [reflexivity|].
  destruct (get_seg d s) as [c|]; [apply IH|reflexivity].
Qed.

(** Every mapping that holds the key is found. *)
Lemma lookup_complete (k : string) (q : location) :
  forall (v : value) (path : location) (kv : dict),
    get_path v q = Some (VDict kv) -> dict_has k kv = true ->
    In (rev path ++ q) (lookup k false path v).
Proof.
  induction q as [|s q IH]; intros v path kv Hg Hk.
  - simpl in Hg. inversion Hg; subst. rewrite lookup_dict, Hk, app_nil_r.
    left. reflexivity.
  - rewrite get_path_cons in Hg. destruct (get_seg v s) as [c|] eqn:Ec;
      [|discriminate].
    destruct v as [| | | |l|kv0], s as [k'|i]; simpl in Ec; try discriminate.
    + rewrite lookup_list. apply in_lookup_elems. exists i, c.
      split; [exact Ec|]. simpl.
      replace (rev path ++ Idx i :: q) with (rev (Idx i :: path) ++ q)
        by (simpl; rewrite <- app_assoc; reflexivity).
      apply (IH c _ kv Hg Hk).
    + rewrite lookup_dict. apply in_or_app. right.
      apply in_lookup_items. exists k', c.
      split; [apply dict_get_in; exact Ec|].
      replace (rev path ++ Key k' :: q) with (rev (Key k' :: path) ++ q)
        by (simpl; rewrite <- app_assoc; reflexivity).
      apply (IH c _ kv Hg Hk).
Qed.

Lemma find_key_complete (d : value) (k : string) (q : location) (kv : dict) :
  get_path d q = Some (VDict kv) -> dict_has k kv = true ->
  In q (find_key d k false).
Proof. intros Hg Hk. apply (lookup_complete k q d [] kv Hg Hk). Qed.

Lemma dict_has_set_present (k k' : string) (x y : value) (kv : dict) :
  dict_get k' kv = Some y -> dict_has k (dict_set k' x kv) = dict_has k kv.
Proof.
  intros H. unfold dict_has. rewrite dict_get_set.
  destruct (String.eqb k k') eqn:E; [|reflexivity].
  apply String.eqb_eq in E. subst. rewrite H. reflexivity.
Qed.

Lemma set_seg_has_key (d d' : value) (s : seg) (x y : value) (k : string) :
  get_seg d s = Some y -> set_seg d s x = Some d' ->
  has_key_at d' [] k = has_key_at d [] k.
Proof.
  destruct d as [| | | |l|kv], s as [k'|i]; simpl; try discriminate.
  - intros _. destruct (list_set l i x); [|discriminate].
    intros H; inversion H; reflexivity.
  - intros Hy H. inversion H; subst. unfold has_key_at. simpl.
    apply (dict_has_set_present _ _ _ _ _ Hy).
Qed.

(** A write below a position leaves the keys of the mapping there. *)
Lemma set_path_has_key (loc : location) :
  forall (d d' : value) (p : location) (x y : value) (k : string),
    is_prefix loc p = true -> loc <> p ->
    get_path d p = Some y -> set_path d p x = Some d' ->
    has_key_at d' loc k = has_key_at d loc k.
Proof.
  induction loc as [|t loc IH]; intros d d' p x y k Hpre Hne Hy Hset.
  - destruct p as [|s p]; [contradiction|].
    rewrite get_path_cons in Hy.
    destruct (get_seg d s) as [c|] eqn:Ec; [|discriminate].
    destruct p as [|s' p'].
    + simpl in Hset. apply (set_seg_has_key _ _ _ _ _ _ Ec Hset).
    + rewrite set_path_cons2, Ec in Hset.
      destruct (set_path c (s' :: p') x) as [c'|]; [|discriminate].
      apply (set_seg_has_key _ _ _ _ _ _ Ec Hset).
  - destruct p as [|s p]; [discriminate|]. simpl in Hpre.
    apply andb_true_iff in Hpre. destruct Hpre as [Hts Hpre].
    apply seg_eqb_spec in Hts. subst s.
    assert (Hne' : loc <> p) by congruence.
    rewrite get_path_cons in Hy.
    destruct (get_seg d t) as [c|] eqn:Ec; [|discriminate].
    destruct p as [|s' p'].
    + destruct loc; [contradiction|discriminate].
    + rewrite set_path_cons2, Ec in Hset.
      destruct (set_path c (s' :: p') x) as [c'|] eqn:Ec'; [|discriminate].
      unfold has_key_at. rewrite !get_path_cons.
      rewrite (get_set_seg_same _ _ _ _ Hset), Ec.
      apply (IH c c' (s' :: p') x y k Hpre Hne' Hy Ec').
Qed.

(** Well-formedness survives a write of a well-formed value. *)
Lemma dict_set_keys_nodup (k : string) (x : value) (kv : dict) :
  nodupb (keys kv) = true -> nodupb (keys (dict_set k x kv)) = true.
Proof.
  induction kv as [|[k0 v0] r IH]; simpl; intros H; [reflexivity|].
  apply andb_true_iff in H. destruct H as [H0 H1].
  destruct (String.eqb k k0) eqn:E; simpl.
  - apply String.eqb_eq in E. subst k0. rewrite H0, H1. reflexivity.
  - rewrite (IH H1), andb_true_r. apply negb_true_iff.
    apply negb_true_iff in H0.
    change (existsb (String.eqb k0) (keys (dict_set k x r)))
      with (mem k0 (keys (dict_set k x r))).
    rewrite mem_keys_get. unfold dict_has. rewrite dict_get_set.
    rewrite String.eqb_sym, E.
    change (existsb (String.eqb k0) (keys r)) with (mem k0 (keys r)) in H0.
    rewrite mem_keys_get in H0. exact H0.
Qed.

Lemma dict_set_wf (k : string) (x : value) (kv : dict) :
  wf_value (VDict kv) = true -> wf_value x = true ->
  wf_value (VDict (dict_set k x kv)) = true.
Proof.
  simpl. intros H Hx. apply andb_true_iff in H. destruct H as [Hnd Hall].
  rewrite (dict_set_keys_nodup _ _ _ Hnd). simpl.
  clear Hnd. induction kv as [|[k0 v0] r IH]; simpl.
  - rewrite Hx. reflexivity.
  - simpl in Hall. apply andb_true_iff in Hall. destruct Hall as [H0 H1].
    destruct (String.eqb k k0); simpl.
    + rewrite Hx, H1. reflexivity.
    + rewrite H0. apply IH. exact H1.
Qed.

Lemma list_set_wf (l l' : list value) (i : nat) (x : value) :
  forallb wf_value l = true -> wf_value x = true ->
  list_set l i x = Some l' -> forallb wf_value l' = true.
Proof.
  revert l' i. induction l as [|y r IH]; intros l' [|i]; simpl;
    try discriminate.
  - intros H Hx E. inversion E; subst. simpl.
    apply andb_true_iff in H. destruct H as [_ H]. rewrite Hx, H. reflexivity.
  - intros H Hx. apply andb_true_iff in H. destruct H as [H0 H1].
    destruct (list_set r i x) as [r'|] eqn:E; [|discriminate].
    intros E'. inversion E'; subst. simpl. rewrite H0. apply (IH _ _ H1 Hx E).
Qed.

Lemma set_seg_wf (d d' : value) (s : seg) (x : value) :
  wf_value d = true -> wf_value x = true ->
  set_seg d s x = Some d' -> wf_value d' = true.
Proof.
  destruct d as [| | | |l|kv], s as [k|i]; simpl set_seg; try discriminate.
  - intros H Hx. destruct (list_set l i x) as [l'|] eqn:E; [|discriminate].
    intros E'. inversion E'; subst. simpl. apply (list_set_wf _ _ _ _ H Hx E).
  - intros H Hx E. inversion E; subst. apply dict_set_wf; assumption.
Qed.

Lemma get_seg_wf (d c : value) (s : seg) :
  wf_value d = true -> get_seg d s = Some c -> wf_value c = true.
Proof.
  destruct d as [| | | |l|kv], s as [k|i]; simpl; try discriminate.
  - intros H E. rewrite forallb_forall in H. apply H.
    apply (nth_error_In _ _ E).
  - intros H E. apply andb_true_iff in H. destruct H as [_ H].
    rewrite forallb_forall in H. apply (H (k, c)). apply dict_get_in. exact E.
Qed.

Lemma set_path_wf (p : location) :
  forall d d' x, wf_value d = true -> wf_value x = true ->
                 set_path d p x = Some d' -> wf_value d' = true.
Proof.
  induction p as [|s p IH]; intros d d' x Hd Hx; [discriminate|].
  destruct p as [|s' p'].
  - simpl. apply set_seg_wf; assumption.
  - rewrite set_path_cons2. destruct (get_seg d s) as [c|] eqn:Ec; [|discriminate].
    destruct (set_path c (s' :: p') x) as [c'|] eqn:Ec'; [|discriminate].
    intros H. apply (set_seg_wf _ _ _ _ Hd) in H; [exact H|].
    apply (IH c c' x (get_seg_wf _ _ _ Hd Ec) Hx Ec').
Qed.

Lemma update_in_dictionary_wf (ups : list (location * value)) :
  forall d d', wf_value d = true ->
               (forall p x, In (p, x) ups -> wf_value x = true) ->
               update_in_dictionary d ups = Ok d' -> wf_value d' = true.
Proof.
  induction ups as [|[p x] r IH]; intros d d' Hd Hx; simpl.
  - intros H; inversion H; subst. exact Hd.
  - destruct (set_path d p x) as [d1|] eqn:E; simpl; [|discriminate].
    apply IH.
    + apply (set_path_wf p d d1 x Hd (Hx p x (or_introl eq_refl)) E).
    + intros q y Hq. apply (Hx q y). right. exact Hq.
Qed.

(* ================================================================= *)
(** ** Staging a document *)

Lemma combine_map_r (A B : Type) (f : A -> B) (l : list A) :
  combine l (map f l) = map (fun x => (x, f x)) l.
Proof.
  induction l as [|a r IH]; simpl; [reflexivity|]. rewrite IH. reflexivity.
Qed.

Lemma saved_objects_nodup (names : list string) (d : value) :
  NoDup (map fst (saved_objects names d)).
Proof.
  unfold saved_objects, assoc_of.
  apply (assign_all_nodup _ _ loc_eqb loc_eqb_spec). constructor.
Qed.

Lemma in_saved_objects (names : list string) (d : value) (p : location)
  (x : value) :
  In (p, x) (saved_objects names d) <->
  In p (saved_locations names d) /\ x = get d p.
Proof.
  rewrite (assoc_get_in _ _ loc_eqb loc_eqb_spec _ _ _
             (saved_objects_nodup names d)).
  unfold saved_objects, assoc_of.
  change (fold_left _ ?l []) with (assign_all loc_eqb l []).
  rewrite (assign_all_get _ _ loc_eqb loc_eqb_spec), combine_map_r.
  simpl assoc_get. split.
  - intros H. apply (last_set_some _ _ loc_eqb loc_eqb_spec) in H.
    destruct H as [H|H]; [discriminate|].
    apply in_map_iff in H. destruct H as [q [E Hq]]. inversion E; subst. auto.
  - intros [Hp ->].
    assert (Hin : In (p, get d p)
                    (map (fun x => (x, get d x)) (saved_locations names d))).
    { apply in_map_iff. exists p. auto. }
    destruct (last_set_in _ _ loc_eqb loc_eqb_spec _ _ _ None Hin) as [v Hv].
    rewrite Hv. f_equal.
    apply (last_set_some _ _ loc_eqb loc_eqb_spec) in Hv.
    destruct Hv as [Hv|Hv]; [discriminate|].
    apply in_map_iff in Hv. destruct Hv as [q [E Hq]]. inversion E; subst.
    reflexivity.
Qed.

Lemma blob_infos_slots (n : nat) (om : list (location * value)) :
  blob_infos n om = map (fun z => (fst (snd z), stub (fst z))) (slots n om).
Proof.
  unfold slots. revert n. induction om as [|[p o] r IH]; intros n; simpl;
    [reflexivity|].
  rewrite IH. reflexivity.
Qed.

Lemma slots_snd (n : nat) (om : list (location * value)) :
  map snd (slots n om) = om.
Proof.
  unfold slots. revert n. induction om as [|e r IH]; intros n; simpl;
    [reflexivity|].
  rewrite IH. reflexivity.
Qed.

Lemma slots_fst (n : nat) (om : list (location * value)) :
  map fst (slots n om) = seq n (List.length om).
Proof.
  unfold slots. revert n. induction om as [|e r IH]; intros n; simpl;
    [reflexivity|].
  rewrite IH. reflexivity.
Qed.

Lemma slots_range (n : nat) (om : list (location * value))
  (z : nat * (location * value)) :
  In z (slots n om) -> (n <= fst z < n + List.length om)%nat /\ In (snd z) om.
Proof.
  intros H. split.
  - apply in_seq. rewrite <- slots_fst. apply (in_map fst _ _ H).
  - rewrite <- (slots_snd n om) at 1. apply (in_map snd _ _ H).
Qed.

Lemma slots_fst_inj (n : nat) (om : list (location * value))
  (z z' : nat * (location * value)) :
  In z (slots n om) -> In z' (slots n om) -> fst z = fst z' -> z = z'.
Proof.
  destruct z as [j e0], z' as [j' e1]. unfold slots. revert n.
  induction om as [|e r IH]; intros n; simpl; [intros []|].
  intros [Hz|Hz] [Hz'|Hz'] E; simpl in *.
  - congruence.
  - inversion Hz; subst. apply in_combine_l in Hz'. apply in_seq in Hz'. lia.
  - inversion Hz'; subst. apply in_combine_l in Hz. apply in_seq in Hz. lia.
  - apply (IH (S n)); assumption.
Qed.

Lemma slots_loc_inj (n : nat) (om : list (location * value))
  (z z' : nat * (location * value)) :
  NoDup (map fst om) ->
  In z (slots n om) -> In z' (slots n om) ->
  fst (snd z) = fst (snd z') -> z = z'.
Proof.
  destruct z as [j e0], z' as [j' e1]. unfold slots. revert n.
  induction om as [|e r IH]; intros n Hnd; simpl; [intros []|].
  inversion Hnd as [|? ? Hn Hr]; subst.
  intros [Hz|Hz] [Hz'|Hz'] E; simpl in *.
  - congruence.
  - inversion Hz; subst. exfalso. apply Hn. rewrite E.
    apply in_combine_r in Hz'. apply (in_map fst _ _ Hz').
  - inversion Hz'; subst. exfalso. apply Hn. rewrite <- E.
    apply in_combine_r in Hz. apply (in_map fst _ _ Hz).
  - apply (IH (S n)); assumption.
Qed.

Lemma stage_unfold (names : list string) (n : nat) (d : value) :
  names <> [] ->
  stage names n d
  = (doc <- update_in_dictionary d (blob_infos n (saved_objects names d)) ;;
     blobs <- mapM (blob_record doc (blob_infos n (saved_objects names d)))
                (saved_objects names d) ;;
     Ok (doc, blobs, (n + List.length (saved_objects names d))%nat)).
Proof. destruct names as [|k r]; [contradiction|reflexivity]. Qed.

Lemma saved_valid (names : list string) (d : value) (p : location) :
  wf_value d = true -> In p (saved_locations names d) ->
  exists q name kv y,
    p = q ++ [Key name] /\ In name names
    /\ get_path d q = Some (VDict kv) /\ get_path d p = Some y.
Proof.
  intros Hwf Hp. unfold saved_locations in Hp. apply in_flat_map in Hp.
  destruct Hp as [name [Hname Hp]].
  destruct (find_key_sound d name true p Hwf Hp) as [q [kv [Hq [Hg Hk]]]].
  unfold end_of in Hq. unfold dict_has in Hk.
  destruct (dict_get name kv) as [y|] eqn:Ey; [|discriminate].
  exists q, name, kv, y. repeat split; try assumption.
  rewrite Hq, get_path_app, Hg. simpl. rewrite Ey. reflexivity.
Qed.

Lemma plain_identity_scalar (d : value) (k : string) :
  plain_identity d = true -> mem k ["uuid"; "index"] = true ->
  exists kv v, d = VDict kv /\ dict_get k kv = Some v /\ scalar v = true.
Proof.
  destruct d as [| | | | |kv]; simpl; try discriminate. intros H Hk.
  apply andb_true_iff in H. destruct H as [H Hall].
  apply andb_true_iff in H. destruct H as [Hu Hi].
  assert (Hhas : dict_has k kv = true).
  { unfold mem in Hk. simpl in Hk.
    destruct (String.eqb k "uuid") eqn:E1.
    - apply String.eqb_eq in E1. subst. exact Hu.
    - destruct (String.eqb k "index") eqn:E2; [|discriminate].
      apply String.eqb_eq in E2. subst. exact Hi. }
  unfold dict_has in Hhas. destruct (dict_get k kv) as [v|] eqn:Ev; [|discriminate].
  exists kv, v. split; [reflexivity|]. split; [exact Ev|].
  rewrite forallb_forall in Hall. specialize (Hall (k, v) (dict_get_in _ _ _ Ev)).
  simpl in Hall. rewrite Hk in Hall. exact Hall.
Qed.

(** No saved location passes through, or is, an identity field. *)
Lemma identity_apart (names : list string) (d : value) (k : string)
  (p : location) :
  wf_value d = true -> plain_identity d = true ->
  mem k ["uuid"; "index"] = true -> ~ In k names ->
  In p (saved_locations names d) -> apart p [Key k].
Proof.
  intros Hwf Hid Hk Hnot Hp.
  destruct (saved_valid names d p Hwf Hp) as [q [name [kv [y [-> [Hn [Hg _]]]]]]].
  destruct (plain_identity_scalar d k Hid Hk) as [kv0 [v [-> [Hv Hs]]]].
  assert (Hne : name <> k) by (intros ->; contradiction).
  destruct q as [|s q]; simpl.
  - split; simpl; rewrite andb_true_r.
    + apply String.eqb_neq. exact Hne.
    + apply String.eqb_neq. congruence.
  - split; simpl.
    + destruct (q ++ [Key name]) eqn:E; [destruct q; discriminate|].
      apply andb_false_r.
    + rewrite andb_true_r. destruct s as [k'|i]; [|reflexivity].
      apply String.eqb_neq. intros ->.
      rewrite get_path_cons in Hg. simpl in Hg. rewrite Hv in Hg.
      destruct v; try discriminate; destruct q; simpl in Hg; discriminate.
Qed.

Lemma mapM_map_total (A B C : Type) (f : B -> result C) (h : A -> B)
  (g : A -> C) (l : list A) :
  (forall z, In z l -> f (h z) = Ok (g z)) ->
  mapM f (map h l) = Ok (map g l).
Proof.
  induction l as [|x r IH]; intros H; simpl; [reflexivity|].
  rewrite (H x (or_introl eq_refl)). simpl.
  rewrite IH; [reflexivity|]. intros z Hz. apply H. right. exact Hz.
Qed.

Lemma field_of_path (d : value) (k : string) (v : value) :
  get_path d [Key k] = Some v -> field d k = v /\ getitem d k = Ok v.
Proof.
  simpl. unfold field. destruct (get_seg d (Key k)) as [c|] eqn:E; [|discriminate].
  intros H; inversion H; subst. split; [reflexivity|].
  destruct d; simpl in E; try discriminate. simpl. rewrite E. reflexivity.
Qed.

(** What [update] stages for a saveable document: the document with a
    fresh stub at every saved location and nothing else changed, and one
    blob for each of these locations. *)
Lemma stage_ok (names : list string) (n : nat) (d : value) :
  names <> [] -> saveable names d ->
  let om := saved_objects names d in
  exists d1,
    stage names n d
    = Ok (d1, map (mk_blob (field d "uuid") (field d "index")) (slots n om),
          (n + List.length om)%nat)
    /\ wf_value d1 = true
    /\ (forall z, In z (slots n om) ->
                  get_path d1 (fst (snd z)) = Some (stub (fst z)))
    /\ (forall q, (forall p, In p (saved_locations names d) -> apart p q) ->
                  get_path d1 q = get_path d q)
    /\ (forall loc k, (forall p, In p (saved_locations names d) ->
                                 is_prefix p loc = false) ->
                      has_key_at d1 loc k = has_key_at d loc k).
Proof.
  intros Hne [Hwf [Hid [Hnu [Hni Hap]]]] om.
  assert (Hkeys : forall p x, In (p, x) (blob_infos n om) ->
            In p (saved_locations names d)).
  { intros p x H. rewrite blob_infos_slots in H. apply in_map_iff in H.
    destruct H as [z [E Hz]]. inversion E; subst.
    destruct (slots_range _ _ _ Hz) as [_ Hin]. destruct (snd z) as [p o] eqn:Ez.
    apply (in_saved_objects names d p o). exact Hin. }
  assert (Hnd : NoDup (map fst (blob_infos n om))).
  { rewrite blob_infos_slots, map_map. simpl.
    rewrite <- (map_map snd fst), slots_snd. apply saved_objects_nodup. }
  (* the writes, with an invariant for the positions above them *)
  assert (Hw : forall ups d0,
             NoDup (map fst ups) ->
             (forall p x, In (p, x) ups ->
                In p (saved_locations names d)
                /\ exists y, get_path d0 p = Some y) ->
             exists d1,
               update_in_dictionary d0 ups = Ok d1
               /\ (forall p x, In (p, x) ups -> get_path d1 p = Some x)
               /\ (forall q, (forall p x, In (p, x) ups -> apart p q) ->
                             get_path d1 q = get_path d0 q)
               /\ (forall loc k, (forall p, In p (saved_locations names d) ->
                                            is_prefix p loc = false) ->
                                 has_key_at d1 loc k = has_key_at d0 loc k)).
  { induction ups as [|[p x] r IH]; intros d0 Hn Hv.
    - exists d0. simpl. repeat split; auto. intros p x [].
    - inversion Hn as [|? ? Hnotin Hn']; subst.
      destruct (Hv p x (or_introl eq_refl)) as [Hp [y Hy]].
      assert (Hpne : p <> []).
      { destruct (saved_valid names d p Hwf Hp) as [q [nm [kv [y0 [-> _]]]]].
        destruct q; discriminate. }
      destruct (set_path_defined p d0 x y Hpne Hy) as [d2 Hd2].
      assert (Hapr : forall q z, In (q, z) r -> apart p q).
      { intros q z Hq. destruct (Hv q z (or_intror Hq)) as [Hq' _].
        destruct (Hap p q Hp Hq') as [->|H]; [|exact H].
        exfalso. apply Hnotin. apply (in_map fst _ _ Hq). }
      destruct (IH d2 Hn') as [d1 [Hup [Hin [Hout Hkey]]]].
      { intros q z Hq. destruct (Hv q z (or_intror Hq)) as [Hq' [w Hw]].
        split; [exact Hq'|]. exists w.
        rewrite (get_set_apart _ _ _ _ _ Hd2 (Hapr q z Hq)). exact Hw. }
      exists d1. simpl. rewrite Hd2. simpl. split; [exact Hup|].
      split; [|split].
      + intros q z [Hq|Hq]; [|apply (Hin _ _ Hq)].
        inversion Hq; subst. rewrite Hout.
        * apply (get_set_same _ _ _ _ Hd2).
        * intros p' x' Hp'. apply apart_sym. apply (Hapr p' x' Hp').
      + intros q Hq. rewrite Hout.
        * apply (get_set_apart _ _ _ _ _ Hd2). apply (Hq p x). left. reflexivity.
        * intros p' x' Hp'. apply (Hq p' x'). right. exact Hp'.
      + intros loc k Hloc. rewrite (Hkey loc k Hloc).
        destruct (is_prefix loc p) eqn:Elp.
        * apply (set_path_has_key loc d0 d2 p x y k Elp); try assumption.
          intros ->. specialize (Hloc p Hp).
          assert (Hrefl : forall l, is_prefix l l = true).
          { induction l as [|s l IHl]; simpl; [reflexivity|].
            rewrite (proj2 (seg_eqb_spec s s) eq_refl). exact IHl. }
          rewrite Hrefl in Hloc. discriminate.
        * unfold has_key_at.
          rewrite (get_set_apart _ _ _ _ loc Hd2); [reflexivity|].
          split; [apply Hloc; exact Hp|exact Elp]. }
  destruct (Hw (blob_infos n om) d Hnd) as [d1 [Hup [Hin [Hout Hkey]]]].
  { intros p x H. pose proof (Hkeys p x H) as Hp. split; [exact Hp|].
    destruct (saved_valid names d p Hwf Hp) as [q [nm [kv [y [_ [_ [_ Hy]]]]]]].
    exists y. exact Hy. }
  assert (Hout' : forall q, (forall p, In p (saved_locations names d) -> apart p q) ->
                            get_path d1 q = get_path d q).
  { intros q Hq. apply Hout. intros p x H. apply Hq. apply (Hkeys p x H). }
  assert (Hfield : forall k, mem k ["uuid"; "index"] = true -> ~ In k names ->
                             getitem d1 k = Ok (field d k)).
  { intros k Hk Hnot.
    destruct (plain_identity_scalar d k Hid Hk) as [kv [v [Hd [Hv _]]]].
    assert (Hg : get_path d1 [Key k] = Some v).
    { rewrite Hout'.
      - subst d. simpl. rewrite Hv. reflexivity.
      - intros p Hp. apply (identity_apart names d k p); assumption. }
    destruct (field_of_path d1 k v Hg) as [_ Hgi]. rewrite Hgi.
    unfold field. subst d. simpl. rewrite Hv. reflexivity. }
  exists d1. split; [|split; [|split; [|split; [exact Hout'|exact Hkey]]]].
  - assert (Hm : mapM (blob_record d1 (blob_infos n om)) om
                 = Ok (map (mk_blob (field d "uuid") (field d "index"))
                         (slots n om))).
    { transitivity (mapM (blob_record d1 (blob_infos n om))
                      (map snd (slots n om)));
        [rewrite slots_snd; reflexivity|].
      apply mapM_map_total.
      intros z Hz. unfold blob_record.
      assert (Ha : assoc_get loc_eqb (fst (snd z)) (blob_infos n om)
                   = Some (stub (fst z))).
      { apply (assoc_get_in _ _ loc_eqb loc_eqb_spec _ _ _ Hnd).
        rewrite blob_infos_slots. apply in_map_iff. exists z. auto. }
      rewrite Ha. simpl bind.
      rewrite (Hfield "uuid" eq_refl Hnu), (Hfield "index" eq_refl Hni).
      reflexivity. }
    rewrite (stage_unfold names n d Hne). fold om. rewrite Hup. simpl bind.
    rewrite Hm. reflexivity.
  - apply (update_in_dictionary_wf (blob_infos n om) d d1 Hwf); [|exact Hup].
    intros p x H. rewrite blob_infos_slots in H. apply in_map_iff in H.
    destruct H as [z [E _]]. inversion E. reflexivity.
  - intros z Hz. apply Hin. rewrite blob_infos_slots. apply in_map_iff.
    exists z. auto.
Qed.

(* ================================================================= *)
(** ** Upserts *)

Lemma scalar_matches (v w : value) :
  scalar w = true -> field_matches v (Some w) = value_eqb w v.
Proof. destruct w; simpl; try reflexivity; discriminate. Qed.

Lemma ident_eq_field (kf : list string) (d e : value) (k : string) :
  ident kf e = ident kf d -> In k kf -> field e k = field d k.
Proof.
  unfold ident. induction kf as [|k0 r IH]; simpl; intros E Hk; [destruct Hk|].
  inversion E. destruct Hk as [<-|Hk]; [assumption|]. apply IH; assumption.
Qed.

Lemma matches_ident (kf : list string) (d e : value) :
  plain_on kf e ->
  (matches (ident kf d) e = true <-> ident kf e = ident kf d).
Proof.
  unfold matches, ident. intros He. rewrite forallb_forall. split.
  - intros H. apply map_ext_in. intros k Hk.
    destruct (He k Hk) as [v [Hv Hs]].
    specialize (H (k, CEq (field d k))). simpl in H.
    rewrite Hv, (scalar_matches _ _ Hs) in H.
    assert (E : value_eqb v (field d k) = true).
    { apply H. apply in_map_iff. exists k. auto. }
    apply value_eqb_eq in E. unfold field at 1. rewrite Hv, E. reflexivity.
  - intros E [k c] Hin. apply in_map_iff in Hin. destruct Hin as [k' [E' Hk]].
    inversion E'; subst. simpl. destruct (He k Hk) as [v [Hv Hs]].
    rewrite Hv, (scalar_matches _ _ Hs). apply value_eqb_spec.
    pose proof (ident_eq_field kf d e k E Hk) as Ef.
    unfold field in Ef at 1. rewrite Hv in Ef. exact Ef.
Qed.

Lemma search_doc_ident (kf : list string) (d : value) :
  (forall k, In k kf -> getitem d k = Ok (field d k)) ->
  search_doc kf d = Ok (ident kf d).
Proof.
  intros H. unfold search_doc, ident. apply mapM_total. intros k Hk.
  rewrite (H k Hk). reflexivity.
Qed.

Lemma fold_left_map (A B C : Type) (f : A -> B -> A) (g : C -> B)
  (l : list C) (a : A) :
  fold_left f (map g l) a = fold_left (fun acc x => f acc (g x)) l a.
Proof.
  revert a. induction l as [|x r IH]; intros a; simpl; [reflexivity|]. apply IH.
Qed.

Lemma coll_update_upserts (c : collection) (ds : list value)
  (k : option (list string)) :
  let kf := match k with Some l => l | None => [key c] end in
  (forall d j, In d ds -> In j kf -> getitem d j = Ok (field d j)) ->
  coll_update c ds k
  = Ok {| key := key c; records := upsert_all kf ds (records c) |}.
Proof.
  intros kf H. unfold coll_update. fold kf.
  rewrite (mapM_total _ _ _ (fun d => (ident kf d, d))).
  - simpl. unfold upsert_all. rewrite fold_left_map. reflexivity.
  - intros d Hd. rewrite search_doc_ident; [reflexivity|].
    intros j Hj. apply (H d j Hd Hj).
Qed.

Lemma replace_one_in (c : criteria) (d : value) (recs : list value) :
  In d (replace_one c d recs).
Proof.
  induction recs as [|r rest IH]; simpl; [left; reflexivity|].
  destruct (matches c r); [left; reflexivity|right; exact IH].
Qed.

Lemma carried_step (kf : list string) (d : value) (recs : list value)
  (c : criteria) :
  plain_on kf d -> carried kf recs c ->
  carried kf (replace_one (ident kf d) d recs) c.
Proof.
  intros Hd [r [Hr [Hp Hc]]]. induction recs as [|r0 rest IH]; [destruct Hr|].
  simpl. destruct (matches (ident kf d) r0) eqn:E.
  - destruct Hr as [->|Hr].
    + exists d. split; [left; reflexivity|]. split; [exact Hd|].
      apply (matches_ident kf d r Hp) in E. congruence.
    + exists r. split; [right; exact Hr|]. auto.
  - destruct Hr as [->|Hr].
    + exists r. split; [left; reflexivity|]. auto.
    + destruct (IH Hr) as [r' [Hr' H]]. exists r'. split; [right; exact Hr'|exact H].
Qed.

Lemma carried_self (kf : list string) (d : value) (recs : list value) :
  plain_on kf d -> carried kf (replace_one (ident kf d) d recs) (ident kf d).
Proof.
  intros Hd. exists d. split; [apply replace_one_in|]. auto.
Qed.

Lemma replace_one_length (c : criteria) (d : value) (recs : list value) :
  (exists r, In r recs /\ matches c r = true) ->
  List.length (replace_one c d recs) = List.length recs.
Proof.
  intros [r [Hr Hm]]. induction recs as [|r0 rest IH]; [destruct Hr|].
  simpl. destruct (matches c r0) eqn:E; [reflexivity|].
  simpl. f_equal. apply IH. destruct Hr as [->|Hr]; [congruence|exact Hr].
Qed.

Lemma upsert_all_carried (kf : list string) (ds : list value) :
  (forall d, In d ds -> plain_on kf d) ->
  forall recs,
    (forall d, In d ds -> carried kf (upsert_all kf ds recs) (ident kf d))
    /\ (forall c, carried kf recs c -> carried kf (upsert_all kf ds recs) c).
Proof.
  induction ds as [|d r IH]; intros Hp recs; simpl.
  - split; [intros d []|auto].
  - assert (Hr : forall e, In e r -> plain_on kf e)
      by (intros e He; apply Hp; right; exact He).
    destruct (IH Hr (replace_one (ident kf d) d recs)) as [H1 H2].
    split.
    + intros e [<-|He]; [|apply H1; exact He].
      apply H2. apply carried_self. apply Hp. left. reflexivity.
    + intros c Hc. apply H2. apply carried_step; [|exact Hc].
      apply Hp. left. reflexivity.
Qed.

(** Upserts of identities that the collection carries already add no
    record. *)
Lemma upsert_all_length (kf : list string) (ds : list value) :
  forall recs,
    (forall d, In d ds -> plain_on kf d /\ carried kf recs (ident kf d)) ->
    List.length (upsert_all kf ds recs) = List.length recs.
Proof.
  induction ds as [|d r IH]; intros recs H; simpl; [reflexivity|].
  destruct (H d (or_introl eq_refl)) as [Hd [r0 [Hr0 [Hp0 Hc0]]]].
  rewrite IH.
  - apply replace_one_length. exists r0. split; [exact Hr0|].
    apply (matches_ident kf d r0 Hp0). exact Hc0.
  - intros e He. destruct (H e (or_intror He)) as [Hpe Hce].
    split; [exact Hpe|]. apply carried_step; assumption.
Qed.

(** *** Fresh identifiers *)

Lemma suuid_inj (a b : nat) : suuid a = suuid b -> a = b.
Proof.
  unfold suuid. intros H.
  apply (f_equal DecimalString.NilEmpty.uint_of_string) in H.
  rewrite !DecimalString.NilEmpty.usu in H. inversion H as [E].
  apply (f_equal Nat.of_uint) in E.
  rewrite !DecimalNat.Unsigned.of_to in E. exact E.
Qed.

Lemma minted_app (n : nat) (b1 b2 : list value) :
  minted n b1 -> minted (n + List.length b1) b2 -> minted n (b1 ++ b2).
Proof.
  intros [H1 W1] [H2 W2]. split.
  - rewrite map_app, length_app, seq_app, map_app, H1, H2. reflexivity.
  - intros b Hb. apply in_app_iff in Hb. destruct Hb; auto.
Qed.

Lemma minted_nil (n : nat) : minted n [].
Proof. split; [reflexivity|intros b []]. Qed.

Lemma minted_slots (n : nat) (om : list (location * value)) (u i : value) :
  minted n (map (mk_blob u i) (slots n om)).
Proof.
  split.
  - rewrite length_map, map_map.
    replace (List.length (slots n om)) with (List.length om)
      by (rewrite <- (slots_snd n om) at 1; apply length_map).
    rewrite <- (slots_fst n om), map_map. reflexivity.
  - intros b Hb. apply in_map_iff in Hb. destruct Hb as [z [<- _]]. reflexivity.
Qed.

Lemma replace_one_append (c : criteria) (d : value) (recs : list value) :
  (forall r, In r recs -> matches c r = false) ->
  replace_one c d recs = recs ++ [d].
Proof.
  induction recs as [|r rest IH]; intros H; simpl; [reflexivity|].
  rewrite (H r (or_introl eq_refl)), IH; [reflexivity|].
  intros r' Hr'. apply H. right. exact Hr'.
Qed.

Lemma blob_ident (b : value) :
  ident ["blob_uuid"] b = [("blob_uuid", CEq (blob_id b))].
Proof. reflexivity. Qed.

(** Blobs with fresh identifiers are all added to the collection. *)
Lemma upsert_minted (blobs : list value) :
  forall n recs,
    minted n blobs -> fresh recs n ->
    upsert_all ["blob_uuid"] blobs recs = recs ++ blobs
    /\ fresh (recs ++ blobs) (n + List.length blobs).
Proof.
  induction blobs as [|b r IH]; intros n recs [Hid Hwf] Hf.
  - simpl. rewrite app_nil_r, Nat.add_0_r. split; [reflexivity|exact Hf].
  - simpl in Hid. inversion Hid as [[Hb Hr]].
    assert (Hm : minted (S n) r).
    { split; [exact Hr|]. intros b' Hb'. apply Hwf. right. exact Hb'. }
    assert (Hf1 : fresh (recs ++ [b]) (S n)).
    { intros r0 m Hr0 Hm0. apply in_app_iff in Hr0.
      destruct Hr0 as [Hr0|[<-|[]]].
      - apply Hf; [exact Hr0|lia].
      - destruct (is_blob_inv b (Hwf b (or_introl eq_refl)))
          as [kv [s [x [-> [Hs _]]]]].
        unfold blob_id, field in Hb. simpl in Hb. rewrite Hs in Hb.
        inversion Hb; subst. unfold matches. simpl. rewrite Hs. simpl.
        rewrite andb_true_r. apply String.eqb_neq. intros E.
        apply suuid_inj in E. lia. }
    destruct (IH (S n) (recs ++ [b]) Hm Hf1) as [Hup Hfresh].
    change (upsert_all ["blob_uuid"] (b :: r) recs)
      with (upsert_all ["blob_uuid"] r
              (replace_one (ident ["blob_uuid"] b) b recs)).
    rewrite blob_ident, Hb.
    rewrite replace_one_append by (intros r0 Hr0; apply Hf; [exact Hr0|lia]).
    rewrite Hup, <- app_assoc. simpl. split; [reflexivity|].
    rewrite <- app_assoc in Hfresh. simpl in Hfresh.
    replace (n + S (List.length r))%nat with (S n + List.length r)%nat by lia.
    exact Hfresh.
Qed.

Lemma coll_update_blobs (c : collection) (blobs : list value) (n : nat) :
  minted n blobs -> fresh (records c) n ->
  coll_update c blobs (Some ["blob_uuid"])
  = Ok {| key := key c; records := records c ++ blobs |}
  /\ fresh (records c ++ blobs) (n + List.length blobs).
Proof.
  intros Hm Hf. destruct (upsert_minted blobs n (records c) Hm Hf) as [Hup Hfr].
  split; [|exact Hfr].
  rewrite coll_update_upserts; [rewrite Hup; reflexivity|].
  intros b j Hb [<-|[]]. destruct Hm as [_ Hwf].
  destruct (is_blob_inv b (Hwf b Hb)) as [kv [s [x [-> [Hs _]]]]].
  unfold field. simpl. rewrite Hs. reflexivity.
Qed.

(* ================================================================= *)
(** ** Updates *)

Lemma stage_identity (names : list string) (n : nat) (d : value) :
  names <> [] -> saveable names d ->
  exists d1,
    stage names n d
    = Ok (d1, map (mk_blob (field d "uuid") (field d "index"))
                (slots n (saved_objects names d)),
          (n + List.length (saved_objects names d))%nat)
    /\ kept_identity d d1.
Proof.
  intros Hne Hs. destruct (stage_ok names n d Hne Hs) as [d1 [Hst [_ [_ [Hout _]]]]].
  exists d1. split; [exact Hst|].
  destruct Hs as [Hwf [Hid [Hnu [Hni _]]]].
  intros k Hk. destruct (plain_identity_scalar d k Hid Hk) as [kv [v [Hd [Hv Hsc]]]].
  assert (Hf : field d k = v) by (subst d; unfold field; simpl; rewrite Hv; reflexivity).
  rewrite Hf. split; [|exact Hsc].
  assert (Hnot : ~ In k names).
  { unfold mem in Hk. simpl in Hk.
    destruct (String.eqb k "uuid") eqn:E1.
    - apply String.eqb_eq in E1. subst. exact Hnu.
    - destruct (String.eqb k "index") eqn:E2; [|discriminate].
      apply String.eqb_eq in E2. subst. exact Hni. }
  assert (Hg : get_path d1 [Key k] = Some v).
  { rewrite Hout.
    - subst d. simpl. rewrite Hv. reflexivity.
    - intros p Hp. apply (identity_apart names d k p); assumption. }
  simpl in Hg. destruct (get_seg d1 (Key k)); [exact Hg|discriminate].
Qed.

Lemma stage_all_ok (names : list string) (batch : list value) :
  names <> [] -> (forall d, In d batch -> saveable names d) ->
  forall n, exists ds blobs,
    stage_all names n batch = Ok (ds, blobs, (n + List.length blobs)%nat)
    /\ List.length blobs = offload_count names batch
    /\ minted n blobs
    /\ Forall2 kept_identity batch ds.
Proof.
  intros Hne. induction batch as [|d r IH]; intros Hs n.
  - exists [], []. simpl. rewrite Nat.add_0_r.
    split; [reflexivity|]. split; [reflexivity|].
    split; [apply minted_nil|constructor].
  - destruct (stage_identity names n d Hne (Hs d (or_introl eq_refl)))
      as [d1 [Hst Hid]].
    set (b1 := map (mk_blob (field d "uuid") (field d "index"))
                 (slots n (saved_objects names d))) in *.
    assert (Hlen : List.length b1 = List.length (saved_objects names d)).
    { unfold b1. rewrite length_map.
      rewrite <- (slots_snd n (saved_objects names d)) at 2.
      symmetry. apply length_map. }
    destruct (IH (fun e He => Hs e (or_intror He)) (n + List.length b1)%nat)
      as [ds [b2 [Hall [Hcount [Hm HF]]]]].
    exists (d1 :: ds), (b1 ++ b2). simpl stage_all. rewrite Hst. simpl bind.
    rewrite <- Hlen, Hall. simpl bind. rewrite length_app, Nat.add_assoc.
    split; [reflexivity|]. split; [|split].
    + unfold offload_count in *. simpl. rewrite <- Hcount, Hlen. reflexivity.
    + apply minted_app; [apply minted_slots|exact Hm].
    + constructor; assumption.
Qed.

Lemma Forall2_in_r (A B : Type) (R : A -> B -> Prop) (l : list A)
  (l' : list B) :
  Forall2 R l l' -> forall y, In y l' -> exists x, In x l /\ R x y.
Proof.
  induction 1 as [|a b r r' Hab _ IH]; intros y Hy; [destruct Hy|].
  destruct Hy as [<-|Hy].
  - exists a. split; [left; reflexivity|exact Hab].
  - destruct (IH y Hy) as [x [Hx HR]]. exists x. split; [right; exact Hx|exact HR].
Qed.

Lemma Forall2_in_l (A B : Type) (R : A -> B -> Prop) (l : list A)
  (l' : list B) :
  Forall2 R l l' -> forall x, In x l -> exists y, In y l' /\ R x y.
Proof.
  induction 1 as [|a b r r' Hab _ IH]; intros x Hx; [destruct Hx|].
  destruct Hx as [<-|Hx].
  - exists b. split; [left; reflexivity|exact Hab].
  - destruct (IH x Hx) as [y [Hy HR]]. exists y. split; [right; exact Hy|exact HR].
Qed.

Lemma kept_identity_getitem (d d1 : value) (k : string) :
  kept_identity d d1 -> mem k ["uuid"; "index"] = true ->
  getitem d1 k = Ok (field d1 k) /\ field d1 k = field d k.
Proof.
  intros H Hk. destruct (H k Hk) as [Hg _].
  assert (Hf : field d1 k = field d k)
    by (unfold field at 1; rewrite Hg; reflexivity).
  split; [|exact Hf]. rewrite Hf.
  destruct d1; simpl in Hg; try discriminate. simpl. rewrite Hg. reflexivity.
Qed.

Lemma key_fields_identity (st : JobStore) (k : option (list string)) (j : string) :
  key (docs_store st) = "uuid" -> In j (key_fields st k) ->
  mem j ["uuid"; "index"] = true.
Proof.
  intros Hkey. unfold key_fields. destruct k; rewrite ?Hkey; simpl;
    intros H; repeat (destruct H as [<-|H]; [reflexivity|]); destruct H.
Qed.

(** A call of [update] on saveable documents, in a store whose blob
    collection holds no identifier that is still to be minted. *)
Lemma update_ok (st : JobStore) (batch : list value)
  (k : option (list string)) (sv : save_arg) :
  key (docs_store st) = "uuid" ->
  save_names st sv <> [] ->
  (forall d, In d batch -> saveable (save_names st sv) d) ->
  fresh (records (data_store st)) (next_uuid st) ->
  exists ds blobs,
    update st (ManyDocs batch) k sv
    = Ok {| docs_store :=
              {| key := key (docs_store st);
                 records := upsert_all (key_fields st k) ds
                              (records (docs_store st)) |};
            data_store :=
              {| key := key (data_store st);
                 records := records (data_store st) ++ blobs |};
            save := save st; load := load st;
            next_uuid := (next_uuid st + List.length blobs)%nat |}
    /\ List.length blobs = offload_count (save_names st sv) batch
    /\ minted (next_uuid st) blobs
    /\ fresh (records (data_store st) ++ blobs)
         (next_uuid st + List.length blobs)
    /\ Forall2 kept_identity batch ds
    /\ stage_all (save_names st sv) (next_uuid st) batch
       = Ok (ds, blobs, (next_uuid st + List.length blobs)%nat).
Proof.
  intros Hkey Hne Hs Hf.
  destruct (stage_all_ok (save_names st sv) batch Hne Hs (next_uuid st))
    as [ds [blobs [Hall [Hcount [Hm HF]]]]].
  destruct (coll_update_blobs (data_store st) blobs (next_uuid st) Hm Hf)
    as [Hdata Hfresh].
  exists ds, blobs. split; [|repeat split; try assumption; apply Hm].
  unfold update. fold (save_names st sv). rewrite Hall. simpl bind.
  assert (Hk : match k with
               | Some _ => Some ["uuid"; "index"]
               | None => None
               end = match k with
                     | Some _ => Some (key_fields st k)
                     | None => None
                     end) by (destruct k; reflexivity).
  rewrite Hk. rewrite coll_update_upserts.
  - simpl bind. destruct (save_names st sv) as [|nm nms]; [contradiction|].
    rewrite Hdata. simpl bind. destruct k; reflexivity.
  - intros d1 j Hd1 Hj.
    assert (Hj' : In j (key_fields st k)) by (destruct k; simpl in Hj; exact Hj).
    destruct (Forall2_in_r _ _ _ _ _ HF d1 Hd1) as [d [_ Hid]].
    apply (kept_identity_getitem d d1 j Hid).
    apply (key_fields_identity st k j Hkey Hj').
Qed.

(** *** One record for each identity *)

Lemma in_replace_one (c : criteria) (d x : value) (recs : list value) :
  In x (replace_one c d recs) -> x = d \/ In x recs.
Proof.
  induction recs as [|r rest IH]; simpl.
  - intros [<-|[]]. left. reflexivity.
  - destruct (matches c r).
    + intros [<-|H]; [left; reflexivity|right; right; exact H].
    + intros [<-|H]; [right; left; reflexivity|].
      destruct (IH H) as [->|H']; [left; reflexivity|right; right; exact H'].
Qed.

Lemma replace_one_distinct (kf : list string) (d : value) (recs : list value) :
  plain_on kf d -> distinct_ids kf recs ->
  distinct_ids kf (replace_one (ident kf d) d recs).
Proof.
  intros Hd [Hnd Hp]. split.
  - induction recs as [|r rest IH]; simpl.
    + constructor; [intros []|constructor].
    + simpl in Hnd. inversion Hnd as [|? ? Hn Hr]; subst.
      destruct (matches (ident kf d) r) eqn:E.
      * apply (matches_ident kf d r (Hp r (or_introl eq_refl))) in E.
        simpl. rewrite <- E. exact Hnd.
      * simpl. constructor.
        -- intros Hin. apply in_map_iff in Hin. destruct Hin as [x [Ex Hx]].
           apply in_replace_one in Hx. destruct Hx as [->|Hx].
           ++ assert (Hm : matches (ident kf d) r = true)
                by (apply (matches_ident kf d r (Hp r (or_introl eq_refl)));
                    congruence).
              congruence.
           ++ apply Hn. rewrite <- Ex. apply (in_map (ident kf) _ _ Hx).
        -- apply IH; [exact Hr|]. intros x Hx. apply Hp. right. exact Hx.
  - intros x Hx. apply in_replace_one in Hx. destruct Hx as [->|Hx]; auto.
Qed.

Lemma upsert_all_distinct (kf : list string) (ds : list value) :
  (forall d, In d ds -> plain_on kf d) ->
  forall recs, distinct_ids kf recs -> distinct_ids kf (upsert_all kf ds recs).
Proof.
  induction ds as [|d r IH]; intros Hp recs H; simpl; [exact H|].
  apply IH; [intros e He; apply Hp; right; exact He|].
  apply replace_one_distinct; [apply Hp; left; reflexivity|exact H].
Qed.

Lemma kept_identity_plain (st : JobStore) (k : option (list string))
  (d d1 : value) :
  key (docs_store st) = "uuid" -> kept_identity d d1 ->
  plain_on (key_fields st k) d1
  /\ ident (key_fields st k) d1 = ident (key_fields st k) d.
Proof.
  intros Hkey Hid. split.
  - intros j Hj. destruct (Hid j (key_fields_identity st k j Hkey Hj)) as [Hg Hs].
    exists (field d j). auto.
  - unfold ident. apply map_ext_in. intros j Hj. f_equal. f_equal.
    apply (kept_identity_getitem d d1 j Hid).
    apply (key_fields_identity st k j Hkey Hj).
Qed.




(* ================================================================= *)
(** ** Writing and reading back *)

Lemma last_set_found (K V : Type) (eqb : K -> K -> bool)
  (eqb_spec : forall a b, eqb a b = true <-> a = b)
  (k : K) (v : V) (pairs : list (K * V)) (start : option V) :
  In (k, v) pairs ->
  exists v', last_set eqb k pairs start = Some v' /\ In (k, v') pairs.
Proof.
  revert start. induction pairs as [|[k' w] r IH]; intros start; [intros []|].
  intros [Hin|Hin].
  - inversion Hin; subst. simpl.
    rewrite (proj2 (eqb_spec k k) eq_refl).
    destruct (last_set_from_some _ _ eqb k r v) as [v' Hv']. exists v'.
    split; [exact Hv'|].
    destruct (last_set_some _ _ eqb eqb_spec k r (Some v) v' Hv') as [E|Hr].
    + inversion E; subst. left. reflexivity.
    + right. exact Hr.
  - destruct (IH (if eqb k k' then Some w else start) Hin) as [v' [Hv' Hr]].
    exists v'. split; [exact Hv'|right; exact Hr].
Qed.

Lemma last_set_app (K V : Type) (eqb : K -> K -> bool) (k : K)
  (l1 l2 : list (K * V)) (start : option V) :
  last_set eqb k (l1 ++ l2) start = last_set eqb k l2 (last_set eqb k l1 start).
Proof. unfold last_set. apply fold_left_app. Qed.

Lemma is_prefix_app (p loc : location) :
  is_prefix p loc = true -> exists rest, loc = p ++ rest.
Proof.
  revert loc. induction p as [|s p IH]; intros loc; simpl.
  - intros _. exists loc. reflexivity.
  - destruct loc as [|t loc]; [discriminate|]. intros H.
    apply andb_true_iff in H. destruct H as [Hs Hp].
    apply seg_eqb_spec in Hs. subst t. destruct (IH loc Hp) as [rest ->].
    exists rest. reflexivity.
Qed.

Lemma stub_inner (j : nat) (s : seg) (rest : location) (kv : dict) :
  get_path (stub j) (s :: rest) <> Some (VDict kv).
Proof.
  unfold stub. rewrite get_path_cons. destruct s as [k|i]; simpl; [|discriminate].
  destruct (String.eqb k "@class"); [destruct rest; simpl; discriminate|].
  destruct (String.eqb k "@module"); [destruct rest; simpl; discriminate|].
  destruct (String.eqb k "blob_uuid"); [destruct rest; simpl; discriminate|].
  discriminate.
Qed.

Lemma in_slots_of_loc (n : nat) (names : list string) (d : value)
  (p : location) :
  In p (saved_locations names d) ->
  exists z, In z (slots n (saved_objects names d)) /\ snd z = (p, get d p).
Proof.
  intros Hp.
  assert (Hin : In (p, get d p) (saved_objects names d))
    by (apply in_saved_objects; auto).
  rewrite <- (slots_snd n (saved_objects names d)) in Hin.
  apply in_map_iff in Hin. destruct Hin as [z [E Hz]]. exists z. auto.
Qed.

Lemma exists_prefix_dec (l : list location) (loc : location) :
  (exists p, In p l /\ is_prefix p loc = true)
  \/ (forall p, In p l -> is_prefix p loc = false).
Proof.
  induction l as [|p r IH].
  - right. intros p [].
  - destruct (is_prefix p loc) eqn:E.
    + left. exists p. split; [left; reflexivity|exact E].
    + destruct IH as [[q [Hq Hpre]]|IH].
      * left. exists q. split; [right; exact Hq|exact Hpre].
      * right. intros q [<-|Hq]; [exact E|apply IH; exact Hq].
Qed.

Section Staged.
Variable names : list string.
Variable n : nat.
Variable d d1 : value.

Let om := saved_objects names d.

Hypothesis d_saveable : saveable names d.
Hypothesis d_plain : find_key d "blob_uuid" false = [].
Hypothesis d1_wf : wf_value d1 = true.
Hypothesis d1_stubs :
  forall z, In z (slots n om) -> get_path d1 (fst (snd z)) = Some (stub (fst z)).
Hypothesis d1_keys :
  forall loc k, (forall p, In p (saved_locations names d) ->
                           is_prefix p loc = false) ->
                has_key_at d1 loc k = has_key_at d loc k.

(** The stubs of the staged document are at the saved locations, and
    nowhere else. *)
Lemma staged_stubs (loc : location) :
  In loc (find_key d1 "blob_uuid" false) <->
  exists z, In z (slots n om) /\ loc = fst (snd z).
Proof.
  split.
  - intros Hloc.
    destruct (find_key_sound d1 _ _ loc d1_wf Hloc) as [q [kv [Hq [Hg Hk]]]].
    unfold end_of in Hq. rewrite app_nil_r in Hq. subst q.
    destruct (exists_prefix_dec (saved_locations names d) loc)
      as [[p [Hp Hpre]]|Hnone].
    + destruct (in_slots_of_loc n names d p Hp) as [z [Hz Ez]].
      exists z. split; [exact Hz|]. rewrite Ez. simpl.
      destruct (is_prefix_app p loc Hpre) as [rest ->].
      destruct rest as [|s rest]; [apply app_nil_r|]. exfalso.
      rewrite get_path_app in Hg. pose proof (d1_stubs z Hz) as Hst.
      rewrite Ez in Hst. simpl in Hst. rewrite Hst in Hg.
      apply (stub_inner _ _ _ _ Hg).
    + exfalso. pose proof (d1_keys loc "blob_uuid" Hnone) as Hkeys.
      unfold has_key_at in Hkeys. rewrite Hg, Hk in Hkeys.
      destruct (get_path d loc) as [[| | | | |kv0]|] eqn:Ed; try discriminate.
      pose proof (find_key_complete d "blob_uuid" loc kv0 Ed (eq_sym Hkeys)) as Hin.
      rewrite d_plain in Hin. destruct Hin.
  - intros [z [Hz ->]].
    apply (find_key_complete d1 "blob_uuid" _ _ (d1_stubs z Hz)). reflexivity.
Qed.
End Staged.

Lemma filter_replace_one (f : value -> bool) (c : criteria) (d : value)
  (recs : list value) :
  (forall r, In r recs -> f r = false) -> f d = true ->
  filter f (replace_one c d recs) = [d].
Proof.
  intros Hr Hd. induction recs as [|r rest IH]; simpl.
  - rewrite Hd. reflexivity.
  - destruct (matches c r); simpl.
    + rewrite Hd. rewrite filter_none; [reflexivity|].
      intros x Hx. apply Hr. right. exact Hx.
    + rewrite (Hr r (or_introl eq_refl)). apply IH.
      intros x Hx. apply Hr. right. exact Hx.
Qed.

Lemma coll_query_plain (c : collection) (crit : criteria) :
  coll_query c crit None None 0 0 = Ok (filter (matches crit) (records c)).
Proof. unfold coll_query. simpl. apply mapM_ok_id. Qed.

Lemma top_saved (names : list string) (d : value) (f : string) :
  In f names -> has_field d f = true -> In [Key f] (saved_locations names d).
Proof.
  intros Hf Hhas. unfold saved_locations. apply in_flat_map. exists f.
  split; [exact Hf|]. destruct d as [| | | | |kv]; simpl in Hhas; try discriminate.
  unfold find_key. rewrite lookup_dict, Hhas. left. reflexivity.
Qed.

(** The blob collection holds, for the identifier of a new blob, the
    value that the blob was made of. *)
Lemma blob_data_new (old : list value) (n : nat)
  (om : list (location * value)) (u i : value)
  (z : nat * (location * value)) :
  In z (slots n om) ->
  blob_data (old ++ map (mk_blob u i) (slots n om)) (VStr (suuid (fst z)))
  = Some (snd (snd z)).
Proof.
  intros Hz. unfold blob_data. rewrite map_app, last_set_app, map_map.
  assert (Hin : In (VStr (suuid (fst z)), snd (snd z))
                  (map (fun x => id_data (mk_blob u i x)) (slots n om))).
  { apply in_map_iff. exists z. split; [reflexivity|exact Hz]. }
  destruct (last_set_found _ _ value_eqb value_eqb_spec _ _ _
              (last_set value_eqb (VStr (suuid (fst z))) (map id_data old) None)
              Hin) as [v' [Hv' Hin']].
  rewrite Hv'. f_equal.
  apply in_map_iff in Hin'. destruct Hin' as [z' [E Hz']].
  unfold id_data, blob_id, field in E. simpl in E. inversion E as [[Ej Ev]].
  apply suuid_inj in Ej.
  rewrite (slots_fst_inj n om z' z Hz' Hz Ej). reflexivity.
Qed.



(** A save specification that names the identity field: the stored
    document has a stub for its [uuid], and the query by the original pair
    finds nothing. *)
Example update_then_load_saved_uuid :
  exists st1,
    update (new_store [] [] [SvStr "uuid"] LoadNone 0) (OneDoc retry_doc)
      None SaveNone = Ok st1
    /\ query st1 [("uuid", CEq (VStr "U")); ("index", CEq (VInt 1))]
         None None 0 0 (LoadBool true) = Ok [].
Proof. eexists. split; reflexivity. Qed.


(* ================================================================= *)
(** * Further properties *)

(** ** Counting and reading *)

Lemma sort_records_length (s : sort_spec) (l : list value) :
  List.length (sort_records s l) = List.length l.
Proof. apply Permutation_length, sort_records_perm. Qed.

(** X1: without skip and limit, [query] yields as many documents as
    [count] reports for the criteria, whatever the projection, the order
    and the load specification are. *)
Theorem query_yields_count (st : JobStore) (crit : criteria)
  (p : option props) (s : sort_spec) (ld : load_type) (docs : list value) :
  query st crit p s 0 0 ld = Ok docs -> List.length docs = count st crit.
Proof.
  unfold query, query_with, coll_query, count, coll_count. simpl.
  intros H.
  destruct (mapM (project (with_identity p)) _) as [raws|e] eqn:E;
    simpl in H; [|discriminate].
  rewrite (mapM_length _ _ _ _ _ H), (mapM_length _ _ _ _ _ E).
  apply sort_records_length.
Qed.

Lemma query_yields_count_witness :
  List.length [out_rev1; out_rev2] = count out_store [("uuid", CEq (VStr "U"))].
Proof.
  apply (query_yields_count out_store _ None None (LoadBool false)).
  reflexivity.
Defined.

Lemma mapM_firstn (A B : Type) (f : A -> result B) (n : nat) (l : list A) :
  forall l', mapM f l = Ok l' -> mapM f (firstn n l) = Ok (firstn n l').
Proof.
  revert n. induction l as [|x r IH]; intros n l' H; simpl in H.
  - inversion H. destruct n; reflexivity.
  - destruct (f x) as [y|e] eqn:Ey; simpl in H; [|discriminate].
    destruct (mapM f r) as [ys|e] eqn:Er; simpl in H; [|discriminate].
    inversion H; subst l'. destruct n as [|n]; [reflexivity|].
    simpl. rewrite Ey. simpl. rewrite (IH n ys eq_refl). reflexivity.
Qed.

(** X2: [query_one] returns the first document that [query] yields for
    the same criteria, projection, order and load specification, and
    [None] when [query] yields none. *)
Theorem query_one_is_first (st : JobStore) (crit : criteria)
  (p : option props) (s : sort_spec) (ld : load_type) (docs : list value) :
  query st crit p s 0 0 ld = Ok docs ->
  query_one st crit p s ld = Ok (hd_error docs).
Proof.
  unfold query_one, query, query_with, coll_query.
  set (l := sort_records s (filter (matches crit) (records (docs_store st)))).
  change (take_limit 0 (skipn 0 l)) with l.
  change (take_limit 1 (skipn 0 l)) with (firstn 1 l).
  intros H.
  destruct (mapM (project (with_identity p)) l) as [raws|e] eqn:E;
    simpl in H; [|discriminate].
  rewrite (mapM_firstn _ _ _ 1 _ _ E). cbn [bind].
  rewrite (mapM_firstn _ _ _ 1 _ _ H). cbn [bind].
  destruct docs; reflexivity.
Qed.

Lemma query_one_is_first_witness :
  query_one out_store [("uuid", CEq (VStr "U"))] None (Some ("index", -1))
    (LoadBool true)
  = Ok (hd_error [out_rev2; out_rev1]).
Proof.
  apply (query_one_is_first out_store). reflexivity.
Defined.

Lemma filter_length_le (A : Type) (f g : A -> bool) (l : list A) :
  (List.length (filter f (filter g l)) <= List.length (filter f l))%nat.
Proof.
  induction l as [|x r IH]; simpl; [lia|].
  destruct (g x); simpl; destruct (f x); simpl; lia.
Qed.

(** X3: after a [remove_docs] that returned, [count] for the same
    criteria is zero, and no other count has grown. *)
Theorem remove_docs_then_count (st st' : JobStore) (crit : criteria)
  (trace : list request) :
  remove_docs st crit = Ok (st', trace) ->
  count st' crit = O /\ forall c, (count st' c <= count st c)%nat.
Proof.
  unfold remove_docs. intros H.
  destruct (coll_query _ _ _ _ _ _) as [docs|e]; simpl in H; [|discriminate].
  destruct (remove_blobs _ _ _ _) as [[data' tr]|e]; simpl in H; [|discriminate].
  inversion H; subst st' trace. unfold count, coll_count, coll_remove. simpl.
  split.
  - rewrite filter_none; [reflexivity|].
    intros x Hx. apply filter_In in Hx. destruct Hx as [_ Hx].
    apply negb_true_iff in Hx. exact Hx.
  - intros c. apply filter_length_le.
Qed.

Lemma remove_docs_then_count_witness :
  exists st' trace,
    remove_docs owned_store [("uuid", CEq (VStr "U"))] = Ok (st', trace)
    /\ count st' [("uuid", CEq (VStr "U"))] = O
    /\ forall c, (count st' c <= count owned_store c)%nat.
Proof.
  eexists. eexists. split; [reflexivity|].
  eapply (remove_docs_then_count owned_store). reflexivity.
Defined.

(** ** Outputs without an output field *)

(** X4: when the store has documents of the uuid but none of them has
    an [output] field, [get_output] raises [KeyError], not the
    [ValueError] of a uuid without documents. *)
Theorem get_output_needs_output (st : JobStore) (uuid : value) (which : string) :
  let docs := filter (matches [("uuid", CEq uuid)]) (records (docs_store st)) in
  docs <> [] ->
  (forall r, In r docs -> exists kv, r = VDict kv /\ dict_has "output" kv = false) ->
  get_output st uuid which (LoadBool false) = Raise KeyError.
Proof.
  intros docs Hne Hno.
  assert (Hget : forall r, In r docs ->
            getitem (include_fields ["output"; "uuid"; "index"] r) "output"
            = Raise KeyError).
  { intros r Hr. rewrite getitem_include by reflexivity.
    destruct (Hno r Hr) as [kv [-> Hkv]]. simpl. unfold dict_has in Hkv.
    destruct (dict_get "output" kv); [discriminate|reflexivity]. }
  assert (Hsort : forall leb, exists r0 rest,
            sort leb docs = r0 :: rest /\ In r0 docs).
  { intros leb. destruct (sort leb docs) as [|r0 rest] eqn:E.
    - apply sort_nil_inv in E. contradiction.
    - exists r0, rest. split; [reflexivity|].
      apply (sort_in _ leb). rewrite E. left. reflexivity. }
  unfold get_output, query_one.
  destruct (String.eqb which "last" || String.eqb which "first").
  - rewrite output_query. fold docs.
    destruct (Hsort (if (if String.eqb which "last" then -1 else 1) <? 0
                     then index_desc else index_asc)) as [r0 [rest [E Hr0]]].
    rewrite E. simpl. apply Hget. exact Hr0.
  - rewrite output_query. fold docs.
    destruct (Hsort (if -1 <? 0 then index_desc else index_asc))
      as [r0 [rest [E Hr0]]].
    rewrite E. simpl. rewrite (Hget r0 Hr0). reflexivity.
Qed.

Lemma get_output_needs_output_witness :
  get_output owned_store (VStr "U") "last" (LoadBool false) = Raise KeyError.
Proof.
  apply (get_output_needs_output owned_store (VStr "U") "last").
  - discriminate.
  - intros r [<-|[]]. eexists. split; reflexivity.
Defined.

(** ** Writing documents that hold nothing to save *)

Lemma coll_update_nil (c : collection) (k : option (list string)) :
  coll_update c [] k = Ok c.
Proof. destruct c. reflexivity. Qed.

Lemma stage_nothing (names : list string) (n : nat) (d : value) :
  saved_locations names d = [] -> stage names n d = Ok (d, [], n).
Proof.
  intros H. destruct names as [|nm r] eqn:E; [reflexivity|].
  rewrite stage_unfold by discriminate.
  unfold saved_objects. rewrite H. simpl. rewrite Nat.add_0_r. reflexivity.
Qed.

Lemma stage_all_nothing (names : list string) (n : nat) (batch : list value) :
  (forall d, In d batch -> saved_locations names d = []) ->
  stage_all names n batch = Ok (batch, [], n).
Proof.
  induction batch as [|d r IH]; intros H; [reflexivity|].
  simpl. rewrite (stage_nothing _ _ _ (H d (or_introl eq_refl))). simpl.
  rewrite IH by (intros x Hx; apply H; right; exact Hx). reflexivity.
Qed.

(** X5: when none of the names to save is a key anywhere in the
    documents of a batch (as with [save=False]), [update] upserts the
    documents as they are, leaves the blob collection as it is and mints no
    identifier. *)
Theorem update_nothing_to_save (st : JobStore) (batch : list value)
  (k : option (list string)) (sv : save_arg) :
  (forall d, In d batch -> saved_locations (save_names st sv) d = []) ->
  update st (ManyDocs batch) k sv
  = (docs' <- coll_update (docs_store st) batch
                (match k with Some _ => Some ["uuid"; "index"] | None => None end) ;;
     Ok {| docs_store := docs'; data_store := data_store st;
           save := save st; load := load st; next_uuid := next_uuid st |}).
Proof.
  intros H. unfold update. fold (save_names st sv).
  rewrite (stage_all_nothing _ _ _ H). cbn [bind].
  destruct (coll_update (docs_store st) batch _) as [docs'|e]; [|reflexivity].
  cbn [bind]. destruct (save_names st sv); [reflexivity|].
  rewrite coll_update_nil. reflexivity.
Qed.

Lemma update_nothing_to_save_witness :
  update retry_store (ManyDocs [doc_rev1]) (Some []) SaveNone
  = Ok {| docs_store := {| key := "uuid"; records := [doc_rev1] |};
          data_store := data_store retry_store;
          save := save retry_store; load := load retry_store;
          next_uuid := next_uuid retry_store |}.
Proof.
  refine (update_nothing_to_save retry_store [doc_rev1] (Some []) SaveNone _).
  intros d [<-|[]]. reflexivity.
Defined.

(** ** Documents without a uuid *)

Lemma key_error_or_bind (A B : Type) (P : A -> Prop) (Q : B -> Prop)
  (m : result A) (f : A -> result B) :
  key_error_or P m -> (forall a, P a -> key_error_or Q (f a)) ->
  key_error_or Q (bind m f).
Proof.
  intros Hm Hf. destruct m as [a|e]; simpl in *; [apply Hf; exact Hm|exact Hm].
Qed.

Lemma key_error_or_weaken (A : Type) (P Q : A -> Prop) (m : result A) :
  key_error_or P m -> (forall a, P a -> Q a) -> key_error_or Q m.
Proof. intros Hm H. destruct m; simpl in *; auto. Qed.

Lemma mapM_key_error (A B : Type) (f : A -> result B) (l : list A) :
  (forall x, In x l -> key_error_or (fun _ => True) (f x)) ->
  key_error_or (fun _ => True) (mapM f l).
Proof.
  induction l as [|x r IH]; intros H; simpl; [exact I|].
  apply (key_error_or_bind _ _ (fun _ => True)); [apply H; left; reflexivity|].
  intros y _. apply (key_error_or_bind _ _ (fun _ => True)).
  - apply IH. intros z Hz. apply H. right. exact Hz.
  - intros ys _. exact I.
Qed.

Lemma mapM_raises (A B : Type) (f : A -> result B) (l : list A) :
  (forall x, In x l -> key_error_or (fun _ => True) (f x)) ->
  (exists x, In x l /\ f x = Raise KeyError) ->
  mapM f l = Raise KeyError.
Proof.
  induction l as [|x r IH]; intros H [z [Hz Ez]]; [destruct Hz|].
  simpl. pose proof (H x (or_introl eq_refl)) as Hx.
  destruct (f x) as [y|e] eqn:Ex; simpl in *; [|rewrite Hx; reflexivity].
  destruct Hz as [->|Hz]; [rewrite Ez in Ex; discriminate|].
  rewrite IH; [reflexivity| |exists z; split; assumption].
  intros w Hw. apply H. right. exact Hw.
Qed.

Lemma getitem_key_error (d : value) (k : string) :
  is_dict d = true -> key_error_or (fun _ => True) (getitem d k).
Proof.
  destruct d as [| | | | |kv]; try discriminate. intros _. simpl.
  destruct (dict_get k kv); simpl; auto.
Qed.

Lemma getitem_lacking (d : value) (k : string) :
  is_dict d = true -> has_field d k = false -> getitem d k = Raise KeyError.
Proof.
  destruct d as [| | | | |kv]; try discriminate. intros _. simpl.
  unfold dict_has. destruct (dict_get k kv); [discriminate|reflexivity].
Qed.

(** A location that ends in the key it was found for is longer than the
    path of the container that was searched. *)
Lemma lookup_longer (k : string) (v : value) :
  forall path loc, In loc (lookup k true path v) ->
                   (List.length path < List.length loc)%nat.
Proof.
  induction v as [| | | |l IH|kv IH] using value_ind'; intros path loc H;
    try (destruct H).
  - rewrite lookup_list in H. apply in_lookup_elems in H.
    destruct H as [i [v' [Hn H]]]. rewrite Forall_forall in IH.
    apply nth_error_In in Hn. apply (IH v' Hn) in H. simpl in H. lia.
  - rewrite lookup_dict in H. apply in_app_iff in H. destruct H as [H|H].
    + destruct (dict_has k kv); [|destruct H]. destruct H as [<-|[]].
      rewrite length_rev. simpl. lia.
    + apply in_lookup_items in H. destruct H as [k' [v' [Hin H]]].
      rewrite Forall_forall in IH. apply (IH (k', v') Hin) in H.
      simpl in H. lia.
Qed.

Lemma find_key_top (d : value) (k name : string) :
  In [Key name] (find_key d k true) -> name = k /\ has_field d k = true.
Proof.
  unfold find_key. intros H. destruct d as [| | | |l|kv]; try (destruct H).
  - rewrite lookup_list in H. apply in_lookup_elems in H.
    destruct H as [i [v' [_ H]]]. apply lookup_longer in H. simpl in H. lia.
  - rewrite lookup_dict in H. apply in_app_iff in H. destruct H as [H|H].
    + simpl. destruct (dict_has k kv); [|destruct H]. destruct H as [H|[]].
      simpl in H. inversion H. split; reflexivity.
    + apply in_lookup_items in H. destruct H as [k' [v' [_ H]]].
      apply lookup_longer in H. simpl in H. lia.
Qed.

Lemma set_path_still_lacks (kv : dict) (p : location) (x d' : value) :
  set_path (VDict kv) p x = Some d' ->
  exists kv', d' = VDict kv'
              /\ (p <> [Key "uuid"] -> dict_has "uuid" kv = false ->
                  dict_has "uuid" kv' = false).
Proof.
  destruct p as [|s [|s' p']]; [discriminate| |].
  - simpl. destruct s as [k|i]; [|discriminate]. intros H. inversion H.
    eexists. split; [reflexivity|]. intros Hp Hkv. unfold dict_has.
    rewrite dict_get_set_other; [exact Hkv|]. intros E. apply Hp. subst k.
    reflexivity.
  - rewrite set_path_cons2. destruct s as [k|i]; [|discriminate].
    cbn [get_seg set_seg].
    destruct (dict_get k kv) as [c|] eqn:Ec; [|discriminate].
    destruct (set_path c (s' :: p') x) as [c'|]; [|discriminate].
    intros H. inversion H. eexists. split; [reflexivity|]. intros _ Hkv.
    rewrite (dict_has_set_present _ _ _ _ _ Ec). exact Hkv.
Qed.

Lemma update_in_dictionary_still_lacks (ups : list (location * value)) :
  forall d, is_dict d = true ->
    key_error_or
      (fun d' => is_dict d' = true
                 /\ (~ In [Key "uuid"] (map fst ups) ->
                     has_field d "uuid" = false -> has_field d' "uuid" = false))
      (update_in_dictionary d ups).
Proof.
  induction ups as [|[loc x] r IH]; intros d Hd; simpl.
  - split; [exact Hd|]. intros _ H. exact H.
  - destruct d as [| | | | |kv]; try discriminate.
    destruct (set_path (VDict kv) loc x) as [d'|] eqn:E; simpl; [|reflexivity].
    destruct (set_path_still_lacks _ _ _ _ E) as [kv' [-> Hkv']].
    eapply key_error_or_weaken; [apply IH; reflexivity|].
    intros d2 [Hd2 Hl]. split; [exact Hd2|]. intros Hn Hkv. apply Hl.
    + intros Hin. apply Hn. right. exact Hin.
    + simpl. apply Hkv'; [|exact Hkv]. intros Eloc. apply Hn. left. exact Eloc.
Qed.

Lemma blob_infos_dict (om : list (location * value)) :
  forall n loc b, assoc_get loc_eqb loc (blob_infos n om) = Some b ->
                  is_dict b = true.
Proof.
  induction om as [|[k o] r IH]; intros n loc b; simpl; [discriminate|].
  destruct (loc_eqb loc k).
  - intros H. inversion H. reflexivity.
  - apply IH.
Qed.

Lemma blob_infos_locations (n : nat) (om : list (location * value)) :
  map fst (blob_infos n om) = map fst om.
Proof.
  revert n. induction om as [|[k o] r IH]; intros n; simpl; [reflexivity|].
  rewrite IH. reflexivity.
Qed.

Lemma blob_record_key_error (doc : value) (n : nat) (om : list (location * value)) (entry : location * value) :
  is_dict doc = true ->
  key_error_or (fun _ => True) (blob_record doc (blob_infos n om) entry)
  /\ (has_field doc "uuid" = false ->
      blob_record doc (blob_infos n om) entry = Raise KeyError).
Proof.
  intros Hd. unfold blob_record.
  destruct (assoc_get loc_eqb (fst entry) (blob_infos n om)) as [b|] eqn:Eb;
    simpl; [|split; reflexivity].
  pose proof (blob_infos_dict _ _ _ _ Eb) as Hb.
  split.
  - apply (key_error_or_bind _ _ (fun _ => True));
      [apply getitem_key_error; exact Hd|]. intros u _.
    apply (key_error_or_bind _ _ (fun _ => True));
      [apply getitem_key_error; exact Hd|]. intros i _.
    destruct b; try discriminate. exact I.
  - intros H. rewrite (getitem_lacking _ _ Hd H). reflexivity.
Qed.

Lemma saved_not_uuid (names : list string) (d : value) :
  has_field d "uuid" = false ->
  ~ In [Key "uuid"] (map fst (saved_objects names d)).
Proof.
  intros Hd Hin. apply in_map_iff in Hin. destruct Hin as [[p x] [Ep Hin]].
  simpl in Ep. subst p. apply in_saved_objects in Hin. destruct Hin as [Hin _].
  unfold saved_locations in Hin. apply in_flat_map in Hin.
  destruct Hin as [nm [_ Hin]]. apply find_key_top in Hin.
  destruct Hin as [<- Hhas]. congruence.
Qed.

Lemma stage_still_lacks (names : list string) (n : nat) (d : value) :
  is_dict d = true ->
  key_error_or (fun r => still_lacks_uuid d (fst (fst r))) (stage names n d).
Proof.
  intros Hd. destruct names as [|nm nms] eqn:En.
  - simpl. split; [exact Hd|]. intros H. exact H.
  - rewrite <- En. rewrite stage_unfold by (rewrite En; discriminate).
    set (om := saved_objects names d).
    eapply key_error_or_bind;
      [apply (update_in_dictionary_still_lacks (blob_infos n om) d Hd)|].
    intros d1 [Hd1 Hl]. simpl.
    apply (key_error_or_bind _ _ (fun _ => True)).
    + apply mapM_key_error. intros e _.
      apply (blob_record_key_error d1 n om e Hd1).
    + intros blobs _. simpl. split; [exact Hd1|]. intros H. apply Hl; [|exact H].
      rewrite blob_infos_locations. apply saved_not_uuid. exact H.
Qed.

Lemma stage_all_still_lacks (names : list string) (batch : list value) :
  (forall d, In d batch -> is_dict d = true) ->
  forall n,
    key_error_or (fun r => Forall2 still_lacks_uuid batch (fst (fst r)))
      (stage_all names n batch).
Proof.
  induction batch as [|d r IH]; intros H n; simpl; [constructor|].
  eapply key_error_or_bind;
    [apply (stage_still_lacks names n d (H d (or_introl eq_refl)))|].
  intros [[d1 blobs] n1] Hd1. simpl in Hd1.
  eapply key_error_or_bind;
    [apply (IH (fun x Hx => H x (or_intror Hx)) n1)|].
  intros [[ds blobs'] n2] Hds. simpl in *. constructor; assumption.
Qed.

Lemma search_doc_key_error (kf : list string) (d : value) :
  is_dict d = true ->
  key_error_or (fun _ => True) (search_doc kf d)
  /\ (has_field d "uuid" = false -> search_doc ("uuid" :: kf) d = Raise KeyError).
Proof.
  intros Hd. split.
  - unfold search_doc. apply mapM_key_error. intros k _.
    apply (key_error_or_bind _ _ (fun _ => True));
      [apply getitem_key_error; exact Hd|]. intros v _. exact I.
  - intros H. unfold search_doc. simpl.
    rewrite (getitem_lacking _ _ Hd H). reflexivity.
Qed.



(** ** Stubs without a blob *)

Lemma update_in_dictionary_key_error (ups : list (location * value)) :
  forall d, key_error_or (fun _ => True) (update_in_dictionary d ups).
Proof.
  induction ups as [|[loc x] r IH]; intros d; simpl; [exact I|].
  destruct (set_path d loc x); simpl; [apply IH|reflexivity].
Qed.

Lemma to_insert_of_key_error (oi : list (value * location))
  (om : list (value * value)) :
  forall acc,
    key_error_or (fun _ => True) (to_insert_of oi om acc)
    /\ ((exists e, In e oi /\ assoc_get value_eqb (fst e) om = None) ->
        to_insert_of oi om acc = Raise KeyError).
Proof.
  induction oi as [|[oid loc] r IH]; intros acc; simpl.
  - split; [exact I|]. intros [e [[] _]].
  - destruct (assoc_get value_eqb oid om) as [x|] eqn:E; simpl.
    + destruct (IH (assoc_set loc_eqb loc x acc)) as [H1 H2].
      split; [exact H1|]. intros [e [[<-|He] Hn]].
      * simpl in Hn. congruence.
      * apply H2. exists e. split; assumption.
    + split; reflexivity.
Qed.

Lemma string_id_stub (doc : value) (loc : location) (s : string) :
  blob_id (get doc loc) = VStr s ->
  exists kv, get doc loc = VDict kv /\ dict_get "blob_uuid" kv = Some (VStr s).
Proof.
  unfold blob_id, field. destruct (get doc loc) as [| | | | |kv]; simpl;
    try discriminate.
  destruct (dict_get "blob_uuid" kv) as [v|] eqn:E; [|discriminate].
  intros ->. exists kv. split; [reflexivity|exact E].
Qed.

(** The loop body of [query] with [load=True]: it returns or raises
    [KeyError], and it raises when a stub has no blob. *)
Lemma resolve_all_key_error (data : collection) (doc : value) :
  (forall r, In r (records data) -> is_blob r = true) ->
  string_ids doc ->
  key_error_or (fun _ => True) (resolve data (LKBool true) doc)
  /\ (dangling data doc -> resolve data (LKBool true) doc = Raise KeyError).
Proof.
  intros Hb Hids. unfold resolve, resolve_with.
  set (L := find_key doc "blob_uuid" false).
  cbn [load_truthy _filter_blobs bind].
  rewrite combine_map_l.
  set (pairs := map (fun p => (get doc p, p)) L).
  rewrite object_info_of_ok.
  2:{ intros bl Hbl. apply in_map_iff in Hbl. destruct Hbl as [p [<- Hp]].
      destruct (Hids p Hp) as [s Hs].
      destruct (string_id_stub _ _ _ Hs) as [kv [Hg Hk]].
      exists kv, s. auto. }
  cbn [bind].
  set (oi := assign_all value_eqb
               (map (fun bl => (blob_id (fst bl), snd bl)) pairs) []).
  destruct (fetch_object_map data (map fst oi) Hb) as [om [Hfetch Hom]].
  change ["blob_uuid"; "data"] with blob_fields.
  destruct (data_fetch data [("blob_uuid", CIn (map fst oi))]
              (Some (PList blob_fields))) as [objects|e];
    simpl in Hfetch; [|discriminate].
  cbn [bind]. rewrite Hfetch. cbn [bind].
  destruct (to_insert_of_key_error oi om []) as [H1 H2].
  split.
  - eapply key_error_or_bind; [exact H1|]. intros ti _.
    apply update_in_dictionary_key_error.
  - intros [loc [Hloc Hnone]]. rewrite H2; [reflexivity|].
    assert (Hin : In (blob_id (get doc loc), loc)
                    (map (fun bl => (blob_id (fst bl), snd bl)) pairs)).
    { apply in_map_iff. exists (get doc loc, loc). split; [reflexivity|].
      apply in_map_iff. exists loc. split; [reflexivity|exact Hloc]. }
    destruct (last_set_in _ _ value_eqb value_eqb_spec _ _ _ None Hin)
      as [loc' Hl].
    assert (Hnd : NoDup (map fst oi)).
    { apply (assign_all_nodup _ _ value_eqb value_eqb_spec). constructor. }
    assert (Hoi : In (blob_id (get doc loc), loc') oi).
    { apply (assoc_get_in _ _ value_eqb value_eqb_spec _ _ _ Hnd).
      unfold oi. rewrite (assign_all_get _ _ value_eqb value_eqb_spec).
      exact Hl. }
    exists (blob_id (get doc loc), loc'). split; [exact Hoi|].
    simpl. rewrite Hom; [exact Hnone|].
    apply among_in. apply (in_map fst _ _ Hoi).
Qed.

(** X7: with [load=True], a [query] whose documents carry string blob
    identifiers raises [KeyError] as soon as one stub of one document it
    would yield has no blob in the blob collection: no document is
    yielded with the stub left in place. *)
Theorem query_dangling_stub (st : JobStore) (crit : criteria)
  (p : option props) (s : sort_spec) (skip limit : nat) (raws : list value) :
  coll_query (docs_store st) crit (with_identity p) s skip limit = Ok raws ->
  (forall r, In r (records (data_store st)) -> is_blob r = true) ->
  (forall doc, In doc raws -> string_ids doc) ->
  (exists doc, In doc raws /\ dangling (data_store st) doc) ->
  query st crit p s skip limit (LoadBool true) = Raise KeyError.
Proof.
  intros Hraw Hb Hids [doc [Hdoc Hd]]. unfold query, query_with.
  cbn [_prepare_load]. rewrite Hraw. cbn [bind].
  apply mapM_raises.
  - intros x Hx.
    apply (resolve_all_key_error (data_store st) x Hb (Hids x Hx)).
  - exists doc. split; [exact Hdoc|].
    apply (resolve_all_key_error (data_store st) doc Hb (Hids doc Hdoc)).
    exact Hd.
Qed.

Lemma query_dangling_stub_witness :
  query (new_store [doc_rev1; dangling_doc] [] [] LoadNone 0) [] None None 0 0
    (LoadBool true)
  = Raise KeyError.
Proof.
  apply (query_dangling_stub (new_store [doc_rev1; dangling_doc] [] [] LoadNone 0)
           [] None None 0 0 [doc_rev1; dangling_doc]).
  - reflexivity.
  - intros r [].
  - intros doc [<-|[<-|[]]] loc Hloc; simpl in Hloc.
    + destruct Hloc.
    + destruct Hloc as [<-|[]]. eexists. reflexivity.
  - exists dangling_doc. split; [right; left; reflexivity|].
    exists [Key "a"]. split; [left; reflexivity|reflexivity].
Defined.

(** ** Writing and removing *)

Lemma kept_identity_plain_identity (d d1 : value) :
  wf_value d1 = true -> kept_identity d d1 -> plain_identity d1 = true.
Proof.
  intros Hwf Hk.
  destruct (Hk "uuid" eq_refl) as [Hu Hus].
  destruct (Hk "index" eq_refl) as [Hi His].
  destruct d1 as [| | | | |kv]; try discriminate.
  cbn [get_seg] in Hu, Hi. unfold plain_identity, dict_has.
  rewrite Hu, Hi. cbn [andb]. cbn [wf_value] in Hwf.
  apply andb_true_iff in Hwf. destruct Hwf as [Hnd _].
  apply forallb_forall. intros [k v] Hin. cbn [fst snd].
  destruct (mem k ["uuid"; "index"]) eqn:Hm; [|reflexivity]. cbn [implb].
  pose proof (in_nodup_get kv k v Hnd Hin) as Hg.
  destruct (Hk k Hm) as [Hk1 Hk2]. cbn [get_seg] in Hk1. rewrite Hk1 in Hg.
  inversion Hg; subst. exact Hk2.
Qed.

Lemma matches_owner_blob (d : value) (u i : value)
  (z : nat * (location * value)) :
  field d "uuid" = u -> field d "index" = i ->
  scalar u = true -> scalar i = true ->
  matches (owner d) (mk_blob u i z) = true.
Proof.
  intros Hu Hi Hsu Hsi. unfold owner, matches. rewrite Hu, Hi.
  cbn [forallb fst snd cond_holds].
  change (get_seg (mk_blob u i z) (Key "job_uuid")) with (Some u).
  change (get_seg (mk_blob u i z) (Key "job_index")) with (Some i).
  rewrite (scalar_matches _ _ Hsu), (scalar_matches _ _ Hsi).
  rewrite !value_eqb_refl. reflexivity.
Qed.

Lemma filter_app_none (A : Type) (f : A -> bool) (l r : list A) :
  (forall x, In x l -> f x = true) -> (forall x, In x r -> f x = false) ->
  filter f (l ++ r) = l.
Proof.
  intros Hl Hr. rewrite filter_app, (filter_none _ _ _ Hr), app_nil_r.
  induction l as [|x l IH]; [reflexivity|]. simpl.
  rewrite (Hl x (or_introl eq_refl)). f_equal. apply IH.
  intros y Hy. apply Hl. right. exact Hy.
Qed.



(** ** Writes that undo one another *)

Lemma dict_set_restore (k : string) (x y : value) (kv : dict) :
  dict_get k kv = Some y -> dict_set k y (dict_set k x kv) = kv.
Proof.
  induction kv as [|[k0 v0] r IH]; simpl; [discriminate|].
  destruct (String.eqb k k0) eqn:E; simpl.
  - rewrite String.eqb_refl. intros H. inversion H.
    apply String.eqb_eq in E. subst. reflexivity.
  - rewrite E. intros H. rewrite (IH H). reflexivity.
Qed.

Lemma dict_set_twice (k : string) (x y : value) (kv : dict) :
  dict_set k y (dict_set k x kv) = dict_set k y kv.
Proof.
  induction kv as [|[k0 v0] r IH]; simpl.
  - rewrite String.eqb_refl. reflexivity.
  - destruct (String.eqb k k0) eqn:E; simpl.
    + rewrite String.eqb_refl. reflexivity.
    + rewrite E, IH. reflexivity.
Qed.

Lemma dict_set_comm (k1 k2 : string) (x y : value) (kv : dict) :
  k1 <> k2 -> dict_has k1 kv = true -> dict_has k2 kv = true ->
  dict_set k2 y (dict_set k1 x kv) = dict_set k1 x (dict_set k2 y kv).
Proof.
  intros Hne. unfold dict_has.
  induction kv as [|[k0 v0] r IH]; simpl; [discriminate|].
  destruct (String.eqb k1 k0) eqn:E1, (String.eqb k2 k0) eqn:E2; simpl;
    intros H1 H2.
  - apply String.eqb_eq in E1, E2. congruence.
  - apply String.eqb_eq in E1. subst k0.
    rewrite E2. simpl. rewrite String.eqb_refl. reflexivity.
  - apply String.eqb_eq in E2. subst k0.
    rewrite String.eqb_refl. simpl. rewrite E1. reflexivity.
  - rewrite E1, E2, (IH H1 H2). reflexivity.
Qed.

Lemma list_set_restore (l : list value) :
  forall i x y l', nth_error l i = Some y -> list_set l i x = Some l' ->
                   list_set l' i y = Some l.
Proof.
  induction l as [|a r IH]; intros i x y l'; destruct i as [|i]; simpl;
    try discriminate.
  - intros Hy H. inversion Hy. inversion H. reflexivity.
  - intros Hy H. destruct (list_set r i x) as [r'|] eqn:E; [|discriminate].
    inversion H. simpl. rewrite (IH _ _ _ _ Hy E). reflexivity.
Qed.

Lemma list_set_twice (l : list value) :
  forall i x y l', list_set l i x = Some l' -> list_set l' i y = list_set l i y.
Proof.
  induction l as [|a r IH]; intros i x y l'; destruct i as [|i]; simpl;
    try discriminate.
  - intros H. inversion H. reflexivity.
  - destruct (list_set r i x) as [r'|] eqn:E; [|discriminate].
    intros H. inversion H. simpl. rewrite (IH _ _ y _ E). reflexivity.
Qed.

Lemma list_set_comm (l : list value) :
  forall i j x y a b, i <> j ->
    list_set l i x = Some a -> list_set a j y = Some b ->
    exists a', list_set l j y = Some a' /\ list_set a' i x = Some b.
Proof.
  induction l as [|v r IH]; intros i j x y a b Hne; destruct i as [|i];
    simpl; try discriminate.
  - intros H. inversion H; subst a. destruct j as [|j]; [congruence|]. simpl.
    destruct (list_set r j y) as [r'|]; [|discriminate].
    intros H'. inversion H'. eexists. split; reflexivity.
  - destruct (list_set r i x) as [r'|] eqn:E; [|discriminate].
    intros H. inversion H; subst a. destruct j as [|j]; simpl.
    + intros H'. inversion H'. eexists. split; [reflexivity|].
      simpl. rewrite E. reflexivity.
    + destruct (list_set r' j y) as [r''|] eqn:E'; [|discriminate].
      intros H'. inversion H'.
      destruct (IH i j x y r' r'' (fun e => Hne (f_equal S e)) E E')
        as [a' [Ha Hb]].
      rewrite Ha. eexists. split; [reflexivity|]. simpl. rewrite Hb.
      reflexivity.
Qed.

Lemma set_seg_restore (d d' : value) (s : seg) (x y : value) :
  get_seg d s = Some y -> set_seg d s x = Some d' -> set_seg d' s y = Some d.
Proof.
  destruct d as [| | | |l|kv], s as [k|i]; simpl; try discriminate.
  - intros Hy H. destruct (list_set l i x) as [l'|] eqn:E; [|discriminate].
    inversion H. simpl. rewrite (list_set_restore _ _ _ _ _ Hy E). reflexivity.
  - intros Hy H. inversion H. simpl. rewrite (dict_set_restore _ _ _ _ Hy).
    reflexivity.
Qed.

Lemma set_seg_twice (d d' : value) (s : seg) (x y : value) :
  set_seg d s x = Some d' -> set_seg d' s y = set_seg d s y.
Proof.
  destruct d as [| | | |l|kv], s as [k|i]; simpl; try discriminate.
  - destruct (list_set l i x) as [l'|] eqn:E; [|discriminate].
    intros H. inversion H. simpl. rewrite (list_set_twice _ _ _ y _ E).
    reflexivity.
  - intros H. inversion H. simpl. rewrite dict_set_twice. reflexivity.
Qed.

Lemma set_seg_comm (d a b : value) (s t : seg) (x y : value) :
  s <> t -> get_seg d s <> None -> get_seg d t <> None ->
  set_seg d s x = Some a -> set_seg a t y = Some b ->
  exists a', set_seg d t y = Some a' /\ set_seg a' s x = Some b.
Proof.
  intros Hne. destruct d as [| | | |l|kv], s as [k|i]; simpl; try discriminate.
  - intros _ _. destruct (list_set l i x) as [l'|] eqn:E; [|discriminate].
    intros H. inversion H; subst a. destruct t as [k'|j]; simpl; [discriminate|].
    destruct (list_set l' j y) as [l''|] eqn:E'; [|discriminate].
    intros H'. inversion H'.
    destruct (list_set_comm l i j x y l' l'' (fun e => Hne (f_equal Idx e)) E E')
      as [a' [Ha Hb]].
    rewrite Ha. eexists. split; [reflexivity|]. simpl. rewrite Hb. reflexivity.
  - intros Hs Ht H. inversion H; subst a.
    destruct t as [k'|j]; simpl in *; [|discriminate].
    assert (H1 : dict_has k kv = true)
      by (unfold dict_has; destruct (dict_get k kv); [reflexivity|contradiction]).
    assert (H2 : dict_has k' kv = true)
      by (unfold dict_has; destruct (dict_get k' kv); [reflexivity|contradiction]).
    intros H'. inversion H'. eexists. split; [reflexivity|]. simpl.
    rewrite (dict_set_comm k k' x y kv); [reflexivity| |exact H1|exact H2].
    intros e. apply Hne. rewrite e. reflexivity.
Qed.

Lemma set_path_step (d c : value) (s : seg) (p : location) (x : value) :
  get_seg d s = Some c ->
  set_path d (s :: p) x
  = match set_below c p x with
    | Some c' => set_seg d s c'
    | None => None
    end.
Proof.
  intros H. destruct p as [|s' p']; [reflexivity|].
  rewrite set_path_cons2, H. reflexivity.
Qed.

Lemma apart_nonempty (p q : location) : apart p q -> p <> [] /\ q <> [].
Proof.
  intros [H1 H2]. split; intros ->.
  - discriminate H1.
  - discriminate H2.
Qed.

(** Writing the old value back undoes a write. *)
Lemma set_path_restore (p : location) :
  forall d d' x y,
    get_path d p = Some y -> set_path d p x = Some d' ->
    set_path d' p y = Some d.
Proof.
  induction p as [|s p' IH]; intros d d' x y Hy Hset; [discriminate|].
  rewrite get_path_cons in Hy.
  destruct (get_seg d s) as [c|] eqn:Ec; [|discriminate].
  rewrite (set_path_step _ _ _ _ _ Ec) in Hset.
  destruct (set_below c p' x) as [c'|] eqn:Ei; [|discriminate].
  rewrite (set_path_step _ _ _ _ _ (get_set_seg_same _ _ _ _ Hset)).
  assert (Hb : set_below c' p' y = Some c).
  { destruct p' as [|s' p'']; simpl in *; [congruence|].
    apply (IH c c' x y Hy Ei). }
  rewrite Hb. apply (set_seg_restore _ _ _ _ _ Ec Hset).
Qed.

(** Writes at positions that lie apart commute. *)
Lemma set_path_comm (p : location) :
  forall q d a b x y,
    apart p q -> get_path d p <> None -> get_path d q <> None ->
    set_path d p x = Some a -> set_path a q y = Some b ->
    exists a', set_path d q y = Some a' /\ set_path a' p x = Some b.
Proof.
  induction p as [|s p' IH]; intros q d a b x y Hap Hp Hq Hpa Hqb.
  - destruct (apart_nonempty _ _ Hap) as [H _]. contradiction.
  - destruct q as [|t q'].
    { destruct (apart_nonempty _ _ Hap) as [_ H]. contradiction. }
    rewrite get_path_cons in Hp, Hq.
    destruct (get_seg d s) as [c|] eqn:Ec; [|contradiction].
    destruct (get_seg d t) as [e|] eqn:Ee; [|contradiction].
    rewrite (set_path_step _ _ _ _ _ Ec) in Hpa.
    destruct (set_below c p' x) as [c'|] eqn:Ei; [|discriminate].
    destruct (seg_eq_dec s t) as [<-|Hne].
    + rewrite Ec in Ee. inversion Ee; subst e. clear Ee.
      apply apart_cons in Hap.
      destruct (apart_nonempty _ _ Hap) as [Hp' Hq'].
      rewrite (set_path_step _ _ _ _ _ (get_set_seg_same _ _ _ _ Hpa)) in Hqb.
      destruct (set_below c' q' y) as [c''|] eqn:Ej; [|discriminate].
      assert (E1 : set_path c p' x = Some c')
        by (destruct p'; [contradiction|exact Ei]).
      assert (E2 : set_path c' q' y = Some c'')
        by (destruct q'; [contradiction|exact Ej]).
      destruct (IH q' c c' c'' x y Hap Hp Hq E1 E2) as [ca [Ha Hb]].
      destruct (set_seg_defined d s ca c Ec) as [a' Ha'].
      exists a'. split.
      * rewrite (set_path_step _ _ _ _ _ Ec).
        replace (set_below c q' y) with (Some ca)
          by (destruct q'; [contradiction|symmetry; exact Ha]).
        exact Ha'.
      * rewrite (set_path_step _ _ _ _ _ (get_set_seg_same _ _ _ _ Ha')).
        replace (set_below ca p' x) with (Some c'')
          by (destruct p'; [contradiction|symmetry; exact Hb]).
        rewrite (set_seg_twice _ _ _ _ c'' Ha').
        rewrite <- (set_seg_twice _ _ _ _ c'' Hpa). exact Hqb.
    + assert (Het : get_seg a t = Some e).
      { rewrite (get_set_seg_other _ _ _ _ _ Hpa Hne). exact Ee. }
      rewrite (set_path_step _ _ _ _ _ Het) in Hqb.
      destruct (set_below e q' y) as [e'|] eqn:Ej; [|discriminate].
      destruct (set_seg_comm d a b s t c' e' Hne) as [a' [Ha' Hb']];
        try assumption; try congruence.
      exists a'. split.
      * rewrite (set_path_step _ _ _ _ _ Ee), Ej. exact Ha'.
      * assert (Hcs : get_seg a' s = Some c).
        { rewrite (get_set_seg_other _ _ _ _ _ Ha' (fun e0 => Hne (eq_sym e0))).
          exact Ec. }
        rewrite (set_path_step _ _ _ _ _ Hcs), Ei. exact Hb'.
Qed.

Lemma update_in_dictionary_app (l l' : list (location * value)) :
  forall d, update_in_dictionary d (l ++ l')
            = (d' <- update_in_dictionary d l ;; update_in_dictionary d' l').
Proof.
  induction l as [|[p x] r IH]; intros d; simpl; [reflexivity|].
  destruct (set_path d p x) as [d1|]; simpl; [apply IH|reflexivity].
Qed.

Lemma update_in_dictionary_swap (e : value) (p q : location) (y w : value)
  (r : list (location * value)) :
  apart p q -> get_path e p <> None -> get_path e q <> None ->
  update_in_dictionary e ((q, w) :: (p, y) :: r)
  = update_in_dictionary e ((p, y) :: (q, w) :: r).
Proof.
  intros Hap Hp Hq. destruct (apart_nonempty _ _ Hap) as [Hpn Hqn].
  destruct (get_path e q) as [yq|] eqn:Eq; [|contradiction].
  destruct (set_path_defined q e w yq Hqn Eq) as [eq Heq].
  assert (Hp' : get_path eq p <> None).
  { rewrite (get_set_apart _ _ _ _ _ Heq (apart_sym _ _ Hap)). exact Hp. }
  destruct (get_path eq p) as [yp|] eqn:Ep; [|contradiction].
  destruct (set_path_defined p eq y yp Hpn Ep) as [b Hb].
  destruct (set_path_comm q p e eq b w y (apart_sym _ _ Hap)) as [a' [Ha Hb']];
    try assumption; try congruence.
  simpl. rewrite Heq. simpl. rewrite Hb. simpl. rewrite Ha. simpl.
  rewrite Hb'. reflexivity.
Qed.

Lemma spread_tail (V : Type) (a : location * V) (r : list (location * V)) :
  spread (a :: r) ->
  spread r /\ forall b, In b r -> apart (fst a) (fst b).
Proof.
  intros [Hnd Hap]. inversion Hnd as [|? ? Hn Hr]; subst. split.
  - split; [exact Hr|]. intros x y Hx Hy. apply Hap; right; assumption.
  - intros b Hb. destruct (Hap a b (or_introl eq_refl) (or_intror Hb)) as [E|H];
      [|exact H].
    exfalso. apply Hn. rewrite E. apply (in_map fst _ _ Hb).
Qed.

(** A write at a position that lies apart from those of the writes
    before it can be made first. *)
Lemma update_in_dictionary_front (l1 : list (location * value)) :
  forall e p y l2,
    spread l1 ->
    (forall a, In a l1 -> apart (fst a) p /\ get_path e (fst a) <> None) ->
    get_path e p <> None ->
    update_in_dictionary e (l1 ++ (p, y) :: l2)
    = update_in_dictionary e ((p, y) :: l1 ++ l2).
Proof.
  induction l1 as [|[q w] r IH]; intros e p y l2 Hs Hl Hp; [reflexivity|].
  destruct (spread_tail _ _ _ Hs) as [Hr Hqr].
  destruct (Hl (q, w) (or_introl eq_refl)) as [Hqp Hq]. simpl in Hqp, Hq.
  change (((q, w) :: r) ++ l2) with ((q, w) :: (r ++ l2)).
  rewrite <- (update_in_dictionary_swap e p q y w (r ++ l2)
                (apart_sym _ _ Hqp) Hp Hq).
  change (((q, w) :: r) ++ (p, y) :: l2) with ((q, w) :: (r ++ (p, y) :: l2)).
  cbn [update_in_dictionary].
  destruct (set_path e q w) as [eq|] eqn:Eq; [|reflexivity].
  cbn [from_option bind]. apply IH; [exact Hr| |].
  - intros a Ha. destruct (Hl a (or_intror Ha)) as [H1 H2]. split; [exact H1|].
    rewrite (get_set_apart _ _ _ _ _ Eq (Hqr a Ha)). exact H2.
  - rewrite (get_set_apart _ _ _ _ _ Eq Hqp). exact Hp.
Qed.

(** After writes at positions that lie apart, writing the original values
    back, in any order, gives the original tree. *)
Lemma writes_restore (ups : list (location * value)) :
  forall d d1,
    spread ups ->
    (forall a, In a ups -> get_path d (fst a) <> None) ->
    update_in_dictionary d ups = Ok d1 ->
    forall qs, Permutation qs (map fst ups) ->
               update_in_dictionary d1 (originals d qs) = Ok d.
Proof.
  induction ups as [|[p x] r IH]; intros d d1 Hs Hex Hu qs Hperm.
  - simpl in Hu. inversion Hu; subst. apply Permutation_sym in Hperm.
    apply Permutation_nil in Hperm. subst qs. reflexivity.
  - destruct (spread_tail _ _ _ Hs) as [Hr Hpr]. simpl in Hpr.
    simpl in Hu. destruct (set_path d p x) as [da|] eqn:Ea; [|discriminate].
    simpl in Hu.
    assert (Hpn : p <> []) by (intros ->; discriminate Ea).
    pose proof (Hex (p, x) (or_introl eq_refl)) as Hp. simpl in Hp.
    destruct (get_path d p) as [y0|] eqn:Ey; [|contradiction]. clear Hp.
    assert (Hda : forall a, In a r -> get_path da (fst a) <> None).
    { intros a Ha. rewrite (get_set_apart _ _ _ _ _ Ea (Hpr a Ha)).
      apply Hex. right. exact Ha. }
    destruct (writes_apart r (nodup_apart _ r (proj1 Hr) (proj2 Hr)) da)
      as [d1' [Hu' [Hin Hout]]].
    { intros p' x' H'. split.
      - apply (apart_nonempty _ _ (Hpr _ H')).
      - pose proof (Hda _ H') as H. simpl in H.
        destruct (get_path da p') as [y|]; [exists y; reflexivity|contradiction]. }
    rewrite Hu in Hu'. inversion Hu'; subst d1'. clear Hu'.
    assert (Hd1p : get_path d1 p = Some x).
    { rewrite Hout; [apply (get_set_same _ _ _ _ Ea)|].
      intros p' x' H'. apply apart_sym. apply (Hpr _ H'). }
    assert (Hinq : In p qs).
    { apply (Permutation_in _ (Permutation_sym Hperm)). left. reflexivity. }
    destruct (in_split _ _ Hinq) as [l1 [l2 ->]].
    assert (Hperm' : Permutation (l1 ++ l2) (map fst r)).
    { apply Permutation_sym. apply (Permutation_cons_app_inv l1 l2 (a := p)).
      apply Permutation_sym. exact Hperm. }
    assert (Hnd : NoDup (l1 ++ p :: l2)).
    { apply (Permutation_NoDup (Permutation_sym Hperm)). apply Hs. }
    assert (Hl1 : forall q, In q l1 -> exists b, In b r /\ fst b = q).
    { intros q Hq.
      assert (H : In q (map fst r)).
      { apply (Permutation_in _ Hperm'). apply in_or_app. left. exact Hq. }
      apply in_map_iff in H. destruct H as [b [E Hb]]. exists b. auto. }
    unfold originals. rewrite map_app. cbn [map].
    fold (originals d l1). fold (originals d l2).
    rewrite update_in_dictionary_front.
    + unfold get at 1. rewrite Ey.
      destruct (set_path_defined p d1 y0 x Hpn Hd1p) as [d2 Hd2].
      cbn [update_in_dictionary]. rewrite Hd2. cbn [from_option bind].
      unfold originals. rewrite <- map_app. fold (originals d (l1 ++ l2)).
      apply (IH d d2 Hr); [|
        |exact Hperm'].
      * intros a Ha. apply Hex. right. exact Ha.
      * pose proof (update_in_dictionary_front r da p y0 [] Hr) as Hf.
        rewrite update_in_dictionary_app, Hu in Hf. cbn [bind] in Hf.
        cbn [update_in_dictionary] in Hf. rewrite Hd2 in Hf.
        rewrite (set_path_restore p d da x y0 Ey Ea) in Hf.
        cbn [from_option bind] in Hf. rewrite app_nil_r in Hf.
        symmetry. apply Hf.
        -- intros a Ha. split; [apply apart_sym, (Hpr a Ha)|apply (Hda a Ha)].
        -- rewrite (get_set_same _ _ _ _ Ea). discriminate.
    + split.
      * unfold originals. rewrite map_map. cbn [fst]. rewrite map_id.
        apply NoDup_app_remove_r in Hnd. exact Hnd.
      * intros a b Ha Hb. unfold originals in Ha, Hb.
        apply in_map_iff in Ha, Hb.
        destruct Ha as [qa [<- Hqa]], Hb as [qb [<- Hqb]]. cbn [fst].
        destruct (Hl1 qa Hqa) as [ba [Hba <-]].
        destruct (Hl1 qb Hqb) as [bb [Hbb <-]].
        apply (proj2 Hr); assumption.
    + intros a Ha. unfold originals in Ha. apply in_map_iff in Ha.
      destruct Ha as [q [<- Hq]]. cbn [fst].
      destruct (Hl1 q Hq) as [[q' x'] [Hb E]]. simpl in E. subst q'. split.
      * apply apart_sym. apply (Hpr _ Hb).
      * rewrite (Hin q x' Hb). discriminate.
    + rewrite Hd1p. discriminate.
Qed.

(** The loop body of [query] with [load=True], as the writes it makes:
    one for every stub, of the data of its blob. *)
Lemma resolve_all_writes (data : collection) (doc : value) :
  let L := find_key doc "blob_uuid" false in
  wf_value doc = true ->
  string_ids doc ->
  (forall p q, In p L -> In q L ->
               blob_id (get doc p) = blob_id (get doc q) -> p = q) ->
  (forall r, In r (records data) -> is_blob r = true) ->
  (forall p, In p L -> blob_data (records data) (blob_id (get doc p)) <> None) ->
  exists ti,
    resolve data (LKBool true) doc = update_in_dictionary doc ti
    /\ NoDup (map fst ti)
    /\ (forall p x, In (p, x) ti ->
          In p L /\ blob_data (records data) (blob_id (get doc p)) = Some x)
    /\ (forall p, In p L -> exists x, In (p, x) ti).
Proof.
  intros L Hwf Hids Hinj Hb Hthere.
  destruct (filter_blobs_all doc) as [Hfilter Hkept]. fold L in Hfilter, Hkept.
  set (kept := map (fun p => (get doc p, p)) L) in *.
  pose proof (object_info_kept doc (fun _ => true) kept Hwf Hids Hkept) as Hoi.
  set (oi := assign_all value_eqb
               (map (fun bl => (blob_id (fst bl), snd bl)) kept) []) in *.
  destruct (fetch_object_map data (map fst oi) Hb) as [om [Hfetch Hom]].
  destruct (resolve_steps data doc (fun _ => true) kept Hinj
              (fun p Hp _ => Hthere p Hp) Hkept om Hom)
    as [Hti [Hnd [Hsound Hcomplete]]].
  fold oi in Hti, Hnd, Hsound, Hcomplete.
  set (ti := assign_all loc_eqb
               (map (fun e => (snd e, data_or_none om (fst e))) oi) []) in *.
  exists ti. split; [|split; [exact Hnd|split]].
  - unfold resolve, resolve_with. cbn [load_truthy]. fold L.
    rewrite Hfilter. cbn [bind]. rewrite combine_fst_snd, Hoi. cbn [bind].
    change ["blob_uuid"; "data"] with blob_fields.
    destruct (data_fetch data [("blob_uuid", CIn (map fst oi))]
                (Some (PList blob_fields))) as [objects|e];
      simpl in Hfetch; [|discriminate].
    cbn [bind]. rewrite Hfetch. cbn [bind]. rewrite Hti. reflexivity.
  - intros p x H. destruct (Hsound p x H) as [H1 [_ H2]]. auto.
  - intros p Hp. apply (Hcomplete p Hp eq_refl).
Qed.

Lemma pairs_originals (d : value) (ti : list (location * value)) :
  (forall p x, In (p, x) ti -> x = get d p) ->
  ti = originals d (map fst ti).
Proof.
  intros H. unfold originals. rewrite map_map.
  rewrite <- (map_id ti) at 1. apply map_ext_in.
  intros [p x] Hin. simpl. rewrite (H p x Hin). reflexivity.
Qed.



(* ================================================================= *)
(** ** Stores from database credentials *)

Lemma copy_keys_get (credentials : dict) (names : list string) :
  forall auth auth',
    copy_keys names credentials auth = Ok auth' ->
    forall k,
      dict_get k auth'
      = if mem k names && dict_has k credentials
        then dict_get "key" credentials
        else dict_get k auth.
Proof.
  induction names as [|n r IH]; intros auth auth' H k.
  - simpl in H. inversion H. reflexivity.
  - simpl in H. destruct (dict_has n credentials) eqn:Hn.
    + unfold subscript in H.
      destruct (dict_get "key" credentials) as [v|] eqn:Ev; simpl in H;
        [|discriminate].
      rewrite (IH _ _ H k), dict_get_set. unfold mem. cbn [existsb].
      fold (mem k r). destruct (String.eqb k n) eqn:E.
      * apply String.eqb_eq in E. subst n. rewrite Hn. cbn [orb andb].
        destruct (mem k r && true); reflexivity.
      * reflexivity.
    + simpl in H. rewrite (IH _ _ H k). unfold mem. cbn [existsb].
      fold (mem k r). destruct (String.eqb k n) eqn:E; [|reflexivity].
      apply String.eqb_eq in E. subst n. rewrite Hn.
      rewrite !andb_false_r. reflexivity.
Qed.

Lemma copy_keys_needs_key (credentials : dict) (names : list string) :
  forall auth,
    (exists k, In k names /\ dict_has k credentials = true) ->
    dict_has "key" credentials = false ->
    copy_keys names credentials auth = Raise KeyError.
Proof.
  induction names as [|n r IH]; intros auth [k [Hk Hhas]] Hno; [destruct Hk|].
  simpl. destruct (dict_has n credentials) eqn:Hn.
  - unfold subscript, dict_has in *.
    destruct (dict_get "key" credentials); [discriminate|reflexivity].
  - simpl. apply IH; [|exact Hno]. destruct Hk as [->|Hk]; [congruence|].
    exists k. auto.
Qed.

Lemma copy_keys_key_error (credentials : dict) (names : list string) :
  forall auth e, copy_keys names credentials auth = Raise e -> e = KeyError.
Proof.
  induction names as [|n r IH]; intros auth e H; [discriminate|].
  simpl in H. destruct (dict_has n credentials).
  - unfold subscript in H. destruct (dict_get "key" credentials); simpl in H.
    + apply (IH _ _ H).
    + inversion H. reflexivity.
  - simpl in H. apply (IH _ _ H).
Qed.

Lemma mem_in (k : string) (l : list string) : In k l -> mem k l = true.
Proof.
  intros H. unfold mem. apply existsb_exists. exists k.
  split; [exact H|apply String.eqb_refl].
Qed.

(** X10: when the credentials name a [host] or a [port], the value that
    [_get_mongo_auth] passes on under that name is the entry [key] of the
    credentials, not the entry of the name itself; without an entry [key]
    the call raises. *)
Theorem mongo_auth_reads_key (credentials : dict) (admin : bool) (k : string) :
  In k ["host"; "port"] -> dict_has k credentials = true ->
  match _get_mongo_auth credentials admin with
  | Ok auth => dict_has "key" credentials = true
               /\ dict_get k auth = dict_get "key" credentials
  | Raise e => e = ValueError \/ e = KeyError
  end.
Proof.
  intros Hk Hhas. unfold _get_mongo_auth.
  destruct (admin && negb (dict_has "admin_user" credentials));
    [left; reflexivity|].
  set (auth0 := if admin then _ else _).
  destruct (copy_keys ["host"; "port"] credentials auth0) as [auth1|e] eqn:Ec.
  - cbn [bind]. unfold subscript.
    destruct (dict_get "database" credentials) as [db|]; cbn [from_option bind];
      [|right; reflexivity].
    pose proof (copy_keys_get _ _ _ _ Ec k) as Hg.
    rewrite (mem_in _ _ Hk), Hhas in Hg. cbn [andb] in Hg.
    assert (Hne : k <> "authsource").
    { destruct Hk as [<-|[<-|[]]]; discriminate. }
    rewrite (dict_get_set_other _ _ _ _ Hne). split; [|exact Hg].
    destruct (dict_has "key" credentials) eqn:Hkey; [reflexivity|].
    rewrite (copy_keys_needs_key credentials _ auth0) in Ec;
      [discriminate| |exact Hkey].
    exists k. auto.
  - cbn [bind]. right. apply (copy_keys_key_error _ _ _ _ Ec).
Qed.

Lemma mongo_auth_reads_key_witness :
  match _get_mongo_auth
          [("admin_user", VStr "a"); ("host", VStr "h"); ("key", VStr "k");
           ("database", VStr "db")] true with
  | Ok auth => dict_has "key"
                 [("admin_user", VStr "a"); ("host", VStr "h");
                  ("key", VStr "k"); ("database", VStr "db")] = true
               /\ dict_get "host" auth
                  = dict_get "key"
                      [("admin_user", VStr "a"); ("host", VStr "h");
                       ("key", VStr "k"); ("database", VStr "db")]
  | Raise e => e = ValueError \/ e = KeyError
  end.
Proof.
  apply (mongo_auth_reads_key
           [("admin_user", VStr "a"); ("host", VStr "h"); ("key", VStr "k");
            ("database", VStr "db")] true "host").
  - left. reflexivity.
  - reflexivity.
Defined.

Lemma mongo_auth_no_key (credentials : dict) (admin : bool) :
  dict_has "host" credentials || dict_has "port" credentials = true ->
  dict_has "key" credentials = false ->
  exists e, _get_mongo_auth credentials admin = Raise e.
Proof.
  intros Hhp Hkey. unfold _get_mongo_auth.
  destruct (admin && negb (dict_has "admin_user" credentials));
    [eexists; reflexivity|].
  rewrite copy_keys_needs_key; [eexists; reflexivity| |exact Hkey].
  apply orb_true_iff in Hhp. destruct Hhp as [H|H].
  - exists "host". split; [left; reflexivity|exact H].
  - exists "port". split; [right; left; reflexivity|exact H].
Qed.

Lemma mongo_like_no_key (name : value) (credentials : dict) (admin : bool) :
  dict_has "host" credentials || dict_has "port" credentials = true ->
  dict_has "host_uri" credentials = false ->
  dict_has "key" credentials = false ->
  exists e, _get_mongo_like_store name credentials admin = Raise e.
Proof.
  intros Hhp Huri Hkey. unfold _get_mongo_like_store. rewrite Huri.
  destruct (mongo_auth_no_key credentials admin Hhp Hkey) as [e ->].
  exists e. reflexivity.
Qed.

(** X11: credentials that name a [host] or a [port], and have neither a
    [host_uri] nor an entry [key], give no store: [_get_docs_store] and
    [_get_data_store] both raise, whatever else the credentials hold. *)
Theorem stores_need_key (str : value -> string) (credentials : dict)
  (admin : bool) :
  dict_has "host" credentials || dict_has "port" credentials = true ->
  dict_has "host_uri" credentials = false ->
  dict_has "key" credentials = false ->
  (exists e, _get_docs_store credentials admin = Raise e)
  /\ (exists e, _get_data_store str credentials admin = Raise e).
Proof.
  intros Hhp Huri Hkey. split.
  - unfold _get_docs_store.
    destruct (subscript credentials "collection") as [c|e];
      [|exists e; reflexivity].
    cbn [bind]. apply (mongo_like_no_key c credentials admin Hhp Huri Hkey).
  - unfold _get_data_store. rewrite Huri.
    destruct (dict_has "data_store_kwargs" credentials); cbn [negb].
    + destruct (contains _ "bucket") as [[|]|e]; cbn [bind];
        [|eexists; reflexivity|eexists; reflexivity].
      destruct (mongo_like_no_key
                  (VStr ((str (get_default credentials "data_store_prefix"
                                 (VStr "job")) ++ "_datastore") ++ "_index"))
                  credentials admin Hhp Huri Hkey) as [e ->].
      exists e. reflexivity.
    + destruct (mongo_auth_no_key credentials admin Hhp Hkey) as [e ->].
      exists e. reflexivity.
Qed.

Lemma stores_need_key_witness :
  (exists e,
     _get_docs_store
       [("host", VStr "localhost"); ("port", VInt 27017);
        ("database", VStr "db"); ("collection", VStr "outputs");
        ("admin_user", VStr "a"); ("admin_password", VStr "p")] true
     = Raise e)
  /\ (exists e,
        _get_data_store (fun _ => "job")
          [("host", VStr "localhost"); ("port", VInt 27017);
           ("database", VStr "db"); ("collection", VStr "outputs");
           ("admin_user", VStr "a"); ("admin_password", VStr "p")] true
        = Raise e).
Proof.
  apply (stores_need_key (fun _ => "job")
           [("host", VStr "localhost"); ("port", VInt 27017);
            ("database", VStr "db"); ("collection", VStr "outputs");
            ("admin_user", VStr "a"); ("admin_password", VStr "p")] true);
    reflexivity.
Defined.

Lemma dict_update_get_other (k : string) (e : dict) :
  forall d, mem k (keys e) = false ->
            dict_get k (dict_update d e) = dict_get k d.
Proof.
  unfold dict_update.
  induction e as [|[k0 v0] r IH]; intros d H; [reflexivity|].
  simpl in H. apply orb_false_iff in H. destruct H as [Hk Hr].
  simpl. rewrite (IH _ Hr). apply dict_get_set_other.
  intros E. subst k0. rewrite String.eqb_refl in Hk. discriminate.
Qed.

(** The entries of [e] win over those of [d] in [d.update(e)]. *)
Lemma dict_update_get (k : string) (e : dict) :
  nodupb (keys e) = true ->
  forall d,
    dict_get k (dict_update d e)
    = match dict_get k e with
      | Some v => Some v
      | None => dict_get k d
      end.
Proof.
  induction e as [|[k0 v0] r IH]; intros Hnd d; [reflexivity|].
  simpl in Hnd. apply andb_true_iff in Hnd. destruct Hnd as [Hk0 Hr].
  apply negb_true_iff in Hk0. fold (mem k0 (keys r)) in Hk0.
  change (dict_update d ((k0, v0) :: r))
    with (dict_update (dict_set k0 v0 d) r).
  simpl. destruct (String.eqb k k0) eqn:E.
  - apply String.eqb_eq in E. subst k0.
    rewrite (dict_update_get_other _ _ _ Hk0). apply dict_get_set_same.
  - rewrite (IH Hr). destruct (dict_get k r); [reflexivity|].
    apply dict_get_set_other. intros ->. rewrite String.eqb_refl in E.
    discriminate.
Qed.





(** ** What a write leaves alone *)

Lemma replace_one_keeps (c : criteria) (d r : value) (recs : list value) :
  In r recs -> matches c r = false -> In r (replace_one c d recs).
Proof.
  intros Hin Hm. induction recs as [|x rest IH]; [destruct Hin|].
  simpl. destruct (matches c x) eqn:E.
  - destruct Hin as [->|Hin]; [congruence|]. right. exact Hin.
  - destruct Hin as [->|Hin]; [left; reflexivity|]. right. apply IH. exact Hin.
Qed.

Lemma upsert_all_keeps (kf : list string) (r : value) (ds : list value) :
  (forall d, In d ds -> matches (ident kf d) r = false) ->
  forall recs, In r recs -> In r (upsert_all kf ds recs).
Proof.
  unfold upsert_all. induction ds as [|d rest IH]; intros H recs Hin;
    [exact Hin|].
  simpl. apply IH.
  - intros x Hx. apply H. right. exact Hx.
  - apply replace_one_keeps; [exact Hin|]. apply H. left. reflexivity.
Qed.



(** ** Grouping by no key *)

Lemma sort_always (A : Type) (leb : A -> A -> bool) (l : list A) :
  (forall a b, leb a b = true) -> sort leb l = l.
Proof.
  intros H. induction l as [|x r IH]; [reflexivity|].
  simpl. rewrite IH. destruct r as [|y r']; [reflexivity|].
  simpl. rewrite H. reflexivity.
Qed.

Lemma runs_from_always (A : Type) (key : A -> list value) (tgt : list value)
  (l : list A) :
  (forall x, tuple_eq tgt (key x) = true) ->
  forall cur, runs_from key tgt cur l = [(tgt, rev cur ++ l)].
Proof.
  intros H. induction l as [|x r IH]; intros cur; simpl.
  - rewrite app_nil_r. reflexivity.
  - rewrite H, IH. simpl. rewrite <- app_assoc. reflexivity.
Qed.

Lemma forallb_always (A : Type) (f : A -> bool) (l : list A) :
  (forall x, f x = true) -> forallb f l = true.
Proof. intros H. apply forallb_forall. intros x _. apply H. Qed.

(** X15: with an empty list of keys [groupby] leaves no document out
    and puts them all, in the order of [query], in one group whose key
    document is empty; when [query] yields nothing there is no group. *)
Theorem groupby_no_keys (st : JobStore) (crit : criteria)
  (p : option props) (s : sort_spec) (skip limit : nat) (ld : load_type)
  (docs : list value) :
  query st crit p s skip limit ld = Ok docs ->
  groupby st [] crit p s skip limit ld
  = Ok match docs with
       | [] => []
       | _ => [(VDict [], docs)]
       end.
Proof.
  intros H. unfold groupby.
  assert (Hp : match p with
               | Some (PDict d) =>
                   Some (PDict (dict_update d (map (fun k => (k, VInt 1)) [])))
               | _ => p
               end = p) by (destruct p as [[l|d]|]; reflexivity).
  rewrite Hp, H. cbn [bind forallb].
  rewrite (filter_all _ (fun _ => true) docs) by reflexivity.
  unfold sorted. cbn [grouping_keys map].
  rewrite forallb_always
    by (intros a; apply forallb_always; intros b; reflexivity).
  rewrite sort_always by reflexivity. cbn [bind].
  destruct docs as [|d r]; [reflexivity|].
  unfold itertools_groupby. rewrite runs_from_always by reflexivity.
  reflexivity.
Qed.

Lemma groupby_no_keys_witness :
  groupby grp_store [] [] None None 0 0 (LoadBool false)
  = Ok [(VDict [], grp_docs)].
Proof.
  apply (groupby_no_keys grp_store [] None None 0 0 (LoadBool false) grp_docs).
  reflexivity.
Defined.

(** ** Outputs that were offloaded *)

Lemma existsb_filter_keys (k : string) (f : string * value -> bool) (kv : dict) :
  existsb (String.eqb k) (keys kv) = false ->
  existsb (String.eqb k) (keys (filter f kv)) = false.
Proof.
  induction kv as [|[k0 v0] r IH]; simpl; [reflexivity|].
  intros H. apply orb_false_iff in H. destruct H as [H1 H2].
  destruct (f (k0, v0)); simpl; [rewrite H1|]; apply IH; exact H2.
Qed.

Lemma include_fields_wf (fields : list string) (d : value) :
  wf_value d = true -> wf_value (include_fields fields d) = true.
Proof.
  destruct d as [| | | | |kv]; try (intros; assumption).
  cbn [include_fields wf_value]. intros H.
  apply andb_true_iff in H. destruct H as [Hk Hv].
  apply andb_true_iff. split.
  - clear Hv. induction kv as [|[k0 v0] r IH]; [reflexivity|].
    simpl in Hk. apply andb_true_iff in Hk. destruct Hk as [H1 H2].
    simpl. destruct (mem k0 fields); simpl; [|apply IH; exact H2].
    rewrite (IH H2), andb_true_r. apply negb_true_iff.
    apply negb_true_iff in H1. apply existsb_filter_keys. exact H1.
  - rewrite forallb_forall in *. intros e He. apply filter_In in He.
    apply Hv, He.
Qed.

Lemma scalar_no_path (v : value) (s : seg) (r : location) :
  scalar v = true -> get_path v (s :: r) = None.
Proof. destruct v; try discriminate; reflexivity. Qed.

(** The stubs of the document that [get_output] resolves: the one of the
    output, when the output was offloaded. *)
Lemma projected_stubs (kv : dict) (j : nat) :
  wf_value (VDict kv) = true ->
  dict_get "output" kv = Some (stub j) ->
  (forall k v, mem k ["uuid"; "index"] = true -> dict_get k kv = Some v ->
               scalar v = true) ->
  forall loc,
    In loc (find_key (include_fields output_fields (VDict kv)) "blob_uuid" false)
    <-> loc = [Key "output"].
Proof.
  intros Hwf Hout Hid loc.
  pose proof (include_fields_wf output_fields _ Hwf) as Hwfp.
  cbn [include_fields] in *.
  set (kvp := filter (fun e => mem (fst e) output_fields) kv) in *.
  assert (Hget : forall k, dict_get k kvp
                           = if mem k output_fields then dict_get k kv else None).
  { intros k. destruct (mem k output_fields) eqn:E.
    - apply dict_get_include. exact E.
    - apply dict_get_exclude. exact E. }
  split.
  - intros H. destruct (find_key_sound _ _ _ loc Hwfp H) as [q [kv' [Hq [Hg Hk]]]].
    unfold end_of in Hq. rewrite app_nil_r in Hq. subst q.
    destruct loc as [|[k|i] r].
    + simpl in Hg. inversion Hg; subst kv'. unfold dict_has in Hk.
      rewrite Hget in Hk. simpl in Hk. discriminate.
    + rewrite get_path_cons in Hg. cbn [get_seg] in Hg. rewrite Hget in Hg.
      destruct (mem k output_fields) eqn:Ek; [|discriminate].
      destruct (dict_get k kv) as [c|] eqn:Ec; [|discriminate].
      unfold output_fields, mem in Ek. cbn [existsb] in Ek.
      destruct (String.eqb k "output") eqn:Eo.
      * apply String.eqb_eq in Eo. subst k. rewrite Hout in Ec.
        inversion Ec; subst c. destruct r as [|s r]; [reflexivity|].
        exfalso. apply (stub_inner _ _ _ _ Hg).
      * cbn [orb] in Ek. fold (mem k ["uuid"; "index"]) in Ek.
        pose proof (Hid k c Ek Ec) as Hs. destruct r as [|s r].
        -- simpl in Hg. inversion Hg; subst c. discriminate.
        -- rewrite (scalar_no_path _ _ _ Hs) in Hg. discriminate.
    + rewrite get_path_cons in Hg. discriminate.
  - intros ->. apply (find_key_complete _ _ [Key "output"]
                        [("@class", VStr ""); ("@module", VStr "");
                         ("blob_uuid", VStr (suuid j))]); [|reflexivity].
    rewrite get_path_cons. cbn [get_seg]. rewrite Hget. cbn [mem output_fields existsb].
    simpl. rewrite Hout. reflexivity.
Qed.



(** ** Removing nothing *)

(** X17: when no stored document matches the criteria, [remove_docs]
    changes neither collection and sends the blob collection no removal. *)
Theorem remove_docs_nothing (st : JobStore) (crit : criteria) :
  (forall r, In r (records (docs_store st)) -> matches crit r = false) ->
  remove_docs st crit = Ok (st, [DocsRemove crit]).
Proof.
  intros H. unfold remove_docs.
  rewrite (coll_query_no_match _ _ _ _ _ _ H). cbn [bind remove_blobs app].
  f_equal. f_equal. destruct st as [[kd rd] ds sv ld n].
  cbn [docs_store data_store save load next_uuid key records] in *.
  f_equal. unfold coll_remove. cbn [key records]. f_equal.
  apply filter_all. intros r Hr. rewrite (H r Hr). reflexivity.
Qed.

Lemma remove_docs_nothing_witness :
  remove_docs owned_store [("uuid", CEq (VStr "Z"))]
  = Ok (owned_store, [DocsRemove [("uuid", CEq (VStr "Z"))]]).
Proof.
  apply (remove_docs_nothing owned_store [("uuid", CEq (VStr "Z"))]).
  intros r [<-|[<-|[]]]; reflexivity.
Defined.

(** ** The account of a connection *)

Lemma copy_keys_other (credentials : dict) (names : list string) (k : string) :
  mem k names = false ->
  forall auth auth',
    copy_keys names credentials auth = Ok auth' ->
    dict_get k auth' = dict_get k auth.
Proof.
  intros Hk auth auth' H. rewrite (copy_keys_get _ _ _ _ H k), Hk. reflexivity.
Qed.

(** X18: the account that [_get_mongo_auth] passes on: with [admin] the
    administrator's user and password, which needs an [admin_user] entry,
    and without it the read-only pair; a missing entry of the pair is the
    empty string.  The [authsource] is the entry of that name, or the
    database. *)
Theorem mongo_auth_account (credentials : dict) (admin : bool) (auth : dict) :
  _get_mongo_auth credentials admin = Ok auth ->
  let who := if admin then "admin" else "readonly" in
  (admin = true -> dict_has "admin_user" credentials = true)
  /\ dict_get "user" auth
     = Some (get_default credentials (who ++ "_user") (VStr ""))
  /\ dict_get "password" auth
     = Some (get_default credentials (who ++ "_password") (VStr ""))
  /\ exists database,
       dict_get "database" credentials = Some database
       /\ dict_get "authsource" auth
          = Some (get_default credentials "authsource" database).
Proof.
  intros H who. unfold _get_mongo_auth in H.
  destruct (admin && negb (dict_has "admin_user" credentials)) eqn:Ea;
    [discriminate|].
  set (auth0 := if admin then _ else _) in H.
  destruct (copy_keys ["host"; "port"] credentials auth0) as [auth1|e] eqn:Ec;
    [|discriminate].
  cbn [bind] in H. unfold subscript in H.
  destruct (dict_get "database" credentials) as [db|]; [|discriminate].
  cbn [from_option bind] in H. inversion H; subst auth. clear H.
  split; [|split; [|split]].
  - intros ->. simpl in Ea. apply negb_false_iff in Ea. exact Ea.
  - rewrite dict_get_set_other by discriminate.
    rewrite (copy_keys_other credentials ["host"; "port"] "user" eq_refl _ _ Ec).
    unfold auth0, who. destruct admin; reflexivity.
  - rewrite dict_get_set_other by discriminate.
    rewrite (copy_keys_other credentials ["host"; "port"] "password" eq_refl _ _ Ec).
    unfold auth0, who. destruct admin; reflexivity.
  - exists db. split; [reflexivity|]. apply dict_get_set_same.
Qed.

Lemma mongo_auth_account_witness :
  (false = true ->
   dict_has "admin_user" [("readonly_user", VStr "r"); ("database", VStr "db")]
   = true)
  /\ dict_get "user" [("user", VStr "r"); ("password", VStr "");
                      ("authsource", VStr "db")]
     = Some (get_default [("readonly_user", VStr "r"); ("database", VStr "db")]
               ("readonly" ++ "_user") (VStr ""))
  /\ dict_get "password" [("user", VStr "r"); ("password", VStr "");
                          ("authsource", VStr "db")]
     = Some (get_default [("readonly_user", VStr "r"); ("database", VStr "db")]
               ("readonly" ++ "_password") (VStr ""))
  /\ exists database,
       dict_get "database" [("readonly_user", VStr "r"); ("database", VStr "db")]
       = Some database
       /\ dict_get "authsource" [("user", VStr "r"); ("password", VStr "");
                                 ("authsource", VStr "db")]
          = Some (get_default
                    [("readonly_user", VStr "r"); ("database", VStr "db")]
                    "authsource" database).
Proof.
  apply (mongo_auth_account
           [("readonly_user", VStr "r"); ("database", VStr "db")] false).
  reflexivity.
Defined.

(** ** Writing the same documents again *)

Lemma replace_one_map (kf : list string) (d : value) (recs : list value) :
  plain_on kf d -> distinct_ids kf recs ->
  (exists r, In r recs /\ matches (ident kf d) r = true) ->
  replace_one (ident kf d) d recs
  = map (fun r => if matches (ident kf d) r then d else r) recs.
Proof.
  intros Hd [Hnd Hpl] [r0 [Hr0 Hm0]].
  induction recs as [|r rest IH]; [destruct Hr0|].
  simpl. simpl in Hnd. inversion Hnd as [|? ? Hn Hrest]; subst.
  destruct (matches (ident kf d) r) eqn:E.
  - f_equal. rewrite <- (map_id rest) at 1. apply map_ext_in.
    intros x Hx. destruct (matches (ident kf d) x) eqn:Ex; [|reflexivity].
    exfalso. apply Hn.
    apply (matches_ident kf d r (Hpl r (or_introl eq_refl))) in E.
    apply (matches_ident kf d x (Hpl x (or_intror Hx))) in Ex.
    rewrite E, <- Ex. apply (in_map (ident kf) _ _ Hx).
  - f_equal. destruct Hr0 as [->|Hr0]; [congruence|].
    apply IH; [exact Hrest| |exact Hr0].
    intros x Hx. apply Hpl. right. exact Hx.
Qed.

Lemma latest_cons (kf : list string) (d : value) (ds : list value) (r : value) :
  latest kf (d :: ds) r
  = latest kf ds (if matches (ident kf d) r then d else r).
Proof. reflexivity. Qed.

Lemma latest_none (kf : list string) (ds : list value) (x : value) :
  (forall d, In d ds -> matches (ident kf d) x = false) -> latest kf ds x = x.
Proof.
  induction ds as [|d r IH]; intros H; [reflexivity|].
  rewrite latest_cons, (H d (or_introl eq_refl)). apply IH.
  intros e He. apply H. right. exact He.
Qed.

Lemma matches_same_ident (kf : list string) (d x y : value) :
  plain_on kf x -> plain_on kf y -> ident kf x = ident kf y ->
  matches (ident kf d) x = matches (ident kf d) y.
Proof.
  intros Hx Hy E.
  destruct (matches (ident kf d) x) eqn:Ex, (matches (ident kf d) y) eqn:Ey;
    try reflexivity.
  - apply (matches_ident kf d x Hx) in Ex.
    assert (H : matches (ident kf d) y = true)
      by (apply (matches_ident kf d y Hy); congruence).
    congruence.
  - apply (matches_ident kf d y Hy) in Ey.
    assert (H : matches (ident kf d) x = true)
      by (apply (matches_ident kf d x Hx); congruence).
    congruence.
Qed.

(** Of two records with one identity, the upserts leave the same
    document, or each record itself when none of them matches. *)
Lemma latest_same (kf : list string) (ds : list value) :
  (forall d, In d ds -> plain_on kf d) ->
  forall x y,
    plain_on kf x -> plain_on kf y -> ident kf x = ident kf y ->
    (exists d, In d ds /\ matches (ident kf d) x = true) ->
    latest kf ds x = latest kf ds y.
Proof.
  induction ds as [|d r IH]; intros Hds x y Hx Hy E [d0 [Hd0 Hm0]];
    [destruct Hd0|].
  rewrite !latest_cons.
  rewrite <- (matches_same_ident kf d x y Hx Hy E).
  destruct (matches (ident kf d) x) eqn:Em; [reflexivity|].
  destruct Hd0 as [->|Hd0]; [congruence|].
  apply IH; try assumption.
  - intros e He. apply Hds. right. exact He.
  - exists d0. auto.
Qed.

Lemma upsert_all_map (kf : list string) (ds : list value) :
  (forall d, In d ds -> plain_on kf d) ->
  forall recs,
    distinct_ids kf recs ->
    (forall d, In d ds -> exists r, In r recs /\ matches (ident kf d) r = true) ->
    upsert_all kf ds recs = map (latest kf ds) recs.
Proof.
  induction ds as [|d rest IH]; intros Hds recs Hdist Hpres.
  - unfold upsert_all, latest. simpl. rewrite map_id. reflexivity.
  - pose proof (Hds d (or_introl eq_refl)) as Hd.
    change (upsert_all kf (d :: rest) recs)
      with (upsert_all kf rest (replace_one (ident kf d) d recs)).
    rewrite IH.
    + rewrite (replace_one_map kf d recs Hd Hdist (Hpres d (or_introl eq_refl))).
      rewrite map_map. reflexivity.
    + intros e He. apply Hds. right. exact He.
    + apply replace_one_distinct; assumption.
    + intros e He. destruct (Hpres e (or_intror He)) as [r [Hr Hm]].
      pose proof (Hds e (or_intror He)) as Hpe.
      assert (Hc : carried kf recs (ident kf e)).
      { exists r. split; [exact Hr|]. split; [apply Hdist, Hr|].
        apply (matches_ident kf e r); [apply Hdist, Hr|exact Hm]. }
      destruct (carried_step kf d recs _ Hd Hc) as [r' [Hr' [Hp' E']]].
      exists r'. split; [exact Hr'|].
      apply (matches_ident kf e r' Hp'). exact E'.
Qed.

Lemma nodup_map_eq (A B : Type) (f : A -> B) (l : list A) (x y : A) :
  NoDup (map f l) -> In x l -> In y l -> f x = f y -> x = y.
Proof.
  induction l as [|a r IH]; intros Hnd Hx Hy E; [destruct Hx|].
  simpl in Hnd. inversion Hnd as [|? ? Hn Hr]; subst.
  destruct Hx as [->|Hx], Hy as [->|Hy].
  - reflexivity.
  - exfalso. apply Hn. rewrite E. apply (in_map f _ _ Hy).
  - exfalso. apply Hn. rewrite <- E. apply (in_map f _ _ Hx).
  - apply IH; assumption.
Qed.

Lemma upsert_all_latest (kf : list string) (ds : list value) :
  (forall d, In d ds -> plain_on kf d) ->
  forall recs,
    distinct_ids kf recs ->
    forall r, In r (upsert_all kf ds recs) -> latest kf ds r = r.
Proof.
  induction ds as [|d rest IH]; intros Hds recs Hdist r Hr; [reflexivity|].
  pose proof (Hds d (or_introl eq_refl)) as Hd.
  assert (Hrest : forall e, In e rest -> plain_on kf e)
    by (intros e He; apply Hds; right; exact He).
  change (upsert_all kf (d :: rest) recs)
    with (upsert_all kf rest (replace_one (ident kf d) d recs)) in Hr.
  set (recs' := replace_one (ident kf d) d recs) in *.
  assert (Hdist' : distinct_ids kf recs')
    by (apply replace_one_distinct; assumption).
  pose proof (upsert_all_distinct kf rest Hrest recs' Hdist') as Hd1.
  rewrite latest_cons. destruct (matches (ident kf d) r) eqn:Em.
  - pose proof (proj2 Hd1 r Hr) as Hpr.
    assert (E : ident kf d = ident kf r).
    { symmetry. apply (matches_ident kf d r Hpr). exact Em. }
    destruct (existsb (fun e => matches (ident kf e) d) rest) eqn:Ex.
    + apply existsb_exists in Ex. destruct Ex as [e [He Hme]].
      rewrite (latest_same kf rest Hrest d r Hd Hpr E).
      * apply (IH Hrest recs' Hdist' r Hr).
      * exists e. auto.
    + assert (Hnone : forall e, In e rest -> matches (ident kf e) d = false).
      { intros e He. destruct (matches (ident kf e) d) eqn:Hme; [|reflexivity].
        assert (H : existsb (fun e => matches (ident kf e) d) rest = true)
          by (apply existsb_exists; exists e; auto).
        congruence. }
      rewrite (latest_none kf rest d Hnone).
      assert (Hin : In d (upsert_all kf rest recs')).
      { apply upsert_all_keeps; [exact Hnone|]. apply replace_one_in. }
      apply (nodup_map_eq _ _ (ident kf) _ d r (proj1 Hd1) Hin Hr E).
  - apply (IH Hrest recs' Hdist' r Hr).
Qed.

(** The upserts of a batch, made again, change nothing. *)
Lemma upsert_all_again (kf : list string) (ds recs : list value) :
  (forall d, In d ds -> plain_on kf d) ->
  distinct_ids kf recs ->
  upsert_all kf ds (upsert_all kf ds recs) = upsert_all kf ds recs.
Proof.
  intros Hds Hdist.
  pose proof (upsert_all_distinct kf ds Hds recs Hdist) as Hd1.
  rewrite (upsert_all_map kf ds Hds _ Hd1).
  - rewrite <- (map_id (upsert_all kf ds recs)) at 2. apply map_ext_in.
    intros r Hr. apply (upsert_all_latest kf ds Hds recs Hdist r Hr).
  - intros d Hd.
    destruct (proj1 (upsert_all_carried kf ds Hds recs) d Hd)
      as [r [Hr [Hp E]]].
    exists r. split; [exact Hr|]. apply (matches_ident kf d r Hp). exact E.
Qed.

Lemma plain_on_getitem (kf : list string) (d : value) (j : string) :
  plain_on kf d -> In j kf -> getitem d j = Ok (field d j).
Proof.
  intros H Hj. destruct (H j Hj) as [v [Hv _]]. unfold field. rewrite Hv.
  destruct d as [| | | | |kv]; try discriminate. simpl in *. rewrite Hv.
  reflexivity.
Qed.

(** X19: a batch of documents that hold nothing to save, written a
    second time, leaves the store exactly as the first write left it: the
    records of both collections, their order and the next identifier.
    The documents have plain key fields, and so have the stored documents,
    which are distinct in them. *)
Theorem update_again_same (st : JobStore) (batch : list value)
  (k : option (list string)) (sv : save_arg) :
  (forall d, In d batch -> saved_locations (save_names st sv) d = []) ->
  (forall d, In d batch -> plain_on (key_fields st k) d) ->
  distinct_ids (key_fields st k) (records (docs_store st)) ->
  exists st1,
    update st (ManyDocs batch) k sv = Ok st1
    /\ update st1 (ManyDocs batch) k sv = Ok st1.
Proof.
  intros Hnone Hplain Hdist.
  set (kf := key_fields st k) in *.
  assert (Hupd : forall recs,
            update {| docs_store := {| key := key (docs_store st); records := recs |};
                      data_store := data_store st;
                      save := save st; load := load st;
                      next_uuid := next_uuid st |} (ManyDocs batch) k sv
            = Ok {| docs_store := {| key := key (docs_store st);
                                     records := upsert_all kf batch recs |};
                    data_store := data_store st;
                    save := save st; load := load st;
                    next_uuid := next_uuid st |}).
  { intros recs. unfold update. cbn [save next_uuid docs_store data_store load].
    fold (save_names st sv). rewrite (stage_all_nothing _ _ _ Hnone).
    cbn [bind].
    assert (Hk : match k with
                 | Some _ => Some ["uuid"; "index"]
                 | None => None
                 end = match k with
                       | Some _ => Some kf
                       | None => None
                       end) by (destruct k; reflexivity).
    rewrite Hk. rewrite coll_update_upserts.
    - cbn [bind key records].
      assert (Hkf : match match k with Some _ => Some kf | None => None end with
                    | Some l => l
                    | None => [key (docs_store st)]
                    end = kf) by (unfold kf, key_fields; destruct k; reflexivity).
      rewrite Hkf.
      destruct (save_names st sv); [reflexivity|].
      rewrite coll_update_nil. reflexivity.
    - cbn [key]. intros d j Hd Hj. apply (plain_on_getitem kf d j (Hplain d Hd)).
      unfold kf, key_fields. destruct k; exact Hj. }
  exists {| docs_store := {| key := key (docs_store st);
                             records := upsert_all kf batch (records (docs_store st)) |};
            data_store := data_store st;
            save := save st; load := load st; next_uuid := next_uuid st |}.
  split.
  - rewrite <- (Hupd (records (docs_store st))). f_equal.
    destruct st as [[kd rd] ds s l n]. reflexivity.
  - rewrite Hupd. rewrite (upsert_all_again kf batch _ Hplain Hdist). reflexivity.
Qed.

Lemma update_again_same_witness :
  exists st1,
    update out_store (ManyDocs [doc_rev1; out_rev2]) (Some []) (SaveBool false)
    = Ok st1
    /\ update st1 (ManyDocs [doc_rev1; out_rev2]) (Some []) (SaveBool false)
       = Ok st1.
Proof.
  refine (update_again_same out_store [doc_rev1; out_rev2] (Some [])
            (SaveBool false) _ _ _).
  - intros d _. reflexivity.
  - intros d [<-|[<-|[]]] j [<-|[<-|[]]]; eexists; split; reflexivity.
  - split.
    + simpl. constructor; [intros [H|[]]; discriminate|].
      constructor; [intros []|constructor].
    + intros r [<-|[<-|[]]] j [<-|[<-|[]]]; eexists; split; reflexivity.
Defined.

(** ** A stub key at the top of a document *)

(** X20: when the first document that the document collection returns
    has a [blob_uuid] key at its top level, and the load specification is a
    list whose first selector is a field name, [query] raises
    [IndexError]: the location of that key is the empty path, which has no
    last segment to compare with the name. *)
Theorem query_root_stub (st : JobStore) (crit : criteria)
  (p : option props) (s : sort_spec) (skip limit : nat)
  (x : item) (xs : list item) (n : string) (doc : value) (rest : list value) :
  prepare_item x = SName n ->
  coll_query (docs_store st) crit (with_identity p) s skip limit
  = Ok (doc :: rest) ->
  has_field doc "blob_uuid" = true ->
  query st crit p s skip limit (LoadMany (x :: xs)) = Raise IndexError.
Proof.
  intros Hx Hq Hdoc. unfold query, query_with. rewrite Hq. cbn [bind mapM].
  cbn [_prepare_load map]. rewrite Hx.
  unfold resolve_with at 1. cbn [load_truthy].
  destruct doc as [| | | | |kv]; try discriminate. cbn [has_field] in Hdoc.
  unfold find_key. rewrite lookup_dict, Hdoc. cbn [rev app map combine].
  cbn [_filter_blobs combine filter_pairs keep_for fst snd selects bind last_seg rev].
  reflexivity.
Qed.

Lemma query_root_stub_witness :
  query (new_store [VDict [("uuid", VStr "U"); ("index", VInt 1);
                           ("blob_uuid", VStr "x")]] [] [] LoadNone 0)
    [] None None 0 0 (LoadMany [IStr "data"])
  = Raise IndexError.
Proof.
  apply (query_root_stub _ [] None None 0 0 (IStr "data") [] "data"
           (VDict [("uuid", VStr "U"); ("index", VInt 1);
                   ("blob_uuid", VStr "x")]) []); reflexivity.
Defined.
